(** * Resilience and observability toolkit of cloud-optimisation

    A shallow embedding of four TypeScript modules, the properties their
    specification states about them, and further properties of the code:

    - [backend/src/utils/circuitBreaker.ts]  (modules [Breaker] and
      [Registry])
    - the cache service, [CacheService<T>]    (module [Cache])
    - [backend/src/utils/performance.ts]      (module [Performance]:
      profiler, load tester, leak detector)
    - [getAllResources] of [backend/src/services/ResourceService.ts]
      (module [ResourceService])

    Conventions of the embedding.

    - JavaScript numbers that the code only ever uses as integers (epoch
      milliseconds, counters, byte counts, thresholds) are [Z]; this is
      exact for magnitudes below 2^53.  Fractional measurements
      ([performance.now()] differences) are exact rationals [Q].  The
      result of a JavaScript division is a [Js.number], which adds [NaN]
      and the two infinities to [Q]; rounding and signed zeros are not
      represented.
    - [Date.now()] is an oracle: the [i]-th call made by the modelled code
      returns [clock w i].  Nothing is assumed about the oracle unless a
      theorem says so.
    - Mutable objects are threaded explicitly: every method is a function in
      a state-and-exception monad over the object and the [World] (clock,
      logger calls, pending timers, and the store the wrapped operations
      act on). *)

From Stdlib Require Import ZArith QArith Qround Qfield List Lia.
From Stdlib Require Import Sorting.Sorted Sorting.Permutation Floats.SpecFloat.
From stdpp Require Import base strings gmap list pretty.

Local Open Scope Z_scope.

(** ** JavaScript runtime: completions, numbers, clock, logger, timers *)

Module Js.

(** A call either returns normally or throws. *)
Inductive Completion (E A : Type) : Type :=
| Normal (a : A)
| Abrupt (e : E).
Arguments Normal {E A} a.
Arguments Abrupt {E A} e.

(** What a method of the toolkit can throw: an error object it builds
    itself (constructor name and message), or the very value [e] that a
    wrapped operation threw. *)
Inductive Thrown (E : Type) : Type :=
| JsError (ctor : string) (message : string)
| Raised (e : E).
Arguments JsError {E} ctor message.
Arguments Raised {E} e.

(** State-and-exception monad.  The state survives a throw, as the
    mutations of a JavaScript object survive an exception. *)
Definition M (S E A : Type) : Type := S -> Completion E A * S.

Definition ret {S E A} (a : A) : M S E A := fun s => (Normal a, s).

Definition bind {S E A B} (m : M S E A) (k : A -> M S E B) : M S E B :=
  fun s => match m s with
           | (Normal a, s') => k a s'
           | (Abrupt e, s') => (Abrupt e, s')
           end.

Definition throw {S E A} (e : E) : M S E A := fun s => (Abrupt e, s).

Definition try_catch {S E A} (body : M S E A) (handler : E -> M S E A)
  : M S E A :=
  fun s => match body s with
           | (Normal a, s') => (Normal a, s')
           | (Abrupt e, s') => handler e s'
           end.

(** *** Numbers with the non-finite values of IEEE arithmetic *)

Inductive number : Type :=
| Fin (q : Q)
| PosInf
| NegInf
| NaN.

Definition of_Z (z : Z) : number := Fin (inject_Z z).

Definition Qsgn (q : Q) : Z := Z.sgn (Qnum q).

(** [a / b] *)
Definition div (a b : number) : number :=
  match a, b with
  | NaN, _ | _, NaN => NaN
  | Fin x, Fin y =>
      if Qeq_bool y 0 then
        match Qsgn x with
        | 0 => NaN
        | Zpos _ => PosInf
        | Zneg _ => NegInf
        end
      else Fin (x / y)
  | Fin _, (PosInf | NegInf) => Fin 0
  | (PosInf | NegInf), (PosInf | NegInf) => NaN
  | PosInf, Fin y => if (Qsgn y <? 0)%Z then NegInf else PosInf
  | NegInf, Fin y => if (Qsgn y <? 0)%Z then PosInf else NegInf
  end.

(** [a * b] *)
Definition mul (a b : number) : number :=
  match a, b with
  | NaN, _ | _, NaN => NaN
  | Fin x, Fin y => Fin (x * y)
  | Fin x, PosInf | PosInf, Fin x =>
      match Qsgn x with 0 => NaN | Zpos _ => PosInf | Zneg _ => NegInf end
  | Fin x, NegInf | NegInf, Fin x =>
      match Qsgn x with 0 => NaN | Zpos _ => NegInf | Zneg _ => PosInf end
  | PosInf, PosInf | NegInf, NegInf => PosInf
  | PosInf, NegInf | NegInf, PosInf => NegInf
  end.

(** [a > b]; false as soon as one side is [NaN]. *)
Definition gt (a b : number) : bool :=
  match a, b with
  | NaN, _ | _, NaN => false
  | Fin x, Fin y => negb (Qle_bool x y)
  | PosInf, (Fin _ | NegInf) => true
  | Fin _, NegInf => true
  | _, _ => false
  end.

(** Truthiness of a number: [0] and [NaN] are falsy. *)
Definition truthy (a : number) : bool :=
  match a with
  | Fin q => negb (Qeq_bool q 0)
  | NaN => false
  | PosInf | NegInf => true
  end.

(** [a || 0] *)
Definition or_zero (a : number) : number := if truthy a then a else Fin 0.

(** [arr[i] || 0], where an index outside the array reads [undefined]. *)
Definition index_or_zero (arr : list Q) (i : Z) : Q :=
  if (i <? 0)%Z then 0%Q
  else match nth_error arr (Z.to_nat i) with
       | Some q => if Qeq_bool q 0 then 0%Q else q
       | None => 0%Q
       end.

(** Same value, as numbers. *)
Definition same (a b : number) : Prop :=
  match a, b with
  | Fin x, Fin y => (x == y)%Q
  | PosInf, PosInf | NegInf, NegInf | NaN, NaN => True
  | _, _ => False
  end.

(** *** The world around an object *)

Inductive LogLevel : Type := ERROR | WARN | INFO.

(** A value in the context object of a logger call.  [FIso t] stands for
    the string [new Date(t).toISOString()]. *)
Inductive Field : Type :=
| FNum (z : Z)
| FStr (s : string)
| FIso (t : Z).

Record LogCall : Type := mkLogCall {
  level : LogLevel;
  message : string;
  context : list (string * Field)
}.

(** What a pending timer will run: the failure-count reset of the named
    breaker, the sweep of a cache, or the sampler of the leak detector. *)
Inductive Callback : Type :=
| ResetFailureCount (breaker : string)
| Cleanup
| Sample.

(** A callback registered with [setTimeout] or, when [repeating], with
    [setInterval]. *)
Record Timer : Type := mkTimer {
  delay : Z;
  repeating : bool;
  callback : Callback
}.

Record World (U : Type) : Type := mkWorld {
  clock : nat -> Z;
  reads : nat;
  logged : list LogCall;
  timers : list Timer;
  store : U
}.
Arguments mkWorld {U}.
Arguments clock {U}.
Arguments reads {U}.
Arguments logged {U}.
Arguments timers {U}.
Arguments store {U}.

Definition tick {U} (w : World U) : World U :=
  mkWorld (clock w) (S (reads w)) (logged w) (timers w) (store w).

Definition log_call {U} (c : LogCall) (w : World U) : World U :=
  mkWorld (clock w) (reads w) (logged w ++ [c]) (timers w) (store w).

Definition add_timer {U} (t : Timer) (w : World U) : World U :=
  mkWorld (clock w) (reads w) (logged w) (timers w ++ [t]) (store w).

Section OnObject.
Context {X U E : Type}.

(** [Date.now()] *)
Definition Date_now : M (X * World U) E Z :=
  fun '(x, w) => (Normal (clock w (reads w)), (x, tick w)).

Definition logger (l : LogLevel) (msg : string)
    (ctx : list (string * Field)) : M (X * World U) E unit :=
  fun '(x, w) => (Normal tt, (x, log_call (mkLogCall l msg ctx) w)).

(** [setTimeout(callback, delay)] *)
Definition setTimeout (c : Callback) (ms : Z) : M (X * World U) E unit :=
  fun '(x, w) => (Normal tt, (x, add_timer (mkTimer ms false c) w)).

(** [setInterval(callback, delay)] *)
Definition setInterval (c : Callback) (ms : Z) : M (X * World U) E unit :=
  fun '(x, w) => (Normal tt, (x, add_timer (mkTimer ms true c) w)).

Definition this : M (X * World U) E X := fun '(x, w) => (Normal x, (x, w)).

Definition update (f : X -> X) : M (X * World U) E unit :=
  fun '(x, w) => (Normal tt, (f x, w)).
End OnObject.

(** Time values a [Date] can hold; [toISOString] throws a [RangeError]
    on any other. *)
Definition valid_time (t : Z) : bool :=
  (-8640000000000000 <=? t) && (t <=? 8640000000000000).

Definition toISOString {S E} (t : Z) : M S (Thrown E) Field :=
  if valid_time t then ret (FIso t)
  else throw (JsError "RangeError" "Invalid time value").

End Js.

Notation "x <- m ;; k" := (Js.bind m (fun x => k))
  (at level 100, m at next level, right associativity).
Notation "m ;;; k" := (Js.bind m (fun _ => k))
  (at level 100, right associativity).

(** ** circuitBreaker.ts *)

Module Breaker.
Import Js.

Inductive CircuitState : Type := CLOSED | OPEN | HALF_OPEN.

Definition state_name (s : CircuitState) : string :=
  match s with
  | CLOSED => "CLOSED"
  | OPEN => "OPEN"
  | HALF_OPEN => "HALF_OPEN"
  end.

Record CircuitBreakerOptions : Type := mkOptions {
  failureThreshold : Z;
  successThreshold : Z;
  timeout : Z;
  resetTimeout : Z
}.

Definition default_options : CircuitBreakerOptions :=
  mkOptions 5 3 60000 300000.

Record CircuitBreakerStats : Type := mkStats {
  stats_state : CircuitState;
  stats_failureCount : Z;
  stats_successCount : Z;
  stats_nextAttempt : Z;
  stats_totalRequests : Z;
  stats_totalFailures : Z;
  stats_totalSuccesses : Z
}.

Record CircuitBreaker : Type := mkBreaker {
  name : string;
  options : CircuitBreakerOptions;
  state : CircuitState;
  failureCount : Z;
  successCount : Z;
  nextAttempt : Z;
  totalRequests : Z;
  totalFailures : Z;
  totalSuccesses : Z
}.

(** [new CircuitBreaker(name, options)] *)
Definition create (n : string) (o : option CircuitBreakerOptions)
  : CircuitBreaker :=
  mkBreaker n (default default_options o) CLOSED 0 0 0 0 0 0.

Definition set_state (s : CircuitState) (b : CircuitBreaker) :=
  mkBreaker (name b) (options b) s (failureCount b) (successCount b)
    (nextAttempt b) (totalRequests b) (totalFailures b) (totalSuccesses b).
Definition set_failureCount (n : Z) (b : CircuitBreaker) :=
  mkBreaker (name b) (options b) (state b) n (successCount b)
    (nextAttempt b) (totalRequests b) (totalFailures b) (totalSuccesses b).
Definition set_successCount (n : Z) (b : CircuitBreaker) :=
  mkBreaker (name b) (options b) (state b) (failureCount b) n
    (nextAttempt b) (totalRequests b) (totalFailures b) (totalSuccesses b).
Definition set_nextAttempt (n : Z) (b : CircuitBreaker) :=
  mkBreaker (name b) (options b) (state b) (failureCount b) (successCount b)
    n (totalRequests b) (totalFailures b) (totalSuccesses b).
Definition set_totalRequests (n : Z) (b : CircuitBreaker) :=
  mkBreaker (name b) (options b) (state b) (failureCount b) (successCount b)
    (nextAttempt b) n (totalFailures b) (totalSuccesses b).
Definition set_totalFailures (n : Z) (b : CircuitBreaker) :=
  mkBreaker (name b) (options b) (state b) (failureCount b) (successCount b)
    (nextAttempt b) (totalRequests b) n (totalSuccesses b).
Definition set_totalSuccesses (n : Z) (b : CircuitBreaker) :=
  mkBreaker (name b) (options b) (state b) (failureCount b) (successCount b)
    (nextAttempt b) (totalRequests b) (totalFailures b) n.

Definition state_eqb (a b : CircuitState) : bool :=
  match a, b with
  | CLOSED, CLOSED | OPEN, OPEN | HALF_OPEN, HALF_OPEN => true
  | _, _ => false
  end.

Section Methods.
(** [U]: the store the wrapped operations act on; [E]: what they throw;
    [T]: what they return. *)
Context {U E T : Type}.

Definition Method (A : Type) : Type :=
  M (CircuitBreaker * World U) (Thrown E) A.

(** The wrapped [operation: () => Promise<T>], awaited: it runs on the
    world and settles with a value or a thrown [e].  Calls are taken one
    at a time: an operation does not reach the breaker it runs under. *)
Definition Operation : Type := World U -> Completion E T * World U.

Definition await (operation : Operation) : Method T :=
  fun '(b, w) => match operation w with
                 | (Normal v, w') => (Normal v, (b, w'))
                 | (Abrupt e, w') => (Abrupt (Raised e), (b, w'))
                 end.

Definition close : Method unit :=
  update (set_state CLOSED) ;;;
  update (set_failureCount 0) ;;;
  update (set_successCount 0) ;;;
  b <- this ;;
  logger INFO ("Circuit breaker '" +:+ name b +:+ "' closed - service recovered") [].

Definition open : Method unit :=
  update (set_state OPEN) ;;;
  now <- Date_now ;;
  b <- this ;;
  update (set_nextAttempt (now + timeout (options b))) ;;;
  b <- this ;;
  iso <- toISOString (nextAttempt b) ;;
  logger ERROR ("Circuit breaker '" +:+ name b +:+ "' opened due to failures")
    [("failureCount", FNum (failureCount b)); ("nextAttempt", iso)] ;;;
  setTimeout (ResetFailureCount (name b)) (resetTimeout (options b)).

(** The callback [open] hands to [setTimeout], when it fires. *)
Definition failureCountReset : Method unit :=
  b <- this ;;
  if state_eqb (state b) OPEN then
    update (set_failureCount 0) ;;;
    logger INFO ("Circuit breaker '" +:+ name b +:+ "' failure count reset") []
  else ret tt.

Definition onSuccess : Method unit :=
  update (fun b => set_totalSuccesses (totalSuccesses b + 1) b) ;;;
  b <- this ;;
  if state_eqb (state b) HALF_OPEN then
    update (fun b => set_successCount (successCount b + 1) b) ;;;
    b <- this ;;
    if successCount b >=? successThreshold (options b) then close
    else ret tt
  else if state_eqb (state b) CLOSED then
    update (set_failureCount 0)
  else ret tt.

Definition onFailure : Method unit :=
  update (fun b => set_totalFailures (totalFailures b + 1) b) ;;;
  update (fun b => set_failureCount (failureCount b + 1) b) ;;;
  b <- this ;;
  (if state_eqb (state b) HALF_OPEN then open
   else if state_eqb (state b) CLOSED
            && (failureCount b >=? failureThreshold (options b))
        then open
        else ret tt) ;;;
  b <- this ;;
  logger WARN ("Circuit breaker '" +:+ name b +:+ "' failure")
    [("state", FStr (state_name (state b)));
     ("failureCount", FNum (failureCount b));
     ("threshold", FNum (failureThreshold (options b)))].

Definition open_message (b : CircuitBreaker) (remaining : Z) : string :=
  "Circuit breaker '" +:+ name b +:+ "' is OPEN. Next attempt in "
    +:+ pretty remaining +:+ "ms".

(** The [try] statement of [execute]. *)
Definition attempt (operation : Operation) : Method T :=
  try_catch
    (result <- await operation ;;
     onSuccess ;;;
     ret result)
    (fun error =>
       onFailure ;;;
       throw error).

Definition execute (operation : Operation) : Method T :=
  update (fun b => set_totalRequests (totalRequests b + 1) b) ;;;
  b <- this ;;
  (if state_eqb (state b) OPEN then
     now <- Date_now ;;
     if now <? nextAttempt b then
       now' <- Date_now ;;
       throw (JsError "Error" (open_message b (nextAttempt b - now')))
     else
       update (set_state HALF_OPEN) ;;;
       update (set_successCount 0) ;;;
       logger INFO ("Circuit breaker '" +:+ name b
                      +:+ "' transitioning to HALF_OPEN") []
   else ret tt) ;;;
  attempt operation.

Definition getStats (b : CircuitBreaker) : CircuitBreakerStats :=
  mkStats (state b) (failureCount b) (successCount b) (nextAttempt b)
    (totalRequests b) (totalFailures b) (totalSuccesses b).

Definition forceOpen : Method unit :=
  update (set_state OPEN) ;;;
  now <- Date_now ;;
  b <- this ;;
  update (set_nextAttempt (now + timeout (options b))) ;;;
  logger WARN ("Circuit breaker '" +:+ name b +:+ "' manually opened") [].

Definition forceClose : Method unit :=
  update (set_state CLOSED) ;;;
  update (set_failureCount 0) ;;;
  update (set_successCount 0) ;;;
  b <- this ;;
  logger INFO ("Circuit breaker '" +:+ name b +:+ "' manually closed") [].

Definition reset : Method unit :=
  update (set_state CLOSED) ;;;
  update (set_failureCount 0) ;;;
  update (set_successCount 0) ;;;
  update (set_totalRequests 0) ;;;
  update (set_totalFailures 0) ;;;
  update (set_totalSuccesses 0) ;;;
  b <- this ;;
  logger INFO ("Circuit breaker '" +:+ name b +:+ "' reset") [].

(** The breaker and the world in which the probe of an OPEN breaker
    starts: what the [if] of [execute] leaves when the wait is over. *)
Definition half_opened (b : CircuitBreaker) : CircuitBreaker :=
  set_successCount 0
    (set_state HALF_OPEN (set_totalRequests (totalRequests b + 1) b)).

Definition probe_world (b : CircuitBreaker) (w : World U) : World U :=
  log_call
    (mkLogCall INFO
       ("Circuit breaker '" +:+ name b +:+ "' transitioning to HALF_OPEN") [])
    (tick w).

(** [execute] lets the call through: the breaker is not OPEN, or the
    time it reads has reached [nextAttempt]. *)
Definition admitted (b : CircuitBreaker) (w : World U) : bool :=
  negb (state_eqb (state b) OPEN && (clock w (reads w) <? nextAttempt b)).

(** The breaker and the world in which the wrapped operation then starts. *)
Definition entering (b : CircuitBreaker) (w : World U)
  : CircuitBreaker * World U :=
  if state_eqb (state b) OPEN then (half_opened b, probe_world b w)
  else (set_totalRequests (totalRequests b + 1) b, w).

(** The caller of [execute] sees the completion; the breaker and the
    world go on to the next call. *)
Definition after (operation : Operation) (s : CircuitBreaker * World U)
  : CircuitBreaker * World U :=
  snd (execute operation s).

Definition after_all (operations : list Operation)
    (s : CircuitBreaker * World U) : CircuitBreaker * World U :=
  fold_left (fun s operation => after operation s) operations s.

(** *** The breaker over its lifetime

    What can happen to a breaker: a call, an administrative override, or a
    failure-count reset timer firing.  Between two of these the world moves
    on (time passes, other code runs). *)
Inductive Event : Type :=
| Call (operation : Operation)
| ForceOpen
| ForceClose
| Reset
| TimerFires.

Definition step (ev : Event) (s : CircuitBreaker * World U)
  : CircuitBreaker * World U :=
  match ev with
  | Call operation => after operation s
  | ForceOpen => snd (forceOpen s)
  | ForceClose => snd (forceClose s)
  | Reset => snd (reset s)
  | TimerFires => snd (failureCountReset s)
  end.

Inductive reachable (n : string) (o : option CircuitBreakerOptions)
  : CircuitBreaker * World U -> Prop :=
| reachable_new w : reachable n o (create n o, w)
| reachable_step ev s : reachable n o s -> reachable n o (step ev s)
| reachable_later b w w' : reachable n o (b, w) -> reachable n o (b, w').

(** The counters agree with the state. *)
Definition sound (n : string) (o : CircuitBreakerOptions) (b : CircuitBreaker)
  : Prop :=
  name b = n /\ options b = o /\
  0 <= failureCount b /\
  (state b = CLOSED -> failureCount b < failureThreshold o) /\
  (state b = HALF_OPEN -> 0 <= successCount b < successThreshold o).

(** An operation that rejects, respectively resolves, whatever the world. *)
Definition rejects (operation : Operation) : Prop :=
  forall w, exists e w', operation w = (Abrupt e, w').
Definition resolves (operation : Operation) : Prop :=
  forall w, exists v w', operation w = (Normal v, w').

End Methods.
End Breaker.

(** ** The cache service, [CacheService<T>] *)

Module Cache.
Import Js.

Record CacheOptions : Type := mkCacheOptions {
  ttl : Z;
  maxSize : Z;
  cleanupInterval : Z
}.

Definition default_options : CacheOptions := mkCacheOptions 300000 1000 60000.

Record CacheStats : Type := mkCacheStats {
  size : Z;
  stat_hits : Z;
  stat_misses : Z;
  hitRate : number;
  avgAccessTime : number;
  stat_evictions : Z
}.

Record CacheEntry (T : Type) : Type := mkEntry {
  value : T;
  expiry : Z;
  lastAccessed : Z;
  accessCount : Z
}.
Arguments mkEntry {T}.
Arguments value {T}.
Arguments expiry {T}.
Arguments lastAccessed {T}.
Arguments accessCount {T}.

(** *** [Map<string, V>]

    A JavaScript [Map] iterates in insertion order and [evict] depends on
    that order, so the map is the list of its entries, oldest insertion
    first, with at most one entry per key. *)

Definition JsMap (V : Type) : Type := list (string * V).

Fixpoint map_get {V} (key : string) (m : JsMap V) : option V :=
  match m with
  | [] => None
  | (k, v) :: rest => if String.eqb k key then Some v else map_get key rest
  end.

Definition map_has {V} (key : string) (m : JsMap V) : bool :=
  match map_get key m with Some _ => true | None => false end.

(** [m.set(key, v)]: an existing key keeps its place, a new one goes last. *)
Fixpoint map_set {V} (key : string) (v : V) (m : JsMap V) : JsMap V :=
  match m with
  | [] => [(key, v)]
  | (k, v') :: rest =>
      if String.eqb k key then (k, v) :: rest
      else (k, v') :: map_set key v rest
  end.

Fixpoint map_delete {V} (key : string) (m : JsMap V) : JsMap V :=
  match m with
  | [] => []
  | (k, v) :: rest =>
      if String.eqb k key then rest else (k, v) :: map_delete key rest
  end.

Definition map_size {V} (m : JsMap V) : Z := Z.of_nat (length m).

Definition keys {V} (m : JsMap V) : list string := map fst m.

Record CacheService (T : Type) : Type := mkCache {
  cache : JsMap (CacheEntry T);
  hits : Z;
  misses : Z;
  evictions : Z;
  totalAccessTime : Z;
  totalAccesses : Z;
  options : CacheOptions
}.
Arguments mkCache {T}.
Arguments cache {T}.
Arguments hits {T}.
Arguments misses {T}.
Arguments evictions {T}.
Arguments totalAccessTime {T}.
Arguments totalAccesses {T}.
Arguments options {T}.

Section Methods.
Context {T U E : Type}.

Definition Method (A : Type) : Type :=
  M (CacheService T * World U) (Thrown E) A.

Definition set_cache (m : JsMap (CacheEntry T)) (c : CacheService T) :=
  mkCache m (hits c) (misses c) (evictions c) (totalAccessTime c)
    (totalAccesses c) (options c).
Definition set_hits (n : Z) (c : CacheService T) :=
  mkCache (cache c) n (misses c) (evictions c) (totalAccessTime c)
    (totalAccesses c) (options c).
Definition set_misses (n : Z) (c : CacheService T) :=
  mkCache (cache c) (hits c) n (evictions c) (totalAccessTime c)
    (totalAccesses c) (options c).
Definition set_evictions (n : Z) (c : CacheService T) :=
  mkCache (cache c) (hits c) (misses c) n (totalAccessTime c)
    (totalAccesses c) (options c).
Definition set_totalAccessTime (n : Z) (c : CacheService T) :=
  mkCache (cache c) (hits c) (misses c) (evictions c) n
    (totalAccesses c) (options c).
Definition set_totalAccesses (n : Z) (c : CacheService T) :=
  mkCache (cache c) (hits c) (misses c) (evictions c) (totalAccessTime c)
    n (options c).

(** The callback of [startCleanup], when the interval fires. *)
Definition cleanup : Method unit :=
  now <- Date_now ;;
  update (fun c =>
    set_cache (List.filter (fun kv => negb (now >? expiry (snd kv))) (cache c)) c).

Definition startCleanup : Method unit :=
  c <- this ;;
  setInterval Cleanup (cleanupInterval (options c)).

(** [new CacheService<T>(options)] *)
Definition create (o : option CacheOptions) (w : World U)
  : CacheService T * World U :=
  snd (startCleanup (mkCache [] 0 0 0 0 0 (default default_options o), w)).

(** The loop of [evict]: the running minimum and the key that holds it. *)
Definition oldest (now : Z) (m : JsMap (CacheEntry T)) : Z * option string :=
  fold_left
    (fun acc kv =>
       if lastAccessed (snd kv) <? fst acc
       then (lastAccessed (snd kv), Some (fst kv))
       else acc)
    m (now, None).

(** [if (keyToEvict)]: [null] and the empty string are falsy. *)
Definition truthy_key (k : option string) : bool :=
  match k with
  | Some s => negb (String.eqb s "")
  | None => false
  end.

Definition evict : Method unit :=
  now <- Date_now ;;
  c <- this ;;
  let keyToEvict := snd (oldest now (cache c)) in
  if truthy_key keyToEvict then
    update (fun c => set_cache (map_delete (default "" keyToEvict) (cache c)) c) ;;;
    update (fun c => set_evictions (evictions c + 1) c)
  else ret tt.

(** The cache [evict] leaves when the time it reads is [now]. *)
Definition evicted (c : CacheService T) (now : Z) : CacheService T :=
  if truthy_key (snd (oldest now (cache c))) then
    set_evictions (evictions c + 1)
      (set_cache
         (map_delete (default "" (snd (oldest now (cache c)))) (cache c)) c)
  else c.

(** The list is a map: no key occurs twice. *)
Definition wf (c : CacheService T) : Prop := NoDup (keys (cache c)).

Definition get (key : string) : Method (option T) :=
  start <- Date_now ;;
  c <- this ;;
  match map_get key (cache c) with
  | None =>
      update (fun c => set_misses (misses c + 1) c) ;;;
      ret None
  | Some entry =>
      now <- Date_now ;;
      if now >? expiry entry then
        update (fun c => set_cache (map_delete key (cache c)) c) ;;;
        update (fun c => set_misses (misses c + 1) c) ;;;
        ret None
      else
        now <- Date_now ;;
        let entry := mkEntry (value entry) (expiry entry) now
                       (accessCount entry + 1) in
        update (fun c => set_cache (map_set key entry (cache c)) c) ;;;
        update (fun c => set_hits (hits c + 1) c) ;;;
        now' <- Date_now ;;
        let accessTime := now' - start in
        update (fun c => set_totalAccessTime (totalAccessTime c + accessTime) c) ;;;
        update (fun c => set_totalAccesses (totalAccesses c + 1) c) ;;;
        (if accessTime >? 100 then
           logger WARN "Slow cache access detected"
             [("key", FStr key); ("accessTime", FNum accessTime);
              ("accessCount", FNum (accessCount entry))]
         else ret tt) ;;;
        ret (Some (value entry))
  end.

(** [ttl || this.options.ttl]: an omitted or zero [ttl] takes the default. *)
Definition ttl_or_default (t : option Z) (o : CacheOptions) : Z :=
  match t with
  | Some n => if n =? 0 then ttl o else n
  | None => ttl o
  end.

Definition set (key : string) (v : T) (t : option Z) : Method unit :=
  c <- this ;;
  (if map_size (cache c) >=? maxSize (options c) then evict else ret tt) ;;;
  now <- Date_now ;;
  now' <- Date_now ;;
  c <- this ;;
  update (set_cache
            (map_set key (mkEntry v (now + ttl_or_default t (options c)) now' 0)
               (cache c))).

Definition delete (key : string) : Method bool :=
  c <- this ;;
  update (set_cache (map_delete key (cache c))) ;;;
  ret (map_has key (cache c)).

Definition resetStats : Method unit :=
  update (set_hits 0) ;;;
  update (set_misses 0) ;;;
  update (set_evictions 0) ;;;
  update (set_totalAccessTime 0) ;;;
  update (set_totalAccesses 0).

Definition clear : Method unit :=
  update (set_cache []) ;;;
  resetStats.

Definition getStats (c : CacheService T) : CacheStats :=
  mkCacheStats
    (map_size (cache c))
    (hits c)
    (misses c)
    (or_zero (div (of_Z (hits c)) (of_Z (hits c + misses c))))
    (or_zero (div (of_Z (totalAccessTime c)) (of_Z (totalAccesses c))))
    (evictions c).

(** [clearInterval(this.cleanupTimer)] *)
Definition stop : Method unit :=
  fun '(c, w) =>
    (Normal tt,
     (c, mkWorld (clock w) (reads w) (logged w)
           (List.filter (fun t => match callback t with Cleanup => false | _ => true end)
              (timers w))
           (store w))).

End Methods.
End Cache.

(** ** performance.ts *)

Module Performance.
Import Js.

Record MemoryUsage : Type := mkMemoryUsage {
  rss : Z;
  heapTotal : Z;
  heapUsed : Z;
  external : Z;
  arrayBuffers : Z
}.

Record CpuUsage : Type := mkCpuUsage {
  user : Z;
  system : Z
}.

Record PerformanceMetrics : Type := mkMetrics {
  duration : Q;
  memoryUsage : MemoryUsage;
  cpuUsage : CpuUsage;
  timestamp : Z
}.

(** *** Arrays of numbers *)

(** [arr[i]]; an index outside the array reads [undefined]. *)
Definition index {A} (arr : list A) (i : Z) : option A :=
  if i <? 0 then None else nth_error arr (Z.to_nat i).

Fixpoint insert_sorted (x : Q) (sorted : list Q) : list Q :=
  match sorted with
  | [] => [x]
  | y :: rest =>
      if Qle_bool x y then x :: y :: rest else y :: insert_sorted x rest
  end.

(** [arr.sort((a, b) => a - b)]: ascending and stable. *)
Definition sort (arr : list Q) : list Q := fold_right insert_sorted [] arr.

(** [arr.reduce((a, b) => a + b, 0)] *)
Definition sum (arr : list Q) : Q := fold_left Qplus arr 0%Q.

(** [arr.reduce((acc, y, x) => f(acc, y, x), init)], [x] the index. *)
Fixpoint reduce_indexed (f : Q -> Q -> Z -> Q) (acc : Q) (x : Z) (arr : list Q)
  : Q :=
  match arr with
  | [] => acc
  | y :: rest => reduce_indexed f (f acc y x) (x + 1) rest
  end.

(** [arr.slice(-k)]: the last [k] elements, or all of them. *)
Definition slice_last {A} (k : nat) (arr : list A) : list A :=
  skipn (length arr - k) arr.

Definition len {A} (arr : list A) : Z := Z.of_nat (length arr).

(** [arr.push(x); if (arr.length > cap) arr.shift()] *)
Definition push_bounded {A} (cap : Z) (x : A) (arr : list A) : list A :=
  let arr := arr ++ [x] in
  if len arr >? cap then tl arr else arr.

(** *** PerformanceProfiler *)

Record Started : Type := mkStarted {
  label : string;
  startTime : Q;
  startMemory : MemoryUsage
}.

Record ProfileStats : Type := mkProfileStats {
  count : Z;
  avgDuration : number;
  minDuration : option Q;
  maxDuration : option Q;
  p95Duration : option Q;
  avgMemoryUsed : number
}.

(** [startProfile(label)]: the readings it captures.  [startCpu] is only
    handed back to [process.cpuUsage], whose answer [endProfile] receives. *)
Definition startProfile (l : string) (now : Q) (memory : MemoryUsage) : Started :=
  mkStarted l now memory.

(** The function [startProfile] returns, called with the readings it takes:
    [performance.now()], [process.memoryUsage()],
    [process.cpuUsage(startCpu)] and [Date.now()]. *)
Definition endProfile (p : Started) (endTime : Q) (endMemory : MemoryUsage)
    (endCpu : CpuUsage) (now : Z)
    (profiles : gmap string (list PerformanceMetrics))
  : PerformanceMetrics * gmap string (list PerformanceMetrics) :=
  let metrics :=
    mkMetrics (endTime - startTime p)%Q
      (mkMemoryUsage
         (rss endMemory - rss (startMemory p))
         (heapTotal endMemory - heapTotal (startMemory p))
         (heapUsed endMemory - heapUsed (startMemory p))
         (external endMemory - external (startMemory p))
         (arrayBuffers endMemory - arrayBuffers (startMemory p)))
      endCpu now in
  let profileArray := default [] (profiles !! label p) in
  (metrics, <[label p := push_bounded 100 metrics profileArray]> profiles).

(** [Math.floor(n * 0.95)] *)
Definition p95_index (n : Z) : Z := Qfloor (inject_Z n * (95 # 100)).

Definition getProfileStats (l : string)
    (profiles : gmap string (list PerformanceMetrics)) : option ProfileStats :=
  match profiles !! l with
  | None => None
  | Some samples =>
      if len samples =? 0 then None
      else
        let durations := sort (map duration samples) in
        let memoryUsages :=
          map (fun p => inject_Z (heapUsed (memoryUsage p))) samples in
        Some (mkProfileStats
                (len samples)
                (div (Fin (sum durations)) (of_Z (len durations)))
                (index durations 0)
                (index durations (len durations - 1))
                (index durations (p95_index (len durations)))
                (div (Fin (sum memoryUsages)) (of_Z (len memoryUsages))))
  end.

Definition getAllStats (profiles : gmap string (list PerformanceMetrics))
  : gmap string (option ProfileStats) :=
  map_imap (fun l _ => Some (getProfileStats l profiles)) profiles.

(** *** LoadTester *)

(** How one timed call [await fn()] ends: it resolves, and
    [performance.now() - iterStart] was [elapsed], or it rejects. *)
Inductive Outcome : Type :=
| Resolved (elapsed : Q)
| Rejected.

Record BenchmarkOptions : Type := mkBenchmarkOptions {
  iterations : option Z;
  concurrency : option Z;
  warmup : option Z
}.

Record BenchmarkResult : Type := mkBenchmarkResult {
  totalTime : Q;
  avgTime : number;
  minTime : Q;
  maxTime : Q;
  rps : number;
  errors : Z
}.

(** The arrays the batches share, and the loop variable [i] of each batch. *)
Record Run : Type := mkRun {
  progress : list Z;
  results : list Q;
  failed : list Z
}.

Section Benchmark.
(** [fn batch i]: the outcome of the call batch [batch] makes at its
    iteration [i].  The warm-up calls run before the arrays exist and their
    outcome is discarded, so they leave no trace here. *)
Variable fn : Z -> Z -> Outcome.
Variable options : BenchmarkOptions.

Definition the_iterations : Z := default 100 (iterations options).
Definition the_concurrency : Z := default 10 (concurrency options).

(** [Math.ceil(iterations / concurrency)], read only inside a batch, that
    is when [concurrency] is positive. *)
Definition batchSize : Z := - ((- the_iterations) / the_concurrency).

(** State when [Promise.all] is entered: one batch per index below
    [concurrency], each at [i = 0]. *)
Definition started : Run :=
  mkRun (replicate (Z.to_nat the_concurrency) 0) [] [].

(** One turn of the loop of batch [batch], if its condition holds: the
    call settles and its duration or its error is pushed. *)
Definition timed_call (batch : nat) (r : Run) : option Run :=
  match progress r !! batch with
  | None => None
  | Some i =>
      if (i <? batchSize) && (Z.of_nat batch * batchSize + i <? the_iterations)
      then
        Some match fn (Z.of_nat batch) i with
             | Resolved elapsed =>
                 mkRun (<[batch := i + 1]> (progress r))
                   (results r ++ [elapsed]) (failed r)
             | Rejected =>
                 mkRun (<[batch := i + 1]> (progress r))
                   (results r) (failed r ++ [1])
             end
      else None
  end.

(** The batches interleave at their [await]s in an order the event loop
    decides.  A schedule names the batch that takes each turn; a batch
    whose loop has ended passes. *)
Fixpoint play (schedule : list nat) (r : Run) : Run :=
  match schedule with
  | [] => r
  | batch :: rest =>
      match timed_call batch r with
      | Some r' => play rest r'
      | None => play rest r
      end
  end.

(** The outcomes of the timed calls made along a schedule, in order. *)
Fixpoint outcomes (schedule : list nat) (r : Run) : list Outcome :=
  match schedule with
  | [] => []
  | batch :: rest =>
      match progress r !! batch, timed_call batch r with
      | Some i, Some r' => fn (Z.of_nat batch) i :: outcomes rest r'
      | _, _ => outcomes rest r
      end
  end.

(** [Promise.all(batches)] has resolved: no batch has a turn left. *)
Definition settled (r : Run) : Prop :=
  forall batch, timed_call batch r = None.

(** One schedule, for evaluation: each batch runs to its end in turn. *)
Definition in_turn : list nat :=
  flat_map (fun batch => replicate (Z.to_nat batchSize) batch)
    (seq 0 (Z.to_nat the_concurrency)).

(** The object [benchmark] returns, from the elapsed [performance.now() -
    startTime] and the arrays. *)
Definition report (elapsed : Q) (r : Run) : BenchmarkResult :=
  let sortedResults := sort (results r) in
  mkBenchmarkResult
    elapsed
    (div (Fin (sum sortedResults)) (of_Z (len sortedResults)))
    (index_or_zero sortedResults 0)
    (index_or_zero sortedResults (len sortedResults - 1))
    (mul (div (of_Z (len sortedResults)) (Fin elapsed)) (of_Z 1000))
    (len (failed r)).

(** [benchmark(fn, options)] when the event loop follows [schedule], a
    schedule after which the run is [settled], and the whole run took
    [elapsed]. *)
Definition benchmark (schedule : list nat) (elapsed : Q) : BenchmarkResult :=
  report elapsed (play schedule started).

End Benchmark.

(** *** MemoryLeakDetector *)

(** What [console.warn] is given: the current heap and the trend, in MB,
    before [toFixed(2)]. *)
Record LeakWarning : Type := mkLeakWarning {
  currentHeap : number;
  trendMB : number
}.

Record Detector : Type := mkDetector {
  snapshots : list MemoryUsage;
  interval : option Z;
  console : list LeakWarning
}.

Definition calculateTrend (values : list Q) : number :=
  let n := inject_Z (len values) in
  let sumX := (n * (n - 1) / 2)%Q in
  let sumY := sum values in
  let sumXY := reduce_indexed (fun s y x => s + inject_Z x * y)%Q 0%Q 0 values in
  let sumXX :=
    reduce_indexed (fun s _ x => s + inject_Z x * inject_Z x)%Q 0%Q 0 values in
  let slope :=
    div (Fin (n * sumXY - sumX * sumY)) (Fin (n * sumXX - sumX * sumX)) in
  mul slope (Fin (n - 1)).

Definition leak_threshold : Z := 50 * 1024 * 1024.

Definition checkForLeaks (d : Detector) : Detector :=
  if len (snapshots d) <? 5 then d
  else
    let recent := slice_last 5 (snapshots d) in
    let trend := calculateTrend (map (fun s => inject_Z (heapUsed s)) recent) in
    if gt trend (of_Z leak_threshold) then
      mkDetector (snapshots d) (interval d)
        (console d ++
           [mkLeakWarning
              (match index recent (len recent - 1) with
               | Some s => div (div (of_Z (heapUsed s)) (of_Z 1024)) (of_Z 1024)
               | None => NaN
               end)
              (div (div trend (of_Z 1024)) (of_Z 1024))])
    else d.

(** The callback of the interval, given the reading of
    [process.memoryUsage()]. *)
Definition sample (usage : MemoryUsage) (d : Detector) : Detector :=
  checkForLeaks
    (mkDetector (push_bounded 20 usage (snapshots d)) (interval d) (console d)).

Definition start (intervalMs : option Z) (d : Detector) : Detector :=
  match interval d with
  | Some _ => d
  | None => mkDetector (snapshots d) (Some (default 30000 intervalMs)) (console d)
  end.

Definition stop (d : Detector) : Detector :=
  mkDetector (snapshots d) None (console d).

(** [getMemoryStats()], given the reading of [process.memoryUsage()]. *)
Definition getMemoryStats (current : MemoryUsage) (d : Detector)
  : MemoryUsage * number * Z :=
  (current,
   if len (snapshots d) >=? 2
   then calculateTrend
          (map (fun s => inject_Z (heapUsed s)) (slice_last 5 (snapshots d)))
   else Fin 0,
   len (snapshots d)).

End Performance.

(** ** Reference definitions

    What the specification names, written from its words, to compare the
    code with. *)

Module Reference.
Import Js Performance.

Definition mean (values : list Q) : Q := (sum values / inject_Z (len values))%Q.

(** The sample positions 0, 1, ..., n - 1. *)
Definition abscissae (n : nat) : list Q :=
  map (fun i => inject_Z (Z.of_nat i)) (seq 0 n).

(** Ordinary least squares: the slope of the line fitted to the points
    [(i, ys[i])] is the co-deviation of positions and values over the
    squared deviation of the positions. *)
Definition least_squares_slope (ys : list Q) : Q :=
  let xs := abscissae (length ys) in
  let mx := mean xs in
  let my := mean ys in
  (sum (zip_with (fun x y => (x - mx) * (y - my)) xs ys)
   / sum (map (fun x => (x - mx) * (x - mx)) xs))%Q.

(** The slope scaled by n - 1: the drift over the sampled window. *)
Definition drift (ys : list Q) : Q :=
  (least_squares_slope ys * inject_Z (len ys - 1))%Q.

(** The heap-used values [checkForLeaks] looks at. *)
Definition recent_heap (d : Detector) : list Q :=
  map (fun s => inject_Z (heapUsed s)) (slice_last 5 (snapshots d)).

(** [checkForLeaks] writes a warning. *)
Definition warns (d : Detector) : Prop :=
  exists warning, console (checkForLeaks d) = console d ++ [warning].

Definition MB : Z := 1024 * 1024.

(** The durations of the calls that resolved, and the number of those that
    rejected. *)
Definition durations (calls : list Outcome) : list Q :=
  flat_map (fun o => match o with Resolved d => [d] | Rejected => [] end) calls.

Definition rejections (calls : list Outcome) : nat :=
  length (List.filter (fun o => match o with Rejected => true | _ => false end)
            calls).

(** *** [n * 0.95] in binary64

    [p95_index] multiplies exactly.  The code multiplies two doubles; these
    definitions compute that product with the IEEE 754 model of the
    standard library, to check that nothing is lost on the sizes a profile
    buffer can have. *)

Definition b64_of_Z (n : Z) : spec_float := binary_normalize 53 1024 n 0 false.

(** The double nearest to 0.95. *)
Definition b64_0_95 : spec_float := S754_finite false 8556839292003942 (-53).

Definition b64_floor (x : spec_float) : option Z :=
  match x with
  | S754_zero _ => Some 0
  | S754_finite s m e =>
      let v := cond_Zopp s (Zpos m) in
      Some (if e <? 0 then v / 2 ^ (- e) else v * 2 ^ e)
  | _ => None
  end.

Definition b64_p95_index (n : Z) : option Z :=
  b64_floor (SFmul 53 1024 (b64_of_Z n) b64_0_95).

End Reference.

(** ** Concrete breakers, caches, profiles and runs *)

Module Mock.
Import Js.

(** A store that counts the calls of the wrapped operation. *)
Definition bump (w : World nat) : World nat :=
  mkWorld (clock w) (reads w) (logged w) (timers w) (S (store w)).

Definition succeed : @Breaker.Operation nat string Z :=
  fun w => (Normal 42, bump w).

Definition fail : @Breaker.Operation nat string Z :=
  fun w => (Abrupt "boom"%string, bump w).

(** A world whose clock stands still at [t]. *)
Definition at_time (t : Z) : World nat := mkWorld (fun _ => t) 0 [] [] 0%nat.

Definition strict : Breaker.CircuitBreakerOptions :=
  Breaker.mkOptions 3 2 60000 300000.

Definition fresh : Breaker.CircuitBreaker :=
  Breaker.create "db" (Some strict).

Definition opened : Breaker.CircuitBreaker :=
  Breaker.mkBreaker "db" strict Breaker.OPEN 3 0 61000 3 3 0.

Definition probing : Breaker.CircuitBreaker :=
  Breaker.mkBreaker "db" strict Breaker.HALF_OPEN 3 0 61000 4 3 0.

(** A breaker that opens on the first failure, for 9e15 ms. *)
Definition stubborn : Breaker.CircuitBreaker :=
  Breaker.create "db" (Some (Breaker.mkOptions 1 1 9000000000000000 300000)).

Definition empty_cache : Cache.CacheService Z :=
  Cache.mkCache [] 0 0 0 0 0 Cache.default_options.

(** A cache that holds one entry at most. *)
Definition tiny_cache : Cache.CacheService Z :=
  Cache.mkCache [] 0 0 0 0 0 (Cache.mkCacheOptions 300000 1 60000).

(** A full cache of one entry, under the empty key, last accessed at 1000. *)
Definition unnamed_cache : Cache.CacheService Z :=
  Cache.mkCache [(""%string, Cache.mkEntry 1 301000 1000 0)] 0 0 0 0 0
    (Cache.mkCacheOptions 300000 1 60000).

Definition zero_memory : Performance.MemoryUsage :=
  Performance.mkMemoryUsage 0 0 0 0 0.

Definition took (d : Z) : Performance.PerformanceMetrics :=
  Performance.mkMetrics (inject_Z d) zero_memory (Performance.mkCpuUsage 0 0) 0.

Definition ten_samples : gmap string (list Performance.PerformanceMetrics) :=
  {[ "GET:/api"%string :=
       map took [50; 10; 100; 30; 70; 20; 90; 40; 60; 80] ]}.

Definition always_rejects : Z -> Z -> Performance.Outcome :=
  fun _ _ => Performance.Rejected.

Definition three_by_two : Performance.BenchmarkOptions :=
  Performance.mkBenchmarkOptions (Some 3) (Some 2) (Some 0).

Definition heap (used : Z) : Performance.MemoryUsage :=
  Performance.mkMemoryUsage 0 0 used 0 0.

Definition watching (heaps : list Z) : Performance.Detector :=
  Performance.mkDetector (map heap heaps) (Some 30000) [].

Definition climbing : list Z :=
  map (fun i => (100 + 15 * i) * Reference.MB) [0; 1; 2; 3; 4].

Definition falling : list Z :=
  map (fun i => (100 - 15 * i) * Reference.MB) [0; 1; 2; 3; 4].

End Mock.

(** ** circuitBreaker.ts: the registry and the wrappers *)

Module Registry.
Import Js Breaker.

Section Methods.
Context {U E T : Type}.

(** [getOrCreate(name, options)]: what [this.breakers.get(name)] then
    gives, and the map. *)
Definition getOrCreate (n : string) (o : option CircuitBreakerOptions)
    (breakers : Cache.JsMap CircuitBreaker)
  : option CircuitBreaker * Cache.JsMap CircuitBreaker :=
  let breakers :=
    if Cache.map_has n breakers then breakers
    else Cache.map_set n (create n o) breakers in
  (Cache.map_get n breakers, breakers).

Definition get (n : string) (breakers : Cache.JsMap CircuitBreaker)
  : option CircuitBreaker :=
  Cache.map_get n breakers.



(** [protectedCall(name, operation, options)]: [execute] runs on the
    breaker object the registry holds under [name], so what it does to the
    breaker stays in the map. *)
Definition protectedCall (n : string) (operation : @Operation U E T)
    (o : option CircuitBreakerOptions)
  : M (Cache.JsMap CircuitBreaker * World U) (Thrown E) T :=
  fun '(breakers, w) =>
    match getOrCreate n o breakers with
    | (Some breaker, breakers) =>
        let r := execute operation (breaker, w) in
        (fst r, (Cache.map_set n (fst (snd r)) breakers, snd (snd r)))
    | (None, breakers) =>
        (Abrupt (JsError "TypeError"
                   "Cannot read properties of undefined (reading 'execute')"),
         (breakers, w))
    end.

(** The method [withCircuitBreaker(name, options)] puts in place of
    [originalMethod], called with [args]. *)
Definition withCircuitBreaker {Args : Type} (n : string)
    (o : option CircuitBreakerOptions)
    (originalMethod : Args -> @Operation U E T) (args : Args)
  : M (Cache.JsMap CircuitBreaker * World U) (Thrown E) T :=
  protectedCall n (originalMethod args) o.

(** Calls made one after the other under one name. *)
Definition after_calls (n : string) (o : option CircuitBreakerOptions)
    (operations : list (@Operation U E T))
    (s : Cache.JsMap CircuitBreaker * World U)
  : Cache.JsMap CircuitBreaker * World U :=
  fold_left (fun s operation => snd (protectedCall n operation o s))
    operations s.

End Methods.
End Registry.

(** ** Runs of events *)

Module Life.
Import Js.

Section OfBreaker.
Context {U E T : Type}.

Definition run (events : list (@Breaker.Event U E T))
    (s : Breaker.CircuitBreaker * World U) : Breaker.CircuitBreaker * World U :=
  fold_left (fun s ev => Breaker.step ev s) events s.

(** A call that fails, or a failure-count reset timer firing. *)
Definition failure_or_timer (ev : @Breaker.Event U E T) : Prop :=
  match ev with
  | Breaker.Call operation => Breaker.rejects operation
  | Breaker.TimerFires => True
  | _ => False
  end.

Definition calls (events : list (@Breaker.Event U E T)) : nat :=
  length (List.filter
            (fun ev => match ev with Breaker.Call _ => true | _ => false end)
            events).

End OfBreaker.

(** *** Calls that overlap

    [execute] is an [async] function: it runs to its [await operation()],
    is suspended there while the operation is pending, and is resumed when
    the operation has settled.  In between, other calls of [execute] on the
    same breaker, the overrides and the timers run, and the world moves
    on. *)

Section Overlapping.
Context {U E T : Type}.

(** [execute] up to its [await]: the request is counted, and an OPEN
    breaker throws the call out or becomes HALF_OPEN. *)
Definition gate : M (Breaker.CircuitBreaker * World U) (Thrown E) unit :=
  update (fun b => Breaker.set_totalRequests (Breaker.totalRequests b + 1) b) ;;;
  b <- this ;;
  if Breaker.state_eqb (Breaker.state b) Breaker.OPEN then
    now <- Date_now ;;
    if now <? Breaker.nextAttempt b then
      now' <- Date_now ;;
      throw (JsError "Error"
               (Breaker.open_message b (Breaker.nextAttempt b - now')))
    else
      update (Breaker.set_state Breaker.HALF_OPEN) ;;;
      update (Breaker.set_successCount 0) ;;;
      logger INFO ("Circuit breaker '" +:+ Breaker.name b
                     +:+ "' transitioning to HALF_OPEN") []
  else ret tt.

(** [execute] from its [await] on, when the operation has settled with
    [settled]: the [try] statement, with the awaited promise settled. *)
Definition resume (settled : Completion E T)
  : M (Breaker.CircuitBreaker * World U) (Thrown E) T :=
  Breaker.attempt (fun w => (settled, w)).

(** What happens to a breaker, one synchronous block at a time: a call
    enters [execute], a pending call is resumed, an event that nothing
    overlaps takes place (a whole call, an override, a timer), or the world
    moves on. *)
Inductive Moment : Type :=
| Enters
| Settles (settled : Completion E T)
| Alone (ev : @Breaker.Event U E T)
| Passes (change : World U -> World U).

(** The breaker, the world, and the number of calls that are pending. *)
Definition Busy : Type := Breaker.CircuitBreaker * World U * nat.

Definition moment (m : Moment) (s : Busy) : Busy :=
  match m with
  | Enters =>
      match gate (fst s) with
      | (Normal _, s') => (s', S (snd s))
      | (Abrupt _, s') => (s', snd s)
      end
  | Settles settled =>
      match snd s with
      | O => s
      | S pending => (snd (resume settled (fst s)), pending)
      end
  | Alone ev => (Breaker.step ev (fst s), snd s)
  | Passes change => ((fst (fst s), change (snd (fst s))), snd s)
  end.

Definition overlapping (moments : list Moment) (s : Busy) : Busy :=
  fold_left (fun s m => moment m s) moments s.

(** [reset] is only called while no call is pending. *)
Fixpoint resets_when_idle (moments : list Moment) (s : Busy) : Prop :=
  match moments with
  | [] => True
  | m :: rest =>
      match m with
      | Alone Breaker.Reset => snd s = O
      | _ => True
      end /\ resets_when_idle rest (moment m s)
  end.

End Overlapping.

Section OfCache.
Context {T U E : Type}.

(** What can happen to a cache: its four methods and the sweep of its
    interval. *)
Inductive Access : Type :=
| OnGet (key : string)
| OnSet (key : string) (v : T) (ttl : option Z)
| OnDelete (key : string)
| OnClear
| OnSweep.

Definition access (a : Access) (s : Cache.CacheService T * World U)
  : Cache.CacheService T * World U :=
  match a with
  | OnGet key => snd (@Cache.get T U E key s)
  | OnSet key v ttl => snd (@Cache.set T U E key v ttl s)
  | OnDelete key => snd (@Cache.delete T U E key s)
  | OnClear => snd (@Cache.clear T U E s)
  | OnSweep => snd (@Cache.cleanup T U E s)
  end.

Definition accesses (l : list Access) (s : Cache.CacheService T * World U)
  : Cache.CacheService T * World U :=
  fold_left (fun s a => access a s) l s.

(** The access does not store under the empty key. *)
Definition named (a : Access) : Prop :=
  match a with
  | OnSet key _ _ => key <> ""%string
  | _ => True
  end.

End OfCache.

Section OfRun.
Variable options : Performance.BenchmarkOptions.

(** Number of timed calls batch [b] makes before its loop ends: the loop
    condition [i < batchSize && batch * batchSize + i < iterations] first
    fails at this [i]. *)
Definition share (b : nat) : Z :=
  Z.max 0
    (Z.min (Performance.batchSize options)
       (Performance.the_iterations options
          - Z.of_nat b * Performance.batchSize options)).

Definition total (l : list Z) : Z := fold_right Z.add 0 l.

(** No batch is past the end of its loop. *)
Definition within (r : Performance.Run) : Prop :=
  forall b i, Performance.progress r !! b = Some i -> 0 <= i <= share b.

End OfRun.

(** No two readings of the clock are equal, and none goes back. *)
Definition strictly_increasing (clock : nat -> Z) : Prop :=
  forall i j, (i < j)%nat -> clock i < clock j.

(** What a cache keeps on a clock [clk] under options [opts]: every entry
    has a key that is not empty and was last accessed at a reading already
    made, and the map is no larger than [maxSize] (or holds the one entry a
    [maxSize] below 1 still lets in). *)
Definition within_bound {T U} (opts : Cache.CacheOptions) (clk : nat -> Z)
    (s : Cache.CacheService T * World U) : Prop :=
  clock (snd s) = clk /\
  Cache.options (fst s) = opts /\
  Cache.wf (fst s) /\
  (forall k e, In (k, e) (Cache.cache (fst s)) ->
     k <> ""%string /\
     exists i, (i < reads (snd s))%nat /\ Cache.lastAccessed e = clk i) /\
  Cache.map_size (Cache.cache (fst s)) <= Z.max (Cache.maxSize opts) 1.

End Life.

(** ** services/ResourceService.ts: [getAllResources] *)

Module ResourceService.
Import Js.

Record ResourceMetrics : Type := mkResourceMetrics {
  cpu : Z;
  memory : Z;
  network : Z
}.

Record Resource : Type := mkResource {
  id : string;
  name : string;
  type : string;
  status : string;
  region : string;
  hourlyRate : Q;
  tags : list (string * string);
  metrics : ResourceMetrics
}.

(** [fetchResources()]: the [try] block returns a literal, so the [catch]
    is never entered. *)
Definition fetchResources : list Resource :=
  [ mkResource "i-1234567890" "web-server-1" "ec2" "running" "us-east-1"
      (10 # 100) [("env", "prod"); ("role", "web")]%string
      (mkResourceMetrics 75 85 60);
    mkResource "i-0987654321" "db-server-1" "rds" "running" "us-east-1"
      (20 # 100) [("env", "prod"); ("role", "db")]%string
      (mkResourceMetrics 65 75 40);
    mkResource "i-5432109876" "cache-1" "elasticache" "running" "us-east-1"
      (15 # 100) [("env", "prod"); ("role", "cache")]%string
      (mkResourceMetrics 45 60 30) ].

Section Methods.
Context {E : Type}.

(** The store of the wrapped operation is the class's static [cache]. *)
Definition Store : Type := Cache.CacheService (list Resource).

(** A method of [this.cache], run from inside the operation. *)
Definition on_cache {A} (m : M (Store * World Store) (Thrown E) A)
  : M (World Store) (Thrown E) A :=
  fun w =>
    let r := m (store w, w) in
    (fst r,
     mkWorld (clock (snd (snd r))) (reads (snd (snd r))) (logged (snd (snd r)))
       (timers (snd (snd r))) (fst (snd r))).

(** The arrow function [getAllResources] hands to [protectedCall].  An
    array, even an empty one, is truthy: [if (cached)] tests for [null]. *)
Definition cached_or_fetched : M (World Store) (Thrown E) (list Resource) :=
  cached <- on_cache (Cache.get "all-resources") ;;
  match cached with
  | Some resources => Js.ret resources
  | None =>
      let resources := fetchResources in
      on_cache (Cache.set "all-resources" resources None) ;;;
      Js.ret resources
  end.

Definition getAllResources
  : M (Cache.JsMap Breaker.CircuitBreaker * World Store)
      (Thrown (Thrown E)) (list Resource) :=
  Registry.protectedCall "get-resources" cached_or_fetched None.

(** The breaker of [getAllResources] is not OPEN, and the cache holds
    nothing but what [getAllResources] stores. *)
Definition serving (s : Cache.JsMap Breaker.CircuitBreaker * World Store)
  : Prop :=
  (forall b, Cache.map_get "get-resources" (fst s) = Some b ->
             Breaker.state b <> Breaker.OPEN) /\
  Cache.wf (store (snd s)) /\
  (forall e, Cache.map_get "all-resources" (Cache.cache (store (snd s))) = Some e ->
             Cache.value e = fetchResources).

End Methods.
End ResourceService.

(** ** More concrete inputs *)

Module Sample.
Import Js.

(** A clock that advances by one millisecond at every reading. *)
Definition ticking (t : Z) : World nat :=
  mkWorld (fun i => t + Z.of_nat i) 0 [] [] 0%nat.

Definition two_entries : Cache.CacheService Z :=
  Cache.mkCache
    [("a"%string, Cache.mkEntry 1 1500 1000 0);
     ("b"%string, Cache.mkEntry 2 2500 1000 3)] 4 2 0 0 4
    (Cache.mkCacheOptions 300000 2 60000).

Definition readings (n : nat) : list Performance.MemoryUsage :=
  map (fun i => Mock.heap (Z.of_nat i)) (seq 0 n).

(** A world whose store is a new cache of resources. *)
Definition resources_world (t : Z) : World (@ResourceService.Store) :=
  mkWorld (fun _ => t) 0 [] []
    (Cache.mkCache [] 0 0 0 0 0 Cache.default_options).

(** The registry and the world the first call of [getAllResources] leaves. *)
Definition after_first_call
  : Cache.JsMap Breaker.CircuitBreaker * World (@ResourceService.Store) :=
  snd (@ResourceService.getAllResources string ([], resources_world 1000)).

(** The breaker of [getAllResources], OPEN until 61000. *)
Definition tripped : Breaker.CircuitBreaker :=
  Breaker.mkBreaker "get-resources" Breaker.default_options Breaker.OPEN
    5 0 61000 5 5 0.

End Sample.

(** ** Facts about the circuit breaker *)

Module BreakerFacts.
Import Js Breaker.

Ltac run_method :=
  unfold after, execute, attempt, onFailure, onSuccess, open, close, bind,
    try_catch, await, update, this, Date_now, logger, setTimeout, toISOString,
    ret, throw.

Section Facts.
Context {U E T : Type}.
Implicit Types (b : CircuitBreaker) (w : World U) (op : @Operation U E T).

(** *** The gate of [execute] *)

Lemma execute_rejected b w op :
  state b = OPEN -> clock w (reads w) < nextAttempt b ->
  execute op (b, w) =
    (Abrupt (JsError "Error"
               (open_message b (nextAttempt b - clock w (S (reads w))))),
     (set_totalRequests (totalRequests b + 1) b, tick (tick w))).
Proof.
  intros Hs Hlt. run_method; simpl.
  rewrite Hs; simpl.
  destruct (Z.ltb_spec (clock w (reads w)) (nextAttempt b)); [|lia].
  reflexivity.
Qed.

Lemma execute_probe b w op :
  state b = OPEN -> nextAttempt b <= clock w (reads w) ->
  execute op (b, w) = attempt op (half_opened b, probe_world b w).
Proof.
  intros Hs Hge. unfold execute, bind, update, this, Date_now, logger; simpl.
  rewrite Hs; simpl.
  destruct (Z.ltb_spec (clock w (reads w)) (nextAttempt b)); [lia|].
  reflexivity.
Qed.

Lemma execute_passes b w op :
  state b <> OPEN ->
  execute op (b, w) = attempt op (set_totalRequests (totalRequests b + 1) b, w).
Proof.
  intros Hs. unfold execute, bind, update, this; simpl.
  destruct (state b); simpl; congruence.
Qed.

(** *** One settled call *)

Lemma attempt_failure b w op e w' :
  op w = (Abrupt e, w') ->
  let r := attempt op (b, w) in
  let b' := fst (snd r) in
  name b' = name b /\ options b' = options b /\
  failureCount b' = failureCount b + 1 /\
  successCount b' = successCount b /\
  totalRequests b' = totalRequests b /\
  totalFailures b' = totalFailures b + 1 /\
  totalSuccesses b' = totalSuccesses b /\
  match state b with
  | HALF_OPEN =>
      state b' = OPEN /\
      nextAttempt b' = clock w' (reads w') + timeout (options b)
  | CLOSED =>
      if failureCount b + 1 >=? failureThreshold (options b)
      then state b' = OPEN /\
           nextAttempt b' = clock w' (reads w') + timeout (options b)
      else state b' = CLOSED /\ nextAttempt b' = nextAttempt b
  | OPEN => state b' = OPEN /\ nextAttempt b' = nextAttempt b
  end /\
  (fst r = Abrupt (Raised e) \/
   fst r = Abrupt (JsError "RangeError" "Invalid time value") /\
   state b' = OPEN /\ valid_time (nextAttempt b') = false).
Proof.
  intros Hop. run_method; simpl. rewrite Hop; simpl.
  destruct (state b) eqn:Hs; simpl.
  - destruct (failureCount b + 1 >=? failureThreshold (options b)); simpl.
    + destruct (valid_time _) eqn:Hv; simpl; repeat split; auto.
    + repeat split; auto.
  - repeat split; auto.
  - destruct (valid_time _) eqn:Hv; simpl; repeat split; auto.
Qed.

Lemma attempt_success b w op v w' :
  op w = (Normal v, w') ->
  let r := attempt op (b, w) in
  let b' := fst (snd r) in
  fst r = Normal v /\
  name b' = name b /\ options b' = options b /\
  nextAttempt b' = nextAttempt b /\
  totalRequests b' = totalRequests b /\
  totalFailures b' = totalFailures b /\
  totalSuccesses b' = totalSuccesses b + 1 /\
  match state b with
  | HALF_OPEN =>
      if successCount b + 1 >=? successThreshold (options b)
      then state b' = CLOSED /\ failureCount b' = 0 /\ successCount b' = 0
      else state b' = HALF_OPEN /\ failureCount b' = failureCount b /\
           successCount b' = successCount b + 1
  | CLOSED =>
      state b' = CLOSED /\ failureCount b' = 0 /\
      successCount b' = successCount b
  | OPEN =>
      state b' = OPEN /\ failureCount b' = failureCount b /\
      successCount b' = successCount b
  end.
Proof.
  intros Hop. run_method; simpl. rewrite Hop; simpl.
  destruct (state b) eqn:Hs; simpl.
  - repeat split; auto.
  - repeat split; auto.
  - destruct (successCount b + 1 >=? successThreshold (options b)); simpl;
      repeat split; auto.
Qed.

(** *** One call, start to end *)

Lemma after_failure_closed b w op :
  state b = CLOSED -> rejects op ->
  let b' := fst (after op (b, w)) in
  options b' = options b /\
  failureCount b' = failureCount b + 1 /\
  (failureCount b + 1 < failureThreshold (options b) -> state b' = CLOSED) /\
  (failureThreshold (options b) <= failureCount b + 1 -> state b' = OPEN).
Proof.
  intros Hs Hrej. destruct (Hrej w) as (e & w' & Hop).
  unfold after. rewrite execute_passes by congruence.
  pose proof (attempt_failure (set_totalRequests (totalRequests b + 1) b)
                w op e w' Hop) as H.
  cbv zeta in H. simpl state in H at 1. simpl in H. rewrite Hs in H.
  destruct H as (_ & Ho & Hf & _ & _ & _ & _ & Hst & _).
  cbv zeta. repeat split; auto.
  - intros Hlt.
    destruct (Z.geb_spec (failureCount b + 1) (failureThreshold (options b)));
      [lia | tauto].
  - intros Hle.
    destruct (Z.geb_spec (failureCount b + 1) (failureThreshold (options b)));
      [tauto | lia].
Qed.

Lemma after_success_closed b w op :
  state b = CLOSED -> resolves op ->
  let b' := fst (after op (b, w)) in
  state b' = CLOSED /\ failureCount b' = 0.
Proof.
  intros Hs Hres. destruct (Hres w) as (v & w' & Hop).
  unfold after. rewrite execute_passes by congruence.
  pose proof (attempt_success (set_totalRequests (totalRequests b + 1) b)
                w op v w' Hop) as H.
  cbv zeta in H. simpl in H. rewrite Hs in H.
  destruct H as (_ & _ & _ & _ & _ & _ & _ & Hst & Hf & _). auto.
Qed.

Lemma after_success_half_open b w op :
  state b = HALF_OPEN -> resolves op ->
  let b' := fst (after op (b, w)) in
  options b' = options b /\
  (successCount b + 1 < successThreshold (options b) ->
   state b' = HALF_OPEN /\ successCount b' = successCount b + 1) /\
  (successThreshold (options b) <= successCount b + 1 ->
   state b' = CLOSED /\ failureCount b' = 0 /\ successCount b' = 0).
Proof.
  intros Hs Hres. destruct (Hres w) as (v & w' & Hop).
  unfold after. rewrite execute_passes by congruence.
  pose proof (attempt_success (set_totalRequests (totalRequests b + 1) b)
                w op v w' Hop) as H.
  cbv zeta in H. simpl in H. rewrite Hs in H.
  destruct H as (_ & _ & Ho & _ & _ & _ & _ & Hst).
  cbv zeta. split; [assumption|].
  destruct (Z.geb_spec (successCount b + 1) (successThreshold (options b)));
    split; intros; try lia; tauto.
Qed.

(** *** Runs of calls *)

Lemma after_all_cons op (ops : list (@Operation U E T)) s :
  after_all (op :: ops) s = after_all ops (after op s).
Proof. reflexivity. Qed.

Lemma after_all_snoc (ops : list (@Operation U E T)) op s :
  after_all (ops ++ [op]) s = after op (after_all ops s).
Proof. unfold after_all. now rewrite fold_left_app. Qed.

Lemma closed_while_below (ops : list (@Operation U E T)) :
  forall b w,
    state b = CLOSED -> Forall rejects ops ->
    failureCount b + Z.of_nat (length ops) < failureThreshold (options b) ->
    let b' := fst (after_all ops (b, w)) in
    state b' = CLOSED /\ options b' = options b /\
    failureCount b' = failureCount b + Z.of_nat (length ops).
Proof.
  induction ops as [|op ops IH]; intros b w Hs Hall Hlt.
  - simpl. repeat split; auto; lia.
  - inversion Hall as [|? ? Hop Hops]; subst.
    rewrite after_all_cons.
    pose proof (after_failure_closed b w op Hs Hop) as (Ho & Hf & Hc & _).
    destruct (after op (b, w)) as [b1 w1]; simpl in Ho, Hf, Hc.
    simpl length in Hlt. rewrite Nat2Z.inj_succ in Hlt.
    destruct (IH b1 w1) as (Hs' & Ho' & Hf'); auto.
    { apply Hc. lia. }
    { rewrite Ho, Hf. lia. }
    cbv zeta. repeat split; auto; try congruence.
    rewrite Hf', Hf. simpl length. lia.
Qed.

Lemma half_open_while_below (ops : list (@Operation U E T)) :
  forall b w,
    state b = HALF_OPEN -> Forall resolves ops ->
    successCount b + Z.of_nat (length ops) < successThreshold (options b) ->
    let b' := fst (after_all ops (b, w)) in
    state b' = HALF_OPEN /\ options b' = options b /\
    successCount b' = successCount b + Z.of_nat (length ops).
Proof.
  induction ops as [|op ops IH]; intros b w Hs Hall Hlt.
  - simpl. repeat split; auto; lia.
  - inversion Hall as [|? ? Hop Hops]; subst.
    rewrite after_all_cons.
    pose proof (after_success_half_open b w op Hs Hop) as (Ho & Hc & _).
    destruct (after op (b, w)) as [b1 w1]; simpl in Ho, Hc.
    simpl length in Hlt. rewrite Nat2Z.inj_succ in Hlt.
    destruct Hc as (Hs1 & Hc1); [lia|].
    destruct (IH b1 w1) as (Hs' & Ho' & Hf'); auto.
    { rewrite Ho, Hc1. lia. }
    cbv zeta. repeat split; auto; try congruence.
    rewrite Hf', Hc1. simpl length. lia.
Qed.

Lemma opens_at_threshold (ops : list (@Operation U E T)) :
  forall b w,
    state b = CLOSED -> Forall rejects ops -> ops <> [] ->
    failureCount b + Z.of_nat (length ops) = failureThreshold (options b) ->
    state (fst (after_all ops (b, w))) = OPEN.
Proof.
  induction ops as [|op ops IH]; intros b w Hs Hall Hne Heq; [congruence|].
  inversion Hall as [|? ? Hop Hops]; subst.
  rewrite after_all_cons.
  pose proof (after_failure_closed b w op Hs Hop) as (Ho & Hf & Hc & Hopen).
  destruct (after op (b, w)) as [b1 w1]; simpl in Ho, Hf, Hc, Hopen.
  simpl length in Heq. rewrite Nat2Z.inj_succ in Heq.
  destruct ops as [|op' ops].
  - simpl. apply Hopen. simpl in Heq. lia.
  - apply IH; auto; try congruence.
    + apply Hc. simpl length in *. lia.
    + rewrite Ho, Hf. lia.
Qed.

Lemma closes_at_threshold (ops : list (@Operation U E T)) :
  forall b w,
    state b = HALF_OPEN -> Forall resolves ops -> ops <> [] ->
    successCount b + Z.of_nat (length ops) = successThreshold (options b) ->
    let b' := fst (after_all ops (b, w)) in
    state b' = CLOSED /\ failureCount b' = 0 /\ successCount b' = 0.
Proof.
  induction ops as [|op ops IH]; intros b w Hs Hall Hne Heq; [congruence|].
  inversion Hall as [|? ? Hop Hops]; subst.
  rewrite after_all_cons.
  pose proof (after_success_half_open b w op Hs Hop) as (Ho & Hc & Hclose).
  destruct (after op (b, w)) as [b1 w1]; simpl in Ho, Hc, Hclose.
  simpl length in Heq. rewrite Nat2Z.inj_succ in Heq.
  destruct ops as [|op' ops].
  - simpl. apply Hclose. simpl in Heq. lia.
  - destruct Hc as (Hs1 & Hc1); [simpl length in *; lia|].
    apply IH; auto; try congruence.
    rewrite Ho, Hc1. lia.
Qed.

Lemma after_probe_success b w op :
  state b = OPEN -> nextAttempt b <= clock w (reads w) -> resolves op ->
  let b' := fst (after op (b, w)) in
  options b' = options b /\
  (1 < successThreshold (options b) ->
   state b' = HALF_OPEN /\ successCount b' = 1) /\
  (successThreshold (options b) <= 1 ->
   state b' = CLOSED /\ failureCount b' = 0 /\ successCount b' = 0).
Proof.
  intros Hs Hge Hres.
  destruct (Hres (probe_world b w)) as (v & w' & Hop).
  unfold after. rewrite execute_probe by assumption.
  pose proof (attempt_success (half_opened b) _ op v w' Hop) as H.
  cbv zeta in H. simpl in H.
  destruct H as (_ & _ & Ho & _ & _ & _ & _ & Hst).
  cbv zeta. split; [assumption|].
  change (0 + 1) with 1 in Hst.
  destruct (Z.geb_spec 1 (successThreshold (options b)));
    split; intros; try lia; tauto.
Qed.

(** C1. An [execute] call on a breaker that is OPEN, made while the clock
    is strictly before [nextAttempt], throws the breaker's own error, whose
    message names the breaker and carries the remaining wait
    [nextAttempt - Date.now()], in decimal, followed by [ms].  The
    outcome does not depend on the wrapped operation, which is not run: the
    store it acts on is untouched.  [totalRequests] has grown by one and
    nothing else in the breaker has changed. *)
Theorem open_breaker_fails_fast b w op :
  state b = OPEN -> clock w (reads w) < nextAttempt b ->
  execute op (b, w) =
    (Abrupt (JsError "Error"
               ("Circuit breaker '" +:+ name b
                  +:+ "' is OPEN. Next attempt in "
                  +:+ pretty (nextAttempt b - clock w (S (reads w)))
                  +:+ "ms")),
     (set_totalRequests (totalRequests b + 1) b, tick (tick w)))
  /\ (forall op' : @Operation U E T, execute op' (b, w) = execute op (b, w))
  /\ store (snd (snd (execute op (b, w)))) = store w
  /\ totalRequests (fst (snd (execute op (b, w)))) = totalRequests b + 1.
Proof.
  intros Hs Hlt.
  rewrite (execute_rejected b w op Hs Hlt). repeat split.
  intros op'. apply execute_rejected; assumption.
Qed.

(** C2. A breaker that is CLOSED with no failure counted and whose
    [failureThreshold] is N >= 1 stays CLOSED through the first N - 1 of N
    consecutive failing calls, counting them, and is OPEN after the N-th.
    A successful call on a CLOSED breaker leaves it CLOSED with
    [failureCount] 0. *)
Theorem opens_on_nth_failure b w (ops : list (@Operation U E T)) :
  state b = CLOSED -> failureCount b = 0 ->
  1 <= failureThreshold (options b) ->
  Z.of_nat (length ops) = failureThreshold (options b) ->
  Forall rejects ops ->
  (forall k, (k < length ops)%nat ->
     state (fst (after_all (take k ops) (b, w))) = CLOSED /\
     failureCount (fst (after_all (take k ops) (b, w))) = Z.of_nat k) /\
  state (fst (after_all ops (b, w))) = OPEN /\
  (forall b0 w0 op,
     state b0 = CLOSED -> resolves op ->
     state (fst (after op (b0, w0))) = CLOSED /\
     failureCount (fst (after op (b0, w0))) = 0).
Proof.
  intros Hs Hf Hn Hlen Hall. repeat split.
  - pose proof (closed_while_below (take k ops) b w Hs) as Hk.
    rewrite length_take, Nat.min_l in Hk by lia.
    destruct Hk as (Hk & _); auto; [apply Forall_take; assumption | lia].
  - pose proof (closed_while_below (take k ops) b w Hs) as Hk.
    rewrite length_take, Nat.min_l in Hk by lia.
    destruct Hk as (_ & _ & Hk); auto; [apply Forall_take; assumption | lia|lia].
  - apply opens_at_threshold; auto.
    + intros ->. simpl in Hlen. lia.
    + lia.
  - apply after_success_closed; assumption.
  - apply after_success_closed; assumption.
Qed.

(** C3. (1) On an OPEN breaker, an [execute] call made when the clock has
    reached [nextAttempt] first makes the breaker HALF_OPEN with
    [successCount] 0 and then runs the wrapped operation, whose value it
    returns.  (2) From there, [successThreshold] (>= 1) consecutive
    successful calls, the probe included, leave the breaker HALF_OPEN until
    the last one, which closes it with [failureCount] and [successCount] 0.
    (3) One failing call on a HALF_OPEN breaker reopens it, with
    [nextAttempt] the time read at that moment plus [timeout]; so does a
    probe that fails. *)
Theorem breaker_recovers :
  (forall b w op,
     state b = OPEN -> nextAttempt b <= clock w (reads w) ->
     execute op (b, w) = attempt op (half_opened b, probe_world b w) /\
     state (half_opened b) = HALF_OPEN /\
     successCount (half_opened b) = 0 /\
     (forall v w', op (probe_world b w) = (Normal v, w') ->
                   fst (execute op (b, w)) = Normal v)) /\
  (forall b w (ops : list (@Operation U E T)),
     state b = OPEN -> nextAttempt b <= clock w (reads w) ->
     1 <= successThreshold (options b) ->
     Z.of_nat (length ops) = successThreshold (options b) ->
     Forall resolves ops ->
     (forall k, (1 <= k < length ops)%nat ->
        state (fst (after_all (take k ops) (b, w))) = HALF_OPEN /\
        successCount (fst (after_all (take k ops) (b, w))) = Z.of_nat k) /\
     state (fst (after_all ops (b, w))) = CLOSED /\
     failureCount (fst (after_all ops (b, w))) = 0 /\
     successCount (fst (after_all ops (b, w))) = 0) /\
  (forall b w op e w',
     state b = HALF_OPEN -> op w = (Abrupt e, w') ->
     state (fst (after op (b, w))) = OPEN /\
     nextAttempt (fst (after op (b, w)))
       = clock w' (reads w') + timeout (options b)) /\
  (forall b w op e w',
     state b = OPEN -> nextAttempt b <= clock w (reads w) ->
     op (probe_world b w) = (Abrupt e, w') ->
     state (fst (after op (b, w))) = OPEN /\
     nextAttempt (fst (after op (b, w)))
       = clock w' (reads w') + timeout (options b)).
Proof.
  split; [|split; [|split]].
  - intros b w op Hs Hge. split; [apply execute_probe; assumption|].
    repeat split.
    intros v w' Hop. rewrite execute_probe by assumption.
    apply (attempt_success (half_opened b) _ op v w' Hop).
  - intros b w ops Hs Hge Hm Hlen Hall.
    destruct ops as [|op ops]; [simpl in Hlen; lia|].
    inversion Hall as [|? ? Hop Hops]; subst.
    pose proof (after_probe_success b w op Hs Hge Hop) as (Ho & Hhalf & Hclosed).
    simpl length in *. rewrite Nat2Z.inj_succ in Hlen.
    split.
    + intros k Hk. destruct k as [|k]; [lia|].
      simpl take. rewrite after_all_cons.
      destruct (after op (b, w)) as [b1 w1]; simpl in Ho, Hhalf, Hclosed.
      destruct Hhalf as (Hs1 & Hc1); [lia|].
      pose proof (half_open_while_below (take k ops) b1 w1 Hs1) as Hk'.
      rewrite length_take, Nat.min_l in Hk' by lia.
      destruct Hk' as (? & _ & ?);
        [apply Forall_take; assumption | rewrite Ho, Hc1; lia |].
      split; [assumption | lia].
    + rewrite after_all_cons.
      destruct (after op (b, w)) as [b1 w1]; simpl in Ho, Hhalf, Hclosed.
      destruct ops as [|op' ops].
      * simpl. apply Hclosed. simpl in Hlen. lia.
      * destruct Hhalf as (Hs1 & Hc1); [simpl length in *; lia|].
        apply closes_at_threshold; auto; try congruence.
        rewrite Ho, Hc1. lia.
  - intros b w op e w' Hs Hop.
    unfold after. rewrite execute_passes by congruence.
    pose proof (attempt_failure (set_totalRequests (totalRequests b + 1) b)
                  w op e w' Hop) as H.
    cbv zeta in H. simpl in H. rewrite Hs in H.
    destruct H as (_ & _ & _ & _ & _ & _ & _ & Hst & _). exact Hst.
  - intros b w op e w' Hs Hge Hop.
    unfold after. rewrite execute_probe by assumption.
    pose proof (attempt_failure (half_opened b) _ op e w' Hop) as H.
    cbv zeta in H. simpl in H.
    destruct H as (_ & _ & _ & _ & _ & _ & _ & Hst & _). exact Hst.
Qed.

Lemma execute_admitted b w op :
  admitted b w = true -> execute op (b, w) = attempt op (entering b w).
Proof.
  unfold admitted, entering. intros H.
  destruct (state b) eqn:Hs; simpl in *.
  - apply execute_passes. congruence.
  - apply execute_probe; [assumption|].
    destruct (Z.ltb_spec (clock w (reads w)) (nextAttempt b));
      [discriminate | assumption].
  - apply execute_passes. congruence.
Qed.

(** [execute] on a breaker that lets the call through, when the wrapped
    operation throws [e]: the failure is counted, and the caller gets [e]
    itself unless the failure opened the breaker with a [nextAttempt] that
    no [Date] can hold, in which case [open] threw while building its log
    entry and the caller gets that [RangeError]. *)
Lemma execute_records_failure b w op e w' :
  admitted b w = true -> op (snd (entering b w)) = (Abrupt e, w') ->
  let r := execute op (b, w) in
  let b' := fst (snd r) in
  totalRequests b' = totalRequests b + 1 /\
  totalFailures b' = totalFailures b + 1 /\
  failureCount b' = failureCount b + 1 /\
  (fst r = Abrupt (Raised e) \/
   fst r = Abrupt (JsError "RangeError" "Invalid time value") /\
   state b' = OPEN /\ valid_time (nextAttempt b') = false).
Proof.
  intros Ha Hop. cbv zeta. rewrite execute_admitted by assumption.
  destruct (entering b w) as [b0 w0] eqn:Hin. cbn [snd] in Hop.
  pose proof (attempt_failure b0 w0 op e w' Hop) as H.
  cbv zeta in H.
  destruct H as (_ & _ & Hf & _ & Hr & Ht & _ & _ & Hthrown).
  unfold entering in Hin.
  destruct (state_eqb (state b) OPEN); injection Hin as <- <-;
    simpl in *; repeat split; assumption.
Qed.

(** The same call re-throws [e] whenever the time it would wait until is
    one a [Date] can hold. *)
Lemma execute_rethrows b w op e w' :
  admitted b w = true -> op (snd (entering b w)) = (Abrupt e, w') ->
  valid_time (clock w' (reads w') + timeout (options b)) = true ->
  fst (execute op (b, w)) = Abrupt (Raised e).
Proof.
  intros Ha Hop Hv. rewrite execute_admitted by assumption.
  destruct (entering b w) as [b0 w0] eqn:Hin. cbn [snd] in Hop.
  assert (Ho : options b0 = options b).
  { unfold entering in Hin.
    destruct (state_eqb (state b) OPEN); injection Hin as <- <-; reflexivity. }
  assert (Hs0 : state b0 <> OPEN).
  { unfold entering in Hin.
    destruct (state b) eqn:Hs; simpl in Hin; injection Hin as <- <-;
      simpl; congruence. }
  pose proof (attempt_failure b0 w0 op e w' Hop) as H.
  cbv zeta in H. rewrite Ho in H.
  destruct H as (_ & _ & _ & _ & _ & _ & _ & Hst & [Hr | (_ & Hopen & Hinv)]);
    [assumption|].
  destruct (state b0); try congruence.
  - destruct (_ >=? _); destruct Hst as (? & Hn); congruence.
  - destruct Hst as (_ & Hn). congruence.
Qed.

(** The same from any CLOSED breaker: its [failureCount] is the length of
    the streak of failures so far, and it opens at the failure that brings
    the streak to the threshold, not earlier. *)
Lemma opens_when_streak_completes b w (ops : list (@Operation U E T)) :
  state b = CLOSED -> Forall rejects ops -> ops <> [] ->
  failureCount b + Z.of_nat (length ops) = failureThreshold (options b) ->
  state (fst (after_all ops (b, w))) = OPEN /\
  forall k, (k < length ops)%nat ->
            state (fst (after_all (take k ops) (b, w))) = CLOSED.
Proof.
  intros Hs Hall Hne Heq. split; [now apply opens_at_threshold|].
  intros k Hk.
  pose proof (closed_while_below (take k ops) b w Hs) as H.
  rewrite length_take, Nat.min_l in H by lia.
  apply H; [now apply Forall_take | lia].
Qed.

(** *** What holds of every breaker, whatever happened to it *)

Lemma sound_attempt n o b w op :
  1 <= failureThreshold o -> 1 <= successThreshold o ->
  sound n o b -> sound n o (fst (snd (attempt op (b, w)))).
Proof.
  intros Hn Hm (Hname & Hopt & Hf0 & Hclosed & Hhalf).
  destruct (op w) as [[v|e] w'] eqn:Hop.
  - pose proof (attempt_success b w op v w' Hop) as H. cbv zeta in H.
    destruct H as (_ & Hname' & Hopt' & _ & _ & _ & _ & Hst).
    rewrite Hopt in Hst. unfold sound. rewrite Hname', Hopt'.
    split; [assumption|]. split; [assumption|].
    destruct (state b) eqn:Hs;
      [| | destruct (Z.geb_spec (successCount b + 1) (successThreshold o))];
      destruct Hst as (Hs' & Hf' & Hc'); rewrite Hs', Hf', ?Hc';
      repeat split; intros; try congruence; try lia;
      specialize (Hhalf eq_refl); lia.
  - pose proof (attempt_failure b w op e w' Hop) as H. cbv zeta in H.
    destruct H as (Hname' & Hopt' & Hf' & Hc' & _ & _ & _ & Hst & _).
    rewrite Hopt in Hst. unfold sound. rewrite Hname', Hopt', Hf', Hc'.
    split; [assumption|]. split; [assumption|]. split; [lia|].
    destruct (state b) eqn:Hs;
      [destruct (Z.geb_spec (failureCount b + 1) (failureThreshold o))| |];
      destruct Hst as (Hs' & _); rewrite Hs';
      repeat split; intros; try congruence; lia.
Qed.

Lemma sound_step n o (ev : @Event U E T) b w :
  1 <= failureThreshold o -> 1 <= successThreshold o ->
  sound n o b -> sound n o (fst (step ev (b, w))).
Proof.
  intros Hn Hm Hb. pose proof Hb as (Hname & Hopt & Hf0 & Hclosed & Hhalf).
  destruct ev as [op| | | |]; cbn [step].
  - unfold after.
    destruct (admitted b w) eqn:Ha.
    + rewrite execute_admitted by assumption.
      destruct (entering b w) as [b0 w0] eqn:Hin.
      apply sound_attempt; try assumption.
      unfold entering in Hin.
      destruct (state b) eqn:Hs; simpl in Hin; injection Hin as <- <-;
        unfold sound; simpl; rewrite ?Hs;
        repeat split; intros; auto; try congruence; try lia.
      all: try (specialize (Hhalf eq_refl); lia).
    + unfold admitted in Ha. apply negb_false_iff, andb_true_iff in Ha as (Hs & Hlt).
      assert (state b = OPEN) by (destruct (state b); simpl in Hs; congruence).
      rewrite execute_rejected by (try assumption; now apply Z.ltb_lt).
      unfold sound. simpl. repeat split; intros; auto; congruence.
  - unfold forceOpen; run_method; simpl. unfold sound; simpl.
    repeat split; auto; congruence.
  - unfold forceClose; run_method; simpl. unfold sound; simpl.
    repeat split; auto; try congruence; lia.
  - unfold reset; run_method; simpl. unfold sound; simpl.
    repeat split; auto; try congruence; lia.
  - unfold failureCountReset; run_method; simpl.
    destruct (state b) eqn:Hs; simpl; try assumption.
    unfold sound; simpl. rewrite Hs. repeat split; auto; try congruence; lia.
Qed.

(** X1. Every breaker made with thresholds of at least 1 is sound for as
    long as it lives, whatever calls, overrides and timers it goes through:
    its name and options are those it was made with, its failure count is
    not negative, while CLOSED its failure count is below the threshold,
    and while HALF_OPEN its success count is. *)
Lemma reachable_sound n o (s : CircuitBreaker * World U) :
  1 <= failureThreshold (default default_options o) ->
  1 <= successThreshold (default default_options o) ->
  @reachable U E T n o s -> sound n (default default_options o) (fst s).
Proof.
  intros Hn Hm Hr. induction Hr as [w | ev [b w] Hr IH | b w w' Hr IH].
  - unfold sound, create. simpl. repeat split; auto; try lia; congruence.
  - now apply sound_step.
  - exact IH.
Qed.

(** A failure-count reset that fires on a breaker that is not OPEN changes
    nothing. *)
Lemma reset_timer_idle b w :
  state b <> OPEN ->
  @failureCountReset U E (b, w) = (Normal tt, (b, w)).
Proof.
  intros Hs. unfold failureCountReset, bind, this, ret.
  destruct (state b); try congruence; reflexivity.
Qed.

End Facts.

Lemma fail_rejects : rejects Mock.fail.
Proof. intros w. now exists "boom"%string, (Mock.bump w). Qed.

Lemma succeed_resolves : resolves Mock.succeed.
Proof. intros w. now exists 42, (Mock.bump w). Qed.

(** The message of the breaker's own error, end to end. *)
Example open_message_example :
  fst (execute Mock.succeed (Mock.opened, Mock.at_time 1000)) =
    Abrupt (JsError "Error"
              "Circuit breaker 'db' is OPEN. Next attempt in 60000ms").
Proof. reflexivity. Qed.

Lemma open_breaker_fails_fast_witness :
  state Mock.opened = OPEN /\
  clock (Mock.at_time 1000) (reads (Mock.at_time 1000))
    < nextAttempt Mock.opened /\
  fst (execute Mock.succeed (Mock.opened, Mock.at_time 1000)) =
    Abrupt (JsError "Error"
              "Circuit breaker 'db' is OPEN. Next attempt in 60000ms") /\
  store (snd (snd (execute Mock.succeed (Mock.opened, Mock.at_time 1000))))
    = 0%nat /\
  totalRequests
    (fst (snd (execute Mock.succeed (Mock.opened, Mock.at_time 1000)))) = 4.
Proof.
  assert (Hs : state Mock.opened = OPEN) by reflexivity.
  assert (Hlt : clock (Mock.at_time 1000) (reads (Mock.at_time 1000))
                < nextAttempt Mock.opened) by reflexivity.
  destruct (open_breaker_fails_fast Mock.opened (Mock.at_time 1000)
              Mock.succeed Hs Hlt) as (Heq & _ & Hstore & Htotal).
  split; [exact Hs|]. split; [exact Hlt|].
  split; [rewrite Heq; reflexivity|].
  split; [exact Hstore | exact Htotal].
Defined.

Lemma opens_on_nth_failure_witness :
  state Mock.fresh = CLOSED /\ failureCount Mock.fresh = 0 /\
  1 <= failureThreshold (options Mock.fresh) /\
  Z.of_nat (length [Mock.fail; Mock.fail; Mock.fail])
    = failureThreshold (options Mock.fresh) /\
  Forall rejects [Mock.fail; Mock.fail; Mock.fail] /\
  state (fst (after_all [Mock.fail; Mock.fail]
                (Mock.fresh, Mock.at_time 1000))) = CLOSED /\
  state (fst (after_all [Mock.fail; Mock.fail; Mock.fail]
                (Mock.fresh, Mock.at_time 1000))) = OPEN.
Proof.
  assert (Hall : Forall rejects [Mock.fail; Mock.fail; Mock.fail])
    by (repeat constructor; apply fail_rejects).
  assert (Hn : 1 <= failureThreshold (options Mock.fresh)) by (simpl; lia).
  destruct (opens_on_nth_failure Mock.fresh (Mock.at_time 1000)
              [Mock.fail; Mock.fail; Mock.fail]
              eq_refl eq_refl Hn eq_refl Hall) as (Hbefore & Hopen & _).
  split; [reflexivity|]. split; [reflexivity|]. split; [exact Hn|].
  split; [reflexivity|]. split; [exact Hall|].
  split; [|exact Hopen].
  apply (Hbefore 2%nat). simpl. lia.
Defined.

Lemma breaker_recovers_witness :
  (state Mock.opened = OPEN /\
   nextAttempt Mock.opened
     <= clock (Mock.at_time 61000) (reads (Mock.at_time 61000)) /\
   fst (execute Mock.succeed (Mock.opened, Mock.at_time 61000)) = Normal 42) /\
  (1 <= successThreshold (options Mock.opened) /\
   Z.of_nat (length [Mock.succeed; Mock.succeed])
     = successThreshold (options Mock.opened) /\
   Forall resolves [Mock.succeed; Mock.succeed] /\
   state (fst (after_all [Mock.succeed]
                 (Mock.opened, Mock.at_time 61000))) = HALF_OPEN /\
   state (fst (after_all [Mock.succeed; Mock.succeed]
                 (Mock.opened, Mock.at_time 61000))) = CLOSED) /\
  (state Mock.probing = HALF_OPEN /\
   Mock.fail (Mock.at_time 70000)
     = (Abrupt "boom"%string, Mock.bump (Mock.at_time 70000)) /\
   state (fst (after Mock.fail (Mock.probing, Mock.at_time 70000))) = OPEN /\
   nextAttempt (fst (after Mock.fail (Mock.probing, Mock.at_time 70000)))
     = 70000 + 60000).
Proof.
  destruct (@breaker_recovers nat string Z)
    as (Hprobe & Hclose & Hreopen & _).
  assert (Hge : nextAttempt Mock.opened
                <= clock (Mock.at_time 61000) (reads (Mock.at_time 61000)))
    by (simpl; lia).
  assert (Hall : Forall resolves [Mock.succeed; Mock.succeed])
    by (repeat constructor; apply succeed_resolves).
  assert (Hm : 1 <= successThreshold (options Mock.opened)) by (simpl; lia).
  split; [|split].
  - destruct (Hprobe Mock.opened (Mock.at_time 61000) Mock.succeed
                eq_refl Hge) as (_ & _ & _ & Hv).
    split; [reflexivity|]. split; [exact Hge|].
    apply (Hv 42 (Mock.bump (probe_world Mock.opened (Mock.at_time 61000)))).
    reflexivity.
  - destruct (Hclose Mock.opened (Mock.at_time 61000)
                [Mock.succeed; Mock.succeed] eq_refl Hge Hm eq_refl Hall)
      as (Hhalf & Hclosed & _).
    split; [exact Hm|]. split; [reflexivity|]. split; [exact Hall|].
    split; [|exact Hclosed].
    apply (Hhalf 1%nat). simpl. lia.
  - destruct (Hreopen Mock.probing (Mock.at_time 70000) Mock.fail
                "boom"%string (Mock.bump (Mock.at_time 70000))
                eq_refl eq_refl) as (Hs & Hn).
    split; [reflexivity|]. split; [reflexivity|].
    split; [exact Hs | exact Hn].
Defined.

(** C7. A breaker whose [timeout] is 9e15 ms and whose threshold is 1 is
    given an operation that throws "boom" at a time of 1.7e12 ms.  The
    operation runs and the failure is recorded (both failure counters are 1,
    the breaker is OPEN), but the caller does not get "boom" back:
    [nextAttempt] is beyond the last time a [Date] can hold, the log entry
    of [open] cannot be built, and [execute] throws that [RangeError]
    instead. *)
Theorem failure_log_masks_error :
  let r := execute Mock.fail (Mock.stubborn, Mock.at_time 1700000000000) in
  fst r = Abrupt (JsError "RangeError" "Invalid time value") /\
  fst r <> Abrupt (Raised "boom"%string) /\
  store (snd (snd r)) = 1%nat /\
  totalFailures (fst (snd r)) = 1 /\
  failureCount (fst (snd r)) = 1 /\
  state (fst (snd r)) = OPEN /\
  nextAttempt (fst (snd r)) = 9001700000000000.
Proof. cbv zeta. repeat split. discriminate. Qed.

End BreakerFacts.

(** ** Facts about the cache *)

Module CacheFacts.
Import Js Cache.

(** *** The list model of [Map] *)

Section MapFacts.
Context {V : Type}.
Implicit Types (m : JsMap V) (k : string) (v : V).

Lemma map_get_set_eq k v m : map_get k (map_set k v m) = Some v.
Proof.
  induction m as [|[k' v'] m IH]; simpl.
  - now rewrite String.eqb_refl.
  - destruct (String.eqb_spec k' k) as [->|Hne]; simpl.
    + now rewrite String.eqb_refl.
    + destruct (String.eqb_spec k' k); [congruence | exact IH].
Qed.

Lemma map_get_set_ne k k' v m :
  k <> k' -> map_get k' (map_set k v m) = map_get k' m.
Proof.
  intros Hne. induction m as [|[k0 v0] m IH]; simpl.
  - destruct (String.eqb_spec k k'); [congruence | reflexivity].
  - destruct (String.eqb_spec k0 k) as [->|Hk]; simpl.
    + destruct (String.eqb_spec k k'); [congruence | reflexivity].
    + destruct (String.eqb_spec k0 k'); [reflexivity | exact IH].
Qed.

Lemma map_get_None k m : map_get k m = None <-> ~ In k (keys m).
Proof.
  induction m as [|[k0 v0] m IH]; simpl; [tauto|].
  destruct (String.eqb_spec k0 k) as [->|Hk].
  - split; [discriminate | intros H; exfalso; apply H; now left].
  - rewrite IH. split; [intros H [?|?]; [congruence | tauto] | tauto].
Qed.

Lemma map_get_In k v m : map_get k m = Some v -> In (k, v) m.
Proof.
  induction m as [|[k0 v0] m IH]; simpl; [discriminate|].
  destruct (String.eqb_spec k0 k) as [->|Hk].
  - intros [= ->]. now left.
  - intros H. right. auto.
Qed.

Lemma In_keys k v m : In (k, v) m -> In k (keys m).
Proof. intros H. unfold keys. change k with (fst (k, v)). now apply in_map. Qed.

Lemma In_map_get k v m : NoDup (keys m) -> In (k, v) m -> map_get k m = Some v.
Proof.
  induction m as [|[k0 v0] m IH]; simpl; [tauto|].
  intros Hnd [[= -> ->]|Hin].
  - now rewrite String.eqb_refl.
  - inversion Hnd as [|? ? Hnotin Hnd']; subst.
    destruct (String.eqb_spec k0 k) as [->|Hk].
    + exfalso. apply Hnotin. rewrite list_elem_of_In. eapply In_keys; eauto.
    + apply IH; auto.
Qed.

Lemma keys_map_set k v m k' :
  In k' (keys (map_set k v m)) <-> k' = k \/ In k' (keys m).
Proof.
  induction m as [|[k0 v0] m IH]; simpl.
  - intuition.
  - destruct (String.eqb_spec k0 k) as [->|Hk]; simpl.
    + intuition.
    + rewrite IH. intuition.
Qed.

Lemma map_set_NoDup k v m : NoDup (keys m) -> NoDup (keys (map_set k v m)).
Proof.
  induction m as [|[k0 v0] m IH]; simpl; intros Hnd.
  - constructor; [|constructor]. rewrite list_elem_of_In. simpl. tauto.
  - inversion Hnd as [|? ? Hnotin Hnd']; subst.
    destruct (String.eqb_spec k0 k) as [->|Hk]; simpl.
    + constructor; assumption.
    + constructor; [|auto].
      rewrite list_elem_of_In in *. rewrite keys_map_set. intuition.
Qed.

Lemma keys_map_delete k m k' :
  In k' (keys (map_delete k m)) -> In k' (keys m).
Proof.
  induction m as [|[k0 v0] m IH]; simpl; [tauto|].
  destruct (String.eqb_spec k0 k) as [->|Hk]; simpl; intuition.
Qed.

Lemma map_delete_NoDup k m : NoDup (keys m) -> NoDup (keys (map_delete k m)).
Proof.
  induction m as [|[k0 v0] m IH]; simpl; intros Hnd; [constructor|].
  inversion Hnd as [|? ? Hnotin Hnd']; subst.
  destruct (String.eqb_spec k0 k) as [->|Hk]; simpl; [assumption|].
  constructor; [|auto].
  rewrite list_elem_of_In in *. intros H. apply Hnotin.
  eapply keys_map_delete; eauto.
Qed.

Lemma map_get_delete_eq k m :
  NoDup (keys m) -> map_get k (map_delete k m) = None.
Proof.
  induction m as [|[k0 v0] m IH]; simpl; intros Hnd; [reflexivity|].
  inversion Hnd as [|? ? Hnotin Hnd']; subst.
  destruct (String.eqb_spec k0 k) as [->|Hk]; simpl.
  - apply map_get_None. now rewrite <- list_elem_of_In.
  - destruct (String.eqb_spec k0 k); [congruence | auto].
Qed.

Lemma map_get_delete_ne k k' m :
  k <> k' -> map_get k' (map_delete k m) = map_get k' m.
Proof.
  intros Hne. induction m as [|[k0 v0] m IH]; simpl; [reflexivity|].
  destruct (String.eqb_spec k0 k) as [->|Hk]; simpl.
  - destruct (String.eqb_spec k k'); [congruence | reflexivity].
  - destruct (String.eqb_spec k0 k'); [reflexivity | exact IH].
Qed.

Lemma filter_NoDup (f : string * V -> bool) m :
  NoDup (keys m) -> NoDup (keys (List.filter f m)).
Proof.
  induction m as [|[k0 v0] m IH]; simpl; intros Hnd; [constructor|].
  inversion Hnd as [|? ? Hnotin Hnd']; subst.
  destruct (f (k0, v0)); simpl; [|auto].
  constructor; [|auto].
  rewrite list_elem_of_In in *. intros H. apply Hnotin.
  unfold keys in *. rewrite in_map_iff in *.
  destruct H as (x & Hx & Hin). exists x. split; [assumption|].
  apply filter_In in Hin. tauto.
Qed.

End MapFacts.

Ltac run_method :=
  unfold get, set, evict, delete, clear, resetStats, cleanup, startCleanup,
    bind, update, this, Date_now, logger, setInterval, ret, throw.

Section Facts.
Context {T U E : Type}.
Implicit Types (c : CacheService T) (w : World U) (k : string) (v : T).

Local Abbreviation get := (@get T U E).
Local Abbreviation set := (@set T U E).
Local Abbreviation evict := (@evict T U E).
Local Abbreviation clear := (@clear T U E).

(** *** [get] *)

Lemma get_absent k c w :
  map_get k (cache c) = None ->
  get k (c, w) = (Normal None, (set_misses (misses c + 1) c, tick w)).
Proof. intros H. run_method; simpl. now rewrite H. Qed.

Lemma get_expired k c w e :
  map_get k (cache c) = Some e ->
  expiry e < clock w (S (reads w)) ->
  get k (c, w) =
    (Normal None,
     (set_misses (misses c + 1) (set_cache (map_delete k (cache c)) c),
      tick (tick w))).
Proof.
  intros H Hlt. run_method; simpl. rewrite H; simpl.
  destruct (Z.gtb_spec (clock w (S (reads w))) (expiry e)); [|lia].
  reflexivity.
Qed.

Lemma get_hit k c w e :
  map_get k (cache c) = Some e ->
  clock w (S (reads w)) <= expiry e ->
  let r := get k (c, w) in
  let c' := fst (snd r) in
  fst r = Normal (Some (value e)) /\
  cache c' =
    map_set k (mkEntry (value e) (expiry e) (clock w (S (S (reads w))))
                 (accessCount e + 1)) (cache c) /\
  hits c' = hits c + 1 /\ misses c' = misses c /\
  evictions c' = evictions c /\ options c' = options c /\
  totalAccesses c' = totalAccesses c + 1 /\
  totalAccessTime c' =
    totalAccessTime c + (clock w (S (S (S (reads w)))) - clock w (reads w)).
Proof.
  intros H Hle. run_method; simpl. rewrite H; simpl.
  destruct (Z.gtb_spec (clock w (S (reads w))) (expiry e)); [lia|]. simpl.
  destruct (_ >? 100); simpl; repeat split; reflexivity.
Qed.

Lemma get_returns k c w : exists r, fst (get k (c, w)) = Normal r.
Proof.
  destruct (map_get k (cache c)) as [e|] eqn:H.
  - destruct (Z.lt_ge_cases (expiry e) (clock w (S (reads w)))) as [Hlt|Hge].
    + rewrite (get_expired k c w e H Hlt). now exists None.
    + destruct (get_hit k c w e H Hge) as (Hr & _). eauto.
  - rewrite (get_absent k c w H). now exists None.
Qed.

(** *** [evict] and [set] *)

Lemma evict_eq c w :
  evict (c, w) = (Normal tt, (evicted c (clock w (reads w)), tick w)).
Proof.
  run_method; simpl. unfold evicted.
  destruct (truthy_key _); reflexivity.
Qed.

Lemma evicted_options c now : options (evicted c now) = options c.
Proof. unfold evicted. destruct (truthy_key _); reflexivity. Qed.

Lemma evicted_counters c now :
  hits (evicted c now) = hits c /\ misses (evicted c now) = misses c.
Proof. unfold evicted. destruct (truthy_key _); split; reflexivity. Qed.

Lemma set_below_capacity k v t c w :
  map_size (cache c) < maxSize (options c) ->
  set k v t (c, w) =
    (Normal tt,
     (set_cache
        (map_set k
           (mkEntry v (clock w (reads w) + ttl_or_default t (options c))
              (clock w (S (reads w))) 0)
           (cache c)) c,
      tick (tick w))).
Proof.
  intros Hlt. run_method; simpl.
  destruct (Z.geb_spec (map_size (cache c)) (maxSize (options c))); [lia|].
  reflexivity.
Qed.

Lemma set_at_capacity k v t c w :
  maxSize (options c) <= map_size (cache c) ->
  set k v t (c, w) =
    (Normal tt,
     (set_cache
        (map_set k
           (mkEntry v (clock w (S (reads w)) + ttl_or_default t (options c))
              (clock w (S (S (reads w)))) 0)
           (cache (evicted c (clock w (reads w)))))
        (evicted c (clock w (reads w))),
      tick (tick (tick w)))).
Proof.
  intros Hle. unfold Cache.set, bind at 1, this.
  destruct (Z.geb_spec (map_size (cache c)) (maxSize (options c))); [|lia].
  unfold bind at 1. rewrite evict_eq.
  run_method; simpl. now rewrite evicted_options.
Qed.

(** The scan of [evict] returns a running minimum below its start value,
    and the key of an entry that attains it. *)
Lemma oldest_scan (m : JsMap (CacheEntry T)) :
  forall (a : Z) (ka : option string),
    let r := fold_left
               (fun acc kv =>
                  if lastAccessed (snd kv) <? fst acc
                  then (lastAccessed (snd kv), Some (fst kv))
                  else acc)
               m (a, ka) in
    Forall (fun kv => fst r <= lastAccessed (snd kv)) m /\
    (r = (a, ka) \/
     fst r < a /\
     exists k e, snd r = Some k /\ In (k, e) m /\ lastAccessed e = fst r).
Proof.
  induction m as [|[k0 e0] m IH]; intros a ka; cbv zeta.
  - simpl. split; [constructor | now left].
  - cbn [fold_left fst snd].
    destruct (Z.ltb_spec (lastAccessed e0) a) as [Hlt|Hge].
    + destruct (IH (lastAccessed e0) (Some k0)) as (Hall & Hcase).
      cbv zeta in *. split.
      * constructor; [|assumption].
        destruct Hcase as [-> | (Hlt' & _)]; simpl; lia.
      * right. destruct Hcase as [Heq | (Hlt' & k & e & Hk & Hin & He)].
        -- rewrite Heq. simpl. split; [assumption|].
           exists k0, e0. repeat split. now left.
        -- split; [lia|]. exists k, e. repeat split; auto. now right.
    + destruct (IH a ka) as (Hall & Hcase).
      cbv zeta in *. split.
      * constructor; [|assumption].
        destruct Hcase as [-> | (Hlt' & _)]; simpl; lia.
      * destruct Hcase as [Heq | (Hlt' & k & e & Hk & Hin & He)];
          [now left | right].
        split; [assumption|]. exists k, e. repeat split; auto. now right.
Qed.

Lemma oldest_spec now (m : JsMap (CacheEntry T)) :
  match snd (oldest now m) with
  | None => Forall (fun kv => now <= lastAccessed (snd kv)) m
  | Some k =>
      exists e, In (k, e) m /\ lastAccessed e < now /\
                Forall (fun kv => lastAccessed e <= lastAccessed (snd kv)) m
  end.
Proof.
  unfold oldest. destruct (oldest_scan m now None) as (Hall & Hcase).
  cbv zeta in *.
  destruct Hcase as [Heq | (Hlt & k & e & Hk & Hin & He)].
  - rewrite Heq in *. exact Hall.
  - rewrite Hk. exists e. rewrite He. auto.
Qed.

(** What [evict] does when its scan ends on a key that is not the empty
    string: that key holds an oldest [lastAccessed], it is removed, and
    nothing else is. *)
Lemma evict_removes_oldest c now k :
  wf c -> snd (oldest now (cache c)) = Some k -> k <> "" ->
  exists e,
    map_get k (cache c) = Some e /\ lastAccessed e < now /\
    (forall k' e', map_get k' (cache c) = Some e' ->
                   lastAccessed e <= lastAccessed e') /\
    map_get k (cache (evicted c now)) = None /\
    (forall k', k' <> k ->
                map_get k' (cache (evicted c now)) = map_get k' (cache c)) /\
    evictions (evicted c now) = evictions c + 1.
Proof.
  intros Hwf Hk Hne. pose proof (oldest_spec now (cache c)) as H.
  rewrite Hk in H. destruct H as (e & Hin & Hlt & Hall).
  exists e. split; [now apply In_map_get|]. split; [assumption|]. split.
  { intros k' e' H'. apply map_get_In in H'.
    rewrite Forall_forall in Hall. apply (Hall (k', e')). now apply list_elem_of_In. }
  unfold evicted. rewrite Hk. simpl.
  destruct (String.eqb_spec k ""); [congruence|]. simpl.
  split; [now apply map_get_delete_eq|]. split; [|reflexivity].
  intros k' Hk'. apply map_get_delete_ne. congruence.
Qed.

(** [evict] removes nothing when no entry was last accessed strictly
    before the time it reads, or when its scan ends on the empty key. *)
Lemma evict_keeps_all c now :
  (Forall (fun kv => now <= lastAccessed (snd kv)) (cache c) \/
   snd (oldest now (cache c)) = Some "") ->
  evicted c now = c.
Proof.
  intros [Hall | Hk]; unfold evicted.
  - pose proof (oldest_spec now (cache c)) as H.
    destruct (snd (oldest now (cache c))) as [k|]; [|reflexivity].
    destruct H as (e & Hin & Hlt & _).
    rewrite Forall_forall in Hall.
    specialize (Hall (k, e)). rewrite list_elem_of_In in Hall.
    specialize (Hall Hin). simpl in Hall. lia.
  - now rewrite Hk.
Qed.

(** *** The representation invariant is kept *)

Lemma wf_evicted c now : wf c -> wf (evicted c now).
Proof.
  unfold wf, evicted. intros H. destruct (truthy_key _); simpl; [|assumption].
  now apply map_delete_NoDup.
Qed.

Lemma wf_set k v t c w : wf c -> wf (fst (snd (set k v t (c, w)))).
Proof.
  intros H.
  destruct (Z.lt_ge_cases (map_size (cache c)) (maxSize (options c))).
  - rewrite set_below_capacity by assumption. simpl.
    now apply map_set_NoDup.
  - rewrite set_at_capacity by assumption. simpl.
    apply map_set_NoDup. now apply wf_evicted.
Qed.

Lemma wf_get k c w : wf c -> wf (fst (snd (get k (c, w)))).
Proof.
  intros H. destruct (map_get k (cache c)) as [e|] eqn:Hk.
  - destruct (Z.lt_ge_cases (expiry e) (clock w (S (reads w)))) as [Hlt|Hge].
    + rewrite (get_expired k c w e Hk Hlt). simpl. now apply map_delete_NoDup.
    + destruct (get_hit k c w e Hk Hge) as (_ & Hc & _).
      unfold wf. rewrite Hc. now apply map_set_NoDup.
  - rewrite (get_absent k c w Hk). assumption.
Qed.

Lemma wf_delete k c w : wf c -> wf (fst (snd (@delete T U E k (c, w)))).
Proof. intros H. run_method; simpl. now apply map_delete_NoDup. Qed.

Lemma wf_cleanup c w : wf c -> wf (fst (snd (@cleanup T U E (c, w)))).
Proof. intros H. run_method; simpl. now apply filter_NoDup. Qed.

Lemma wf_clear c w : wf (fst (snd (clear (c, w)))).
Proof. run_method; simpl. constructor. Qed.

Lemma wf_create o w : wf (fst (@create T U E o w)).
Proof. unfold create. run_method; simpl. constructor. Qed.

(** What [set] does at capacity when the scan of [evict] finds a key to
    remove: the entry removed is one with the oldest [lastAccessed], every
    other entry stays, and the new entry is stored. *)
Lemma set_evicts_oldest k v t c w victim :
  wf c -> maxSize (options c) <= map_size (cache c) ->
  snd (oldest (clock w (reads w)) (cache c)) = Some victim -> victim <> "" ->
  let c' := fst (snd (set k v t (c, w))) in
  (exists e,
     map_get victim (cache c) = Some e /\
     forall k' e', map_get k' (cache c) = Some e' ->
                   lastAccessed e <= lastAccessed e') /\
  (victim <> k -> map_get victim (cache c') = None) /\
  (forall k', k' <> victim -> k' <> k ->
              map_get k' (cache c') = map_get k' (cache c)) /\
  (exists e, map_get k (cache c') = Some e /\ value e = v) /\
  evictions c' = evictions c + 1.
Proof.
  intros Hwf Hcap Hk Hne. cbv zeta.
  destruct (evict_removes_oldest c _ victim Hwf Hk Hne)
    as (e & He & _ & Hmin & Hgone & Hkept & Hcount).
  rewrite set_at_capacity by assumption. cbn [fst snd cache set_cache].
  split; [exists e; auto|]. split; [|split; [|split]].
  - intros Hvk. rewrite map_get_set_ne by congruence. exact Hgone.
  - intros k' Hv Hk'. rewrite map_get_set_ne by congruence. now apply Hkept.
  - rewrite map_get_set_eq. eexists. split; reflexivity.
  - exact Hcount.
Qed.

(** C4. After [set k v ttl] with [ttl > 0] the cache holds, under [k], the
    value [v] with an expiry [ttl] after a time [set] read.  A [get k] made
    in any later world whose clock, when [get] checks it, is not past that
    expiry returns [v], counts a hit and stores the new [lastAccessed] and
    an [accessCount] of 1; a [get k] whose clock is strictly past the expiry
    returns [null], removes the entry and counts a miss.  A [get] of a key
    that is not in the map returns [null] and counts a miss.  [get] always
    returns normally. *)
Theorem set_then_get c w k v (t : Z) :
  wf c -> 0 < t ->
  let c1 := fst (snd (set k v (Some t) (c, w))) in
  (exists e,
     map_get k (cache c1) = Some e /\ value e = v /\ accessCount e = 0 /\
     (exists i, (reads w <= i <= S (reads w))%nat /\
                expiry e = clock w i + t /\ lastAccessed e = clock w (S i)) /\
     forall w1 : World U,
       let r := get k (c1, w1) in
       let c2 := fst (snd r) in
       (clock w1 (S (reads w1)) <= expiry e ->
        fst r = Normal (Some v) /\
        map_get k (cache c2) =
          Some (mkEntry v (expiry e) (clock w1 (S (S (reads w1)))) 1) /\
        hits c2 = hits c1 + 1 /\ misses c2 = misses c1) /\
       (expiry e < clock w1 (S (reads w1)) ->
        fst r = Normal None /\ map_get k (cache c2) = None /\
        misses c2 = misses c1 + 1 /\ hits c2 = hits c1)) /\
  (forall c0 w0 k0,
     map_get k0 (cache c0) = None ->
     fst (get k0 (c0, w0)) = Normal None /\
     misses (fst (snd (get k0 (c0, w0)))) = misses c0 + 1 /\
     hits (fst (snd (get k0 (c0, w0)))) = hits c0) /\
  (forall c0 w0 k0, exists r, fst (get k0 (c0, w0)) = Normal r).
Proof.
  intros Hwf Ht. cbv zeta. split; [|split].
  - pose proof (wf_set k v (Some t) c w Hwf) as Hwf1.
    assert (Httl : ttl_or_default (Some t) (options c) = t).
    { unfold ttl_or_default. destruct (Z.eqb_spec t 0); [lia | reflexivity]. }
    assert (Hset : exists e i,
               map_get k (cache (fst (snd (set k v (Some t) (c, w))))) = Some e
               /\ e = mkEntry v (clock w i + t) (clock w (S i)) 0
               /\ (reads w <= i <= S (reads w))%nat).
    { destruct (Z.lt_ge_cases (map_size (cache c)) (maxSize (options c))).
      - rewrite set_below_capacity by assumption.
        cbn [fst snd cache set_cache].
        rewrite map_get_set_eq, Httl. eexists _, (reads w).
        repeat split; lia.
      - rewrite set_at_capacity by assumption.
        cbn [fst snd cache set_cache].
        rewrite map_get_set_eq, Httl. eexists _, (S (reads w)).
        repeat split; lia. }
    destruct Hset as (e & i & Hget & He & Hi).
    exists e. split; [assumption|]. subst e; simpl.
    split; [reflexivity|]. split; [reflexivity|].
    split; [exists i; repeat split; lia|].
    intros w1. split.
    + intros Hle.
      destruct (get_hit k _ w1 _ Hget Hle) as (Hr & Hc & Hh & Hm & _).
      simpl in *. rewrite Hr, Hc, Hh, Hm, map_get_set_eq. repeat split.
    + intros Hlt.
      rewrite (get_expired k _ w1 _ Hget Hlt). simpl.
      rewrite map_get_delete_eq by exact Hwf1. repeat split.
  - intros c0 w0 k0 H. rewrite (get_absent k0 c0 w0 H). repeat split.
  - intros c0 w0 k0. apply get_returns.
Qed.

(** C10. After [clear], whatever the cache held and had counted,
    [getStats] reports size 0, hits 0, misses 0, hit rate 0, average access
    time 0 and evictions 0. *)
Theorem clear_resets_statistics c w :
  getStats (fst (snd (clear (c, w)))) =
    mkCacheStats 0 0 0 (Fin 0) (Fin 0) 0.
Proof. reflexivity. Qed.

End Facts.

Lemma set_then_get_witness :
  wf Mock.empty_cache /\ 0 < 500 /\
  fst (@get Z nat string "k"
         (fst (snd (@set Z nat string "k" 7 (Some 500)
                      (Mock.empty_cache, Mock.at_time 1000))),
          Mock.at_time 1200)) = Normal (Some 7) /\
  fst (@get Z nat string "k"
         (fst (snd (@set Z nat string "k" 7 (Some 500)
                      (Mock.empty_cache, Mock.at_time 1000))),
          Mock.at_time 1600)) = Normal None.
Proof.
  assert (Hwf : wf Mock.empty_cache) by constructor.
  assert (Ht : 0 < 500) by lia.
  destruct (@set_then_get Z nat string Mock.empty_cache (Mock.at_time 1000)
              "k" 7 500 Hwf Ht)
    as ((e & _ & _ & _ & (i & _ & Hexp & _) & Hread) & _ & _).
  simpl in Hexp.
  split; [exact Hwf|]. split; [exact Ht|]. split.
  - apply (Hread (Mock.at_time 1200)). rewrite Hexp. simpl. lia.
  - apply (Hread (Mock.at_time 1600)). rewrite Hexp. simpl. lia.
Defined.

(** C5. A cache with [maxSize] 1 receives [set("a", 1)] and then
    [set("b", 2)] within the same millisecond.  The second [set] finds the
    cache at capacity and calls [evict], but the only entry was last
    accessed at the very time [evict] reads, which is not strictly before
    it: nothing is evicted, and the cache ends with two entries. *)
Theorem same_millisecond_set_evicts_nothing :
  let s1 := snd (@set Z nat string "a" 1 None
                   (Mock.tiny_cache, Mock.at_time 1000)) in
  let s2 := snd (@set Z nat string "b" 2 None s1) in
  map_size (cache (fst s1)) = 1 /\
  maxSize (options (fst s1)) = 1 /\
  keys (cache (fst s2)) = ["a"; "b"]%string /\
  map_size (cache (fst s2)) = 2 /\
  evictions (fst s2) = 0.
Proof. cbv zeta. repeat split. Qed.

(** The same at any later time when the oldest entry sits under the empty
    key: [if (keyToEvict)] takes [""] for no key. *)
Example empty_key_is_never_evicted :
  let s := snd (@set Z nat string "b" 2 None
                  (Mock.unnamed_cache, Mock.at_time 5000)) in
  keys (cache (fst s)) = [""; "b"]%string /\ evictions (fst s) = 0.
Proof. cbv zeta. repeat split. Qed.

(** When time has passed and the key is not empty, the oldest entry goes. *)
Example later_set_evicts :
  let s1 := snd (@set Z nat string "a" 1 None
                   (Mock.tiny_cache, Mock.at_time 1000)) in
  let s2 := snd (@set Z nat string "b" 2 None (fst s1, Mock.at_time 5000)) in
  keys (cache (fst s2)) = ["b"]%string /\ evictions (fst s2) = 1.
Proof. cbv zeta. repeat split. Qed.

End CacheFacts.

(** ** Facts about the profiler *)

Module ProfilerFacts.
Import Js Performance Reference.

Lemma insert_sorted_perm x l : Permutation (insert_sorted x l) (x :: l).
Proof.
  induction l as [|y l IH]; simpl; [reflexivity|].
  destruct (Qle_bool x y); [reflexivity|].
  rewrite IH. apply perm_swap.
Qed.

Lemma sort_perm l : Permutation (sort l) l.
Proof.
  induction l as [|x l IH]; simpl; [reflexivity|].
  rewrite insert_sorted_perm. now constructor.
Qed.

Lemma insert_sorted_sorted x l : Sorted Qle l -> Sorted Qle (insert_sorted x l).
Proof.
  induction l as [|y l IH]; simpl; intros Hs.
  - repeat constructor.
  - destruct (Qle_bool x y) eqn:Hxy.
    + constructor; [assumption|]. constructor. now apply Qle_bool_iff.
    + assert (Hyx : (y <= x)%Q).
      { apply Qlt_le_weak, Qnot_le_lt. rewrite <- Qle_bool_iff. congruence. }
      inversion Hs as [|? ? Hs' Hhd]; subst.
      constructor; [auto|].
      destruct l as [|z l]; simpl; [now constructor|].
      destruct (Qle_bool x z); constructor; [assumption|].
      now inversion Hhd.
Qed.

Lemma sort_sorted l : Sorted Qle (sort l).
Proof.
  induction l as [|x l IH]; simpl; [constructor|].
  now apply insert_sorted_sorted.
Qed.

Lemma sort_length l : length (sort l) = length l.
Proof. apply Permutation_length, sort_perm. Qed.

Lemma p95_index_floor n : p95_index n = (n * 95) / 100.
Proof. reflexivity. Qed.

Lemma p95_index_range n : 1 <= n -> 0 <= p95_index n < n.
Proof.
  intros Hn. rewrite p95_index_floor. split.
  - apply Z.div_pos; lia.
  - apply Z.div_lt_upper_bound; lia.
Qed.

Lemma index_in_range {A} (arr : list A) i :
  0 <= i < len arr -> exists x, index arr i = Some x.
Proof.
  intros [H0 Hlt]. unfold index, len in *.
  destruct (Z.ltb_spec i 0); [lia|].
  destruct (nth_error arr (Z.to_nat i)) eqn:Hn; [eauto|].
  apply nth_error_None in Hn. lia.
Qed.

(** A profile buffer that holds at most 100 samples still does after
    [endProfile]. *)
Lemma push_bounded_length {A} cap (x : A) arr :
  0 <= cap -> len arr <= cap -> len (push_bounded cap x arr) <= cap.
Proof.
  intros Hc H. unfold push_bounded, len in *. rewrite length_app. simpl.
  destruct (Z.gtb_spec (Z.of_nat (length arr + 1)) cap) as [Hgt|Hle].
  - destruct arr; simpl in *; rewrite ?length_app; simpl; lia.
  - rewrite length_app. simpl. lia.
Qed.

Lemma endProfile_bounded p endTime endMemory endCpu now profiles :
  map_Forall (fun _ samples => len samples <= 100) profiles ->
  map_Forall (fun _ samples => len samples <= 100)
    (snd (endProfile p endTime endMemory endCpu now profiles)).
Proof.
  intros H. unfold endProfile. cbn [snd].
  apply map_Forall_insert_2; [|assumption].
  apply push_bounded_length; [lia|].
  destruct (profiles !! label p) as [samples|] eqn:Hl; simpl.
  - exact (H _ _ Hl).
  - unfold len. simpl. lia.
Qed.

(** The constant of [b64_p95_index] is the double nearest to 0.95: it is a
    valid binary64 number within half a unit in the last place of 95/100. *)
Lemma b64_0_95_nearest :
  valid_binary 53 1024 b64_0_95 = true /\
  Z.abs (95 * 2 ^ 53 - 100 * 8556839292003942) * 2 <= 100.
Proof. split; [reflexivity | vm_compute; discriminate]. Qed.

(** On every size a profile buffer can have, the product of doubles the
    code computes has the floor [p95_index] gives. *)
Lemma p95_index_binary64 n :
  0 <= n <= 100 -> b64_p95_index n = Some (p95_index n).
Proof.
  intros Hn.
  assert (Hall : forallb
            (fun k => match b64_p95_index (Z.of_nat k) with
                      | Some i => i =? p95_index (Z.of_nat k)
                      | None => false
                      end) (seq 0 101) = true) by (vm_compute; reflexivity).
  rewrite forallb_forall in Hall.
  specialize (Hall (Z.to_nat n)). rewrite Z2Nat.id in Hall by lia.
  assert (Hin : In (Z.to_nat n) (seq 0 101)) by (apply in_seq; lia).
  specialize (Hall Hin).
  destruct (b64_p95_index n) as [i|]; [|discriminate].
  apply Z.eqb_eq in Hall. now subst.
Qed.

(** C8. For a label with n >= 1 samples [getProfileStats] returns
    statistics whose p95 is the element at index floor(0.95 n) of the
    durations sorted in ascending order: an element of the list, not a
    value interpolated between two.  For the ten durations 10, 20, ...,
    100 it is 100.  A label without samples gets [null]. *)
Theorem p95_is_nearest_rank :
  (forall l profiles samples,
     profiles !! l = Some samples -> samples <> [] ->
     exists stats d,
       getProfileStats l profiles = Some stats /\
       p95Duration stats = Some d /\
       let sorted := sort (map duration samples) in
       let n := len samples in
       Sorted Qle sorted /\ Permutation sorted (map duration samples) /\
       exists i, 100 * i <= 95 * n < 100 * (i + 1) /\ 0 <= i < n /\
                 nth_error sorted (Z.to_nat i) = Some d) /\
  (exists stats,
     getProfileStats "GET:/api" Mock.ten_samples = Some stats /\
     p95Duration stats = Some (inject_Z 100)) /\
  (forall l profiles,
     profiles !! l = None \/ profiles !! l = Some [] ->
     getProfileStats l profiles = None).
Proof.
  split; [|split].
  - intros l profiles samples Hl Hne.
    assert (Hn : 1 <= len samples).
    { unfold len. destruct samples; [congruence | simpl; lia]. }
    assert (Hlen : len (sort (map duration samples)) = len samples).
    { unfold len. now rewrite sort_length, length_map. }
    destruct (index_in_range (sort (map duration samples))
                (p95_index (len samples))) as (d & Hd).
    { rewrite Hlen. now apply p95_index_range. }
    unfold getProfileStats. rewrite Hl.
    destruct (Z.eqb_spec (len samples) 0); [lia|].
    eexists _, d. split; [reflexivity|]. cbn [p95Duration].
    rewrite Hlen. split; [exact Hd|]. cbv zeta.
    split; [apply sort_sorted|]. split; [apply sort_perm|].
    exists (p95_index (len samples)).
    pose proof (p95_index_range _ Hn) as Hr.
    split; [|split; [assumption|]].
    + rewrite p95_index_floor.
      pose proof (Z.div_mod (len samples * 95) 100 ltac:(lia)).
      pose proof (Z.mod_pos_bound (len samples * 95) 100 ltac:(lia)). lia.
    + unfold index in Hd. destruct (Z.ltb_spec (p95_index (len samples)) 0); [lia|].
      exact Hd.
  - eexists. split; [vm_compute; reflexivity|]. reflexivity.
  - intros l profiles [H|H]; unfold getProfileStats; rewrite H; reflexivity.
Qed.
Lemma p95_is_nearest_rank_witness :
  Mock.ten_samples !! "GET:/api"%string
    = Some (map Mock.took [50; 10; 100; 30; 70; 20; 90; 40; 60; 80]) /\
  map Mock.took [50; 10; 100; 30; 70; 20; 90; 40; 60; 80] <> [] /\
  exists stats d,
    getProfileStats "GET:/api" Mock.ten_samples = Some stats /\
    p95Duration stats = Some d.
Proof.
  assert (Hl : Mock.ten_samples !! "GET:/api"%string
               = Some (map Mock.took [50; 10; 100; 30; 70; 20; 90; 40; 60; 80]))
    by reflexivity.
  assert (Hne : map Mock.took [50; 10; 100; 30; 70; 20; 90; 40; 60; 80] <> [])
    by discriminate.
  destruct p95_is_nearest_rank as (Hp95 & _ & _).
  destruct (Hp95 _ _ _ Hl Hne) as (stats & d & Hs & Hd & _).
  split; [exact Hl|]. split; [exact Hne|].
  exists stats, d. split; [exact Hs | exact Hd].
Defined.

End ProfilerFacts.

(** ** Facts about the load tester *)

Module LoadTesterFacts.
Import Js Performance Reference.

Section Facts.
Variable fn : Z -> Z -> Outcome.
Variable options : BenchmarkOptions.

Local Abbreviation timed_call := (timed_call fn options).
Local Abbreviation play := (play fn options).
Local Abbreviation outcomes := (outcomes fn options).

Lemma timed_call_effect batch r r' :
  timed_call batch r = Some r' ->
  exists i,
    progress r !! batch = Some i /\
    progress r' = <[batch := i + 1]> (progress r) /\
    results r' = results r ++ durations [fn (Z.of_nat batch) i] /\
    failed r' = failed r ++ replicate (rejections [fn (Z.of_nat batch) i]) 1.
Proof.
  unfold Performance.timed_call. destruct (progress r !! batch) as [i|]; [|discriminate].
  destruct (_ && _); [|discriminate].
  intros [= <-]. exists i. split; [reflexivity|].
  destruct (fn (Z.of_nat batch) i); simpl; rewrite ?app_nil_r; auto.
Qed.

Lemma durations_cons o os : durations (o :: os) = durations [o] ++ durations os.
Proof. unfold durations. simpl. now rewrite app_nil_r. Qed.

Lemma rejections_cons o os :
  rejections (o :: os) = (rejections [o] + rejections os)%nat.
Proof. unfold rejections. simpl. destruct o; reflexivity. Qed.

(** Whatever the interleaving, the shared arrays hold exactly the calls
    made: the duration of each call that resolved, in [results], and one
    entry for each call that rejected, in [failed]. *)
Lemma play_accounting schedule :
  forall r,
    results (play schedule r) = results r ++ durations (outcomes schedule r) /\
    failed (play schedule r)
      = failed r ++ replicate (rejections (outcomes schedule r)) 1.
Proof.
  induction schedule as [|batch rest IH]; intros r; simpl.
  - now rewrite !app_nil_r.
  - destruct (timed_call batch r) as [r'|] eqn:Hcall.
    + destruct (timed_call_effect batch r r' Hcall) as (i & Hi & _ & Hres & Hfail).
      rewrite Hi. destruct (IH r') as (IHres & IHfail).
      rewrite (durations_cons _ (outcomes rest r')).
      rewrite (rejections_cons _ (outcomes rest r')).
      rewrite IHres, IHfail, Hres, Hfail.
      rewrite replicate_add, <- !app_assoc. auto.
    + destruct (progress r !! batch); apply IH.
Qed.

Lemma all_rejected_outcomes :
  (forall batch i, fn batch i = Rejected) ->
  forall schedule r,
    durations (outcomes schedule r) = [] /\
    rejections (outcomes schedule r) = length (outcomes schedule r).
Proof.
  intros Hfn. induction schedule as [|batch rest IH]; intros r; simpl; [auto|].
  destruct (progress r !! batch) as [i|]; [|apply IH].
  destruct (timed_call batch r) as [r'|]; [|apply IH].
  rewrite (durations_cons _ (outcomes rest r')).
  rewrite (rejections_cons _ (outcomes rest r')), Hfn. simpl.
  destruct (IH r') as (-> & ->). auto.
Qed.

Lemma report_of_no_result elapsed r :
  results r = [] ->
  avgTime (report elapsed r) = NaN /\
  minTime (report elapsed r) = 0%Q /\
  maxTime (report elapsed r) = 0%Q.
Proof. intros H. unfold report. rewrite H. repeat split. Qed.

(** When every timed call rejects, on any schedule: the error count is the
    number of timed calls made, the minimum and the maximum are 0, and the
    mean is 0 / 0. *)
Lemma all_rejected_report elapsed schedule :
  (forall batch i, fn batch i = Rejected) ->
  let r := benchmark fn options schedule elapsed in
  errors r = Z.of_nat (length (outcomes schedule (started options))) /\
  avgTime r = NaN /\ minTime r = 0%Q /\ maxTime r = 0%Q.
Proof.
  intros Hfn. cbv zeta. unfold benchmark.
  destruct (play_accounting schedule (started options)) as (Hres & Hfail).
  destruct (all_rejected_outcomes Hfn schedule (started options)) as (Hd & Hr).
  rewrite Hd in Hres. rewrite Hr in Hfail. simpl in Hres, Hfail.
  split; [|now apply report_of_no_result].
  unfold report. cbn [errors]. rewrite Hfail. unfold len.
  now rewrite length_replicate.
Qed.

(** *** Every batch ends *)

Lemma idle_iff batch r :
  timed_call batch r = None <->
  match progress r !! batch with
  | None => True
  | Some i =>
      (i <? batchSize options)
      && (Z.of_nat batch * batchSize options + i <? the_iterations options)
      = false
  end.
Proof.
  unfold Performance.timed_call. destruct (progress r !! batch) as [i|]; [|tauto].
  destruct (_ && _); split; congruence.
Qed.

Lemma idle_same_progress batch r r' :
  progress r !! batch = progress r' !! batch ->
  timed_call batch r = None -> timed_call batch r' = None.
Proof. rewrite !idle_iff. now intros ->. Qed.

Lemma play_app s1 s2 r : play (s1 ++ s2) r = play s2 (play s1 r).
Proof.
  revert r. induction s1 as [|batch s1 IH]; intros r; simpl; [reflexivity|].
  destruct (timed_call batch r); apply IH.
Qed.

Lemma play_other schedule batch :
  batch ∉ schedule ->
  forall r, progress (play schedule r) !! batch = progress r !! batch.
Proof.
  induction schedule as [|b rest IH]; intros Hnot r; simpl; [reflexivity|].
  apply not_elem_of_cons in Hnot as (Hne & Hnot).
  destruct (timed_call b r) as [r'|] eqn:Hcall; [|now apply IH].
  rewrite IH by assumption.
  destruct (timed_call_effect b r r' Hcall) as (i & _ & Hp & _).
  rewrite Hp. now apply list_lookup_insert_ne.
Qed.

Lemma play_idle k batch r :
  timed_call batch r = None -> play (replicate k batch) r = r.
Proof.
  intros H. induction k as [|k IH]; simpl; [reflexivity|]. now rewrite H.
Qed.

Lemma play_own k batch :
  forall r i,
    progress r !! batch = Some i ->
    batchSize options <= i + Z.of_nat k ->
    timed_call batch (play (replicate k batch) r) = None.
Proof.
  induction k as [|k IH]; intros r i Hi Hk; simpl.
  - apply idle_iff. rewrite Hi.
    destruct (Z.ltb_spec i (batchSize options)); [lia | reflexivity].
  - destruct (timed_call batch r) as [r'|] eqn:Hcall.
    + destruct (timed_call_effect batch r r' Hcall) as (i' & Hi' & Hp & _).
      rewrite Hi in Hi'. injection Hi' as <-.
      apply (IH r' (i + 1)); [|lia].
      rewrite Hp. apply list_lookup_insert_eq.
      now apply lookup_lt_Some in Hi.
    + now rewrite play_idle.
Qed.

Lemma progress_length schedule :
  forall r, length (progress (play schedule r)) = length (progress r).
Proof.
  induction schedule as [|b rest IH]; intros r; simpl; [reflexivity|].
  destruct (timed_call b r) as [r'|] eqn:Hcall; [|apply IH].
  rewrite IH. destruct (timed_call_effect b r r' Hcall) as (i & _ & Hp & _).
  rewrite Hp. apply length_insert.
Qed.

Lemma turns_of_others (f : nat -> list nat) batch (batches : list nat) :
  (forall b x, x ∈ f b -> x = b) -> batch ∉ batches ->
  batch ∉ flat_map f batches.
Proof.
  intros Hf Hnot Hin. apply list_elem_of_In, in_flat_map in Hin.
  destruct Hin as (b & Hb & Hx). apply list_elem_of_In in Hb, Hx.
  apply Hf in Hx. now subst.
Qed.

(** Under the schedule [in_turn] the run settles: [Promise.all] resolves
    and [benchmark] returns its report. *)
Lemma in_turn_settles : settled fn options (play (in_turn options) (started options)).
Proof.
  intros batch.
  set (c := Z.to_nat (the_concurrency options)).
  set (turns := fun b : nat => replicate (Z.to_nat (batchSize options)) b).
  assert (Hturns : forall b x, x ∈ turns b -> x = b).
  { intros b x Hx. now apply elem_of_replicate in Hx as (-> & _). }
  destruct (Nat.lt_ge_cases batch c) as [Hlt|Hge].
  - assert (Hseq : seq 0 c = seq 0 batch ++ [batch] ++ seq (S batch) (c - S batch)).
    { replace c with (batch + S (c - S batch))%nat at 1 by lia.
      rewrite seq_app. simpl. reflexivity. }
    unfold in_turn. fold c. fold turns. rewrite Hseq, !flat_map_app.
    simpl flat_map. rewrite app_nil_r, !play_app.
    set (r1 := play (flat_map turns (seq 0 batch)) (started options)).
    assert (H1 : progress r1 !! batch = Some 0).
    { unfold r1. rewrite play_other.
      - unfold started. cbn [progress]. fold c.
        apply lookup_replicate. split; [reflexivity | assumption].
      - apply turns_of_others; [assumption|].
        rewrite list_elem_of_In, in_seq. lia. }
    apply (idle_same_progress batch (play (turns batch) r1)).
    + symmetry. apply play_other. apply turns_of_others; [assumption|].
      rewrite list_elem_of_In, in_seq. lia.
    + apply (play_own _ batch r1 0 H1). lia.
  - apply idle_iff. 
    destruct (progress (play (in_turn options) (started options)) !! batch)
      as [i|] eqn:Hi; [|exact I].
    apply lookup_lt_Some in Hi. rewrite progress_length in Hi.
    unfold started in Hi. cbn [progress] in Hi.
    rewrite length_replicate in Hi. fold c in Hi. lia.
Qed.

End Facts.

(** The accounting of the specification's own example: 20 iterations in 4
    batches against an operation that always resolves in 5 ms give 20
    durations and no error. *)
Example twenty_by_four :
  let fn := fun _ _ : Z => Resolved 5 in
  let o := mkBenchmarkOptions (Some 20) (Some 4) (Some 0) in
  let r := benchmark fn o (in_turn o) 100 in
  len (results (play fn o (in_turn o) (started o))) = 20 /\
  errors r = 0 /\
  avgTime r = Fin (100 / 20) /\
  same (rps r) (Fin 200).
Proof. cbv zeta. repeat split. Qed.

(** C6. A benchmark of 3 iterations in 2 batches whose every timed call
    rejects runs to the end and makes 3 timed calls.  Its report counts 3
    errors and gives 0 for the minimum and the maximum, but its mean is
    0 / 0, that is [NaN], not 0. *)
Theorem all_errors_mean_is_NaN :
  let fn := Mock.always_rejects in
  let o := Mock.three_by_two in
  let r := benchmark fn o (in_turn o) 12 in
  settled fn o (play fn o (in_turn o) (started o)) /\
  length (outcomes fn o (in_turn o) (started o)) = 3%nat /\
  errors r = 3 /\
  minTime r = 0%Q /\
  maxTime r = 0%Q /\
  avgTime r = NaN /\
  avgTime r <> Fin 0.
Proof.
  cbv zeta. split; [|repeat split; discriminate].
  intros [|[|batch]]; reflexivity.
Qed.

End LoadTesterFacts.

(** ** Facts about the leak detector *)

Module LeakFacts.
Import Js Performance Reference.

Lemma slice_last_length {A} k (l : list A) :
  (k <= length l)%nat -> length (slice_last k l) = k.
Proof. intros H. unfold slice_last. rewrite length_skipn. lia. Qed.

(** On five values the code's formula is the least-squares slope times
    4, and has a closed form. *)
Lemma trend_of_five (y0 y1 y2 y3 y4 : Q) :
  exists t, calculateTrend [y0; y1; y2; y3; y4] = Fin t /\
            (t == drift [y0; y1; y2; y3; y4])%Q /\
            (t == (2 * (y4 - y0) + (y3 - y1)) * (4 # 10))%Q.
Proof.
  eexists. split; [reflexivity|]. 
  unfold drift, least_squares_slope, mean, sum, abscissae, len. simpl.
  repeat match goal with
         | |- context [inject_Z ?z] =>
             let v := eval vm_compute in z in change (inject_Z z) with (v # 1)%Q
         end.
  split; field.
Qed.

Lemma five_recent d :
  5 <= len (snapshots d) ->
  exists s0 s1 s2 s3 s4, slice_last 5 (snapshots d) = [s0; s1; s2; s3; s4].
Proof.
  intros H. pose proof (slice_last_length 5 (snapshots d)) as Hl.
  unfold len in H.
  destruct (slice_last 5 (snapshots d))
    as [|s0 [|s1 [|s2 [|s3 [|s4 [|s5 l]]]]]]; simpl in Hl; try lia.
  now exists s0, s1, s2, s3, s4.
Qed.

Lemma no_self_append {A} (l : list A) x : l <> l ++ [x].
Proof.
  intros H. apply (f_equal (@length A)) in H.
  rewrite length_app in H. simpl in H. lia.
Qed.

Lemma warns_iff d :
  5 <= len (snapshots d) ->
  forall t, calculateTrend (recent_heap d) = Fin t ->
            warns d <-> (inject_Z leak_threshold < t)%Q.
Proof.
  intros H t Ht. unfold warns, checkForLeaks.
  destruct (Z.ltb_spec (len (snapshots d)) 5); [lia|].
  fold (recent_heap d). rewrite Ht. unfold gt, of_Z.
  destruct (Qle_bool t (inject_Z leak_threshold)) eqn:Hle; simpl.
  - apply Qle_bool_iff in Hle. split.
    + intros (x & Hx). now apply no_self_append in Hx.
    + intros Hlt. exfalso. apply (Qlt_not_le _ _ Hlt Hle).
  - split; [|eauto].
    intros _. apply Qnot_le_lt. rewrite <- Qle_bool_iff. congruence.
Qed.

Lemma quiet_below_five d : len (snapshots d) < 5 -> checkForLeaks d = d.
Proof.
  intros H. unfold checkForLeaks.
  destruct (Z.ltb_spec (len (snapshots d)) 5); [reflexivity | lia].
Qed.

Lemma trend_of_five_Z (y0 y1 y2 y3 y4 : Z) :
  exists t,
    calculateTrend (map inject_Z [y0; y1; y2; y3; y4]) = Fin t /\
    (t == drift (map inject_Z [y0; y1; y2; y3; y4]))%Q /\
    (t == inject_Z (2 * (y4 - y0) + (y3 - y1)) * (4 # 10))%Q.
Proof.
  destruct (trend_of_five (inject_Z y0) (inject_Z y1) (inject_Z y2)
              (inject_Z y3) (inject_Z y4)) as (t & Ht & Hd & Hc).
  exists t. split; [exact Ht|]. split; [exact Hd|].
  rewrite Hc. unfold Z.sub.
  rewrite !inject_Z_plus, !inject_Z_mult, !inject_Z_plus, !inject_Z_opp.
  change (inject_Z 2) with 2%Q. ring.
Qed.

Lemma recent_heap_map d :
  recent_heap d = map inject_Z (map heapUsed (slice_last 5 (snapshots d))).
Proof. unfold recent_heap. now rewrite map_map. Qed.

Lemma five_recent_enough d (ys : list Z) :
  map heapUsed (slice_last 5 (snapshots d)) = ys -> length ys = 5%nat ->
  5 <= len (snapshots d).
Proof.
  intros H Hl. apply (f_equal (@length Z)) in H.
  rewrite length_map in H. unfold slice_last in H.
  rewrite length_skipn in H. unfold len. lia.
Qed.

(** C9. (1) With at least 5 snapshots, [checkForLeaks] looks at the last
    5 heap-used values; the trend it computes is their ordinary
    least-squares slope times n - 1 = 4, and it warns exactly when that
    drift is strictly above 50 * 1024 * 1024.  (2) Five snapshots each
    15 MB above the one before have a drift of 60 MB and raise the warning.
    (3) Five snapshots none of which is above the one before do not.
    (4) With fewer than 5 snapshots [checkForLeaks] does nothing. *)
Theorem leak_warning_threshold :
  (forall d,
     5 <= len (snapshots d) ->
     length (recent_heap d) = 5%nat /\
     same (calculateTrend (recent_heap d)) (Fin (drift (recent_heap d))) /\
     (warns d <->
      (inject_Z (50 * 1024 * 1024) < drift (recent_heap d))%Q)) /\
  (forall d base,
     map heapUsed (slice_last 5 (snapshots d)) =
       [base; base + 15 * MB; base + 30 * MB; base + 45 * MB; base + 60 * MB] ->
     (drift (recent_heap d) == inject_Z (60 * MB))%Q /\ warns d) /\
  (forall d y0 y1 y2 y3 y4,
     map heapUsed (slice_last 5 (snapshots d)) = [y0; y1; y2; y3; y4] ->
     y0 >= y1 -> y1 >= y2 -> y2 >= y3 -> y3 >= y4 ->
     ~ warns d) /\
  (forall d, len (snapshots d) < 5 ->
             checkForLeaks d = d /\ ~ warns d).
Proof.
  split; [|split; [|split]].
  - intros d H. destruct (five_recent d H) as (s0 & s1 & s2 & s3 & s4 & Hs).
    pose proof (warns_iff d H) as Hw.
    rewrite recent_heap_map in *. rewrite Hs in *. simpl map in *.
    split; [reflexivity|].
    destruct (trend_of_five_Z (heapUsed s0) (heapUsed s1) (heapUsed s2)
                (heapUsed s3) (heapUsed s4)) as (t & Ht & Hd & _).
    simpl map in Ht, Hd. rewrite Ht.
    split; [exact Hd|]. rewrite <- Hd. now apply Hw.
  - intros d base Hys.
    pose proof (five_recent_enough d _ Hys eq_refl) as H.
    pose proof (warns_iff d H) as Hw.
    rewrite recent_heap_map in *. rewrite Hys in *.
    destruct (trend_of_five_Z base (base + 15 * MB) (base + 30 * MB)
                (base + 45 * MB) (base + 60 * MB)) as (t & Ht & Hd & Hc).
    assert (Ht60 : (t == inject_Z (60 * MB))%Q).
    { rewrite Hc. unfold Qeq. simpl. unfold MB. lia. }
    split; [now rewrite <- Hd|].
    apply (Hw t Ht). rewrite Ht60. reflexivity.
  - intros d y0 y1 y2 y3 y4 Hys H01 H12 H23 H34.
    pose proof (five_recent_enough d _ Hys eq_refl) as H.
    pose proof (warns_iff d H) as Hw.
    rewrite recent_heap_map in *. rewrite Hys in *.
    destruct (trend_of_five_Z y0 y1 y2 y3 y4) as (t & Ht & _ & Hc).
    rewrite (Hw t Ht), Hc. unfold Qlt, leak_threshold. simpl. lia.
  - intros d H. pose proof (quiet_below_five d H) as Hq. split; [exact Hq|].
    intros (x & Hx). rewrite Hq in Hx. now apply no_self_append in Hx.
Qed.
Lemma leak_warning_threshold_witness :
  (5 <= len (snapshots (Mock.watching Mock.climbing)) /\
   warns (Mock.watching Mock.climbing)) /\
  (map heapUsed (slice_last 5 (snapshots (Mock.watching Mock.climbing)))
     = [100 * MB; 100 * MB + 15 * MB; 100 * MB + 30 * MB;
        100 * MB + 45 * MB; 100 * MB + 60 * MB] /\
   (drift (recent_heap (Mock.watching Mock.climbing))
      == inject_Z (60 * MB))%Q) /\
  (map heapUsed (slice_last 5 (snapshots (Mock.watching Mock.falling)))
     = [104857600; 89128960; 73400320; 57671680; 41943040] /\
   ~ warns (Mock.watching Mock.falling)) /\
  (len (snapshots (Mock.watching [1; 2; 3; 4])) < 5 /\
   ~ warns (Mock.watching [1; 2; 3; 4])).
Proof.
  destruct leak_warning_threshold as (Hiff & Hclimb & Hfall & Hfew).
  assert (Hc : map heapUsed
                 (slice_last 5 (snapshots (Mock.watching Mock.climbing)))
               = [100 * MB; 100 * MB + 15 * MB; 100 * MB + 30 * MB;
                  100 * MB + 45 * MB; 100 * MB + 60 * MB]) by reflexivity.
  assert (Hf : map heapUsed
                 (slice_last 5 (snapshots (Mock.watching Mock.falling)))
               = [104857600; 89128960; 73400320; 57671680; 41943040])
    by reflexivity.
  assert (H5 : 5 <= len (snapshots (Mock.watching Mock.climbing)))
    by (vm_compute; discriminate).
  assert (H4 : len (snapshots (Mock.watching [1; 2; 3; 4])) < 5)
    by reflexivity.
  destruct (Hclimb _ _ Hc) as (Hdrift & Hwarns).
  split; [|split; [|split]].
  - split; [exact H5|]. apply (Hiff _ H5). rewrite Hdrift. reflexivity.
  - split; [exact Hc | exact Hdrift].
  - split; [exact Hf|]. apply (Hfall _ _ _ _ _ _ Hf); lia.
  - split; [exact H4|]. apply (Hfew _ H4).
Defined.

(** The sampler end to end: five readings 15 MB apart, fed one by one to a
    detector that has none, leave one warning, written at the fifth. *)
Example sampler_warns_at_fifth :
  let feed := fold_left (fun d used => sample (Mock.heap used) d) in
  let idle := mkDetector [] (Some 30000) [] in
  console (feed (firstn 4 Mock.climbing) idle) = [] /\
  length (console (feed Mock.climbing idle)) = 1%nat /\
  console (feed Mock.falling idle) = [].
Proof. cbv zeta. repeat split. Qed.

End LeakFacts.

(** ** The circuit breaker over its lifetime *)

Module BreakerLife.
Import Js Breaker Life BreakerFacts.

Section Facts.
Context {U E T : Type}.
Implicit Types (b : CircuitBreaker) (w : World U) (op : @Operation U E T).

Lemma totals_attempt b w op :
  let b' := fst (snd (attempt op (b, w))) in
  totalRequests b' = totalRequests b /\
  totalFailures b' + totalSuccesses b'
    = totalFailures b + totalSuccesses b + 1 /\
  totalFailures b <= totalFailures b' /\
  totalSuccesses b <= totalSuccesses b'.
Proof.
  cbv zeta. destruct (op w) as [[v|e] w'] eqn:Hop.
  - destruct (attempt_success b w op v w' Hop)
      as (_ & _ & _ & _ & Hr & Hf & Hs & _). lia.
  - destruct (attempt_failure b w op e w' Hop)
      as (_ & _ & _ & _ & Hr & Hf & Hs & _). lia.
Qed.

(** *** Calls that overlap *)

(** A call that nothing overlaps is its gate, the operation, and the
    resumption, one after the other. *)
Lemma execute_in_pieces op b w :
  execute op (b, w) =
    match @gate U E (b, w) with
    | (Normal _, (b1, w1)) => resume (fst (op w1)) (b1, snd (op w1))
    | (Abrupt e, s) => (Abrupt e, s)
    end.
Proof.
  unfold execute, gate, resume, attempt, try_catch, bind, await, update, this,
    Date_now, logger, throw, ret. simpl.
  destruct (state b); simpl.
  - destruct (op w) as [[v|e] w']; reflexivity.
  - destruct (Z.ltb (clock w (reads w)) (nextAttempt b)); simpl;
      [reflexivity|].
    destruct (op _) as [[v|e] w']; reflexivity.
  - destruct (op w) as [[v|e] w']; reflexivity.
Qed.

Lemma gate_effect b w :
  let r := @gate U E (b, w) in
  let b' := fst (snd r) in
  name b' = name b /\ options b' = options b /\
  totalRequests b' = totalRequests b + 1 /\
  totalFailures b' = totalFailures b /\
  totalSuccesses b' = totalSuccesses b /\
  failureCount b' = failureCount b /\
  nextAttempt b' = nextAttempt b /\
  store (snd (snd r)) = store w /\
  match fst r with
  | Abrupt _ =>
      state b = OPEN /\ state b' = OPEN /\ successCount b' = successCount b
  | Normal _ =>
      match state b with
      | OPEN => state b' = HALF_OPEN /\ successCount b' = 0
      | st => state b' = st /\ successCount b' = successCount b
      end
  end.
Proof.
  unfold gate, bind, update, this, Date_now, logger, throw, ret. simpl.
  destruct (state b) eqn:Hs; simpl; try (repeat split; assumption).
  destruct (Z.ltb (clock w (reads w)) (nextAttempt b)); simpl;
    repeat split; assumption.
Qed.

Lemma slack_step (ev : @Event U E T) b w :
  0 <= totalFailures b -> 0 <= totalSuccesses b ->
  let b' := fst (step ev (b, w)) in
  0 <= totalFailures b' /\ 0 <= totalSuccesses b' /\
  match ev with
  | Reset => totalRequests b' = 0 /\ totalFailures b' = 0 /\
             totalSuccesses b' = 0
  | _ => totalRequests b - totalFailures b - totalSuccesses b
         <= totalRequests b' - totalFailures b' - totalSuccesses b'
  end.
Proof.
  intros Hf Hs. destruct ev as [op| | | |]; cbn [step]; cbv zeta.
  - unfold after. destruct (admitted b w) eqn:Ha.
    + rewrite execute_admitted by assumption.
      destruct (entering b w) as [b0 w0] eqn:Hin.
      pose proof (totals_attempt b0 w0 op) as H. cbv zeta in H.
      assert (Hb0 : totalRequests b0 = totalRequests b + 1 /\
                    totalFailures b0 = totalFailures b /\
                    totalSuccesses b0 = totalSuccesses b).
      { unfold entering in Hin.
        destruct (state_eqb (state b) OPEN); injection Hin as <- <-;
          repeat split. }
      lia.
    + unfold admitted in Ha.
      apply negb_false_iff, andb_true_iff in Ha as (Hst & Hlt).
      assert (state b = OPEN) by (destruct (state b); simpl in Hst; congruence).
      rewrite execute_rejected by (try assumption; now apply Z.ltb_lt).
      simpl. lia.
  - unfold forceOpen; run_method; simpl. lia.
  - unfold forceClose; run_method; simpl. lia.
  - unfold reset; run_method; simpl. lia.
  - unfold failureCountReset; run_method; simpl.
    destruct (state b); simpl; lia.
Qed.

(** The totals are consistent, counting the calls that are pending. *)
Lemma totals_moment (m : @Moment U E T) (s : @Busy U) :
  match m with Alone Reset => snd s = O | _ => True end ->
  0 <= totalFailures (fst (fst s)) -> 0 <= totalSuccesses (fst (fst s)) ->
  totalFailures (fst (fst s)) + totalSuccesses (fst (fst s))
    + Z.of_nat (snd s) <= totalRequests (fst (fst s)) ->
  let s' := moment m s in
  0 <= totalFailures (fst (fst s')) /\ 0 <= totalSuccesses (fst (fst s')) /\
  totalFailures (fst (fst s')) + totalSuccesses (fst (fst s'))
    + Z.of_nat (snd s') <= totalRequests (fst (fst s')).
Proof.
  destruct s as [[b w] p]. cbn [fst snd]. intros Hidle Hf Hs Hle. cbv zeta.
  destruct m as [|settled|ev|change]; cbn [moment fst snd].
  - pose proof (gate_effect b w) as Hg. cbv zeta in Hg.
    destruct Hg as (_ & _ & Hr & Hf1 & Hs1 & _).
    destruct (@gate U E (b, w)) as [[[]|e] [b1 w1]]; cbn [fst snd] in *; lia.
  - destruct p as [|p]; cbn [fst snd]; [lia|].
    pose proof (totals_attempt b w (fun w => (settled, w))) as Ha.
    cbv zeta in Ha. unfold resume. lia.
  - pose proof (slack_step ev b w Hf Hs) as H. cbv zeta in H.
    destruct H as (Hf' & Hs' & Hev).
    destruct ev; lia.
  - lia.
Qed.

(** X2. Calls of [execute] on one breaker may overlap, and overrides and
    timers may run while calls are pending.  However these interleave, as
    long as [reset] is only called while no call is pending, the totals
    [getStats] reports stay consistent: [totalFailures] and
    [totalSuccesses] are never negative, and together with the number of
    pending calls they never exceed [totalRequests]. *)
Theorem totals_add_up n o w (moments : list (@Moment U E T)) :
  resets_when_idle moments (create n o, w, O) ->
  let s := overlapping moments (create n o, w, O) in
  0 <= totalFailures (fst (fst s)) /\ 0 <= totalSuccesses (fst (fst s)) /\
  totalFailures (fst (fst s)) + totalSuccesses (fst (fst s))
    + Z.of_nat (snd s) <= totalRequests (fst (fst s)).
Proof.
  cbv zeta.
  assert (H : forall s : @Busy U,
    resets_when_idle moments s ->
    0 <= totalFailures (fst (fst s)) -> 0 <= totalSuccesses (fst (fst s)) ->
    totalFailures (fst (fst s)) + totalSuccesses (fst (fst s))
      + Z.of_nat (snd s) <= totalRequests (fst (fst s)) ->
    0 <= totalFailures (fst (fst (overlapping moments s))) /\
    0 <= totalSuccesses (fst (fst (overlapping moments s))) /\
    totalFailures (fst (fst (overlapping moments s)))
      + totalSuccesses (fst (fst (overlapping moments s)))
      + Z.of_nat (snd (overlapping moments s))
    <= totalRequests (fst (fst (overlapping moments s)))).
  { induction moments as [|m rest IH]; intros s Hidle Hf Hs Hle.
    - simpl. auto.
    - destruct Hidle as (Hm & Hrest).
      destruct (totals_moment m s Hm Hf Hs Hle) as (Hf' & Hs' & Hle').
      change (overlapping (m :: rest) s) with (overlapping rest (moment m s)).
      now apply IH. }
  intros Hidle. apply H; [exact Hidle | simpl; lia ..].
Qed.

Lemma iter_tick_clock k w : clock (Nat.iter k tick w) = clock w.
Proof. induction k as [|k IH]; simpl; [reflexivity | exact IH]. Qed.

Lemma iter_tick_store k w : store (Nat.iter k tick w) = store w.
Proof. induction k as [|k IH]; simpl; [reflexivity | exact IH]. Qed.

(** X3. While a breaker is OPEN and the clock stays before [nextAttempt],
    any number of calls in a row are all turned away: the breaker changes
    in [totalRequests] only, which grows by one per call, each rejection
    reads the clock twice, and no wrapped operation runs (the store is as
    it was). *)
Theorem open_breaker_stays_shut b w (ops : list (@Operation U E T)) :
  state b = OPEN -> (forall i, clock w i < nextAttempt b) ->
  after_all ops (b, w) =
    (set_totalRequests (totalRequests b + Z.of_nat (length ops)) b,
     Nat.iter (2 * length ops) tick w) /\
  store (snd (after_all ops (b, w))) = store w.
Proof.
  intros Hs Hclock.
  assert (H : after_all ops (b, w) =
              (set_totalRequests (totalRequests b + Z.of_nat (length ops)) b,
               Nat.iter (2 * length ops) tick w)).
  { revert b w Hs Hclock.
    induction ops as [|op ops IH]; intros b w Hs Hclock.
    - simpl. rewrite Z.add_0_r. now destruct b.
    - rewrite after_all_cons. unfold after at 1.
      rewrite execute_rejected by auto. cbn [snd].
      rewrite IH by (auto; intros i; apply Hclock).
      cbn [totalRequests set_totalRequests name options state failureCount
           successCount nextAttempt totalFailures totalSuccesses].
      f_equal.
      + unfold set_totalRequests. simpl. f_equal. lia.
      + replace (2 * length (op :: ops))%nat with (2 * length ops + 2)%nat
          by (simpl; lia).
        rewrite Nat.iter_add. reflexivity. }
  split; [exact H|]. rewrite H. cbn [snd]. apply iter_tick_store.
Qed.

(** X4. [forceOpen] opens the breaker until the time it reads plus
    [timeout], whatever the state was, and keeps the failure count and the
    totals.  Every call that then reads an earlier time is rejected with
    the OPEN error, and its operation does not run. *)
Theorem forceOpen_blocks b w :
  let s := snd (@forceOpen U E (b, w)) in
  let until := clock w (reads w) + timeout (options b) in
  state (fst s) = OPEN /\ nextAttempt (fst s) = until /\
  failureCount (fst s) = failureCount b /\
  totalRequests (fst s) = totalRequests b /\
  forall (w1 : World U) op,
    clock w1 (reads w1) < until ->
    fst (execute op (fst s, w1)) =
      Abrupt (JsError "Error"
                (open_message b (until - clock w1 (S (reads w1))))) /\
    store (snd (snd (execute op (fst s, w1)))) = store w1.
Proof.
  cbv zeta.
  assert (Hs : snd (@forceOpen U E (b, w)) =
               (set_nextAttempt (clock w (reads w) + timeout (options b))
                  (set_state OPEN b),
                log_call (mkLogCall WARN
                  ("Circuit breaker '" +:+ name b +:+ "' manually opened") [])
                  (tick w))).
  { unfold forceOpen. run_method. reflexivity. }
  rewrite Hs. cbn [fst]. repeat split;
    rewrite execute_rejected by (simpl; auto); reflexivity.
Qed.

(** X5. [reset] leaves a CLOSED breaker with every counter at 0 and its
    name, options and [nextAttempt] as they were.  From there it takes
    [failureThreshold] failures in a row to open it again: any shorter
    streak leaves it CLOSED. *)
Theorem reset_starts_over b w (ops : list (@Operation U E T)) :
  1 <= failureThreshold (options b) ->
  Z.of_nat (length ops) = failureThreshold (options b) ->
  Forall rejects ops ->
  let s := snd (@reset U E (b, w)) in
  getStats (fst s) = mkStats CLOSED 0 0 (nextAttempt b) 0 0 0 /\
  name (fst s) = name b /\ options (fst s) = options b /\
  state (fst (after_all ops s)) = OPEN /\
  forall k, (k < length ops)%nat ->
            state (fst (after_all (take k ops) s)) = CLOSED.
Proof.
  intros Hn Hlen Hall. cbv zeta.
  assert (Hs : exists w', snd (@reset U E (b, w)) =
               (mkBreaker (name b) (options b) CLOSED 0 0 (nextAttempt b) 0 0 0,
                w')).
  { eexists. unfold reset. run_method. reflexivity. }
  destruct Hs as (w' & Hs). rewrite Hs. cbn [fst].
  split; [reflexivity|]. split; [reflexivity|]. split; [reflexivity|].
  apply opens_when_streak_completes; auto.
  intros ->. simpl in Hlen. lia.
Qed.


Lemma run_snoc (events : list (@Event U E T)) ev s :
  run (events ++ [ev]) s = step ev (run events s).
Proof. unfold run. now rewrite fold_left_app. Qed.

Lemma calls_cons (ev : @Event U E T) events :
  calls (ev :: events)
  = ((match ev with Call _ => 1 | _ => 0 end) + calls events)%nat.
Proof. unfold calls. simpl. destruct ev; reflexivity. Qed.

(** X7. The failure-count reset timer does nothing to a CLOSED breaker.
    In a run of failing calls and timer firings, in any order, the failure
    count is the number of calls; the breaker stays CLOSED while that is
    below the threshold, and the failing call that reaches the threshold
    opens it. *)
Theorem timers_spare_the_streak b w (events : list (@Event U E T)) :
  state b = CLOSED -> Forall failure_or_timer events ->
  failureCount b + Z.of_nat (calls events) < failureThreshold (options b) ->
  (state (fst (run events (b, w))) = CLOSED /\
   failureCount (fst (run events (b, w)))
     = failureCount b + Z.of_nat (calls events)) /\
  forall op,
    rejects op ->
    failureCount b + Z.of_nat (calls events) + 1
      = failureThreshold (options b) ->
    state (fst (run (events ++ [Call op]) (b, w))) = OPEN.
Proof.
  intros Hs Hall Hlt.
  assert (H : state (fst (run events (b, w))) = CLOSED /\
              options (fst (run events (b, w))) = options b /\
              failureCount (fst (run events (b, w)))
                = failureCount b + Z.of_nat (calls events)).
  { revert b w Hs Hlt.
    induction events as [|ev events IH]; intros b w Hs Hlt.
    - simpl. repeat split; auto. unfold calls. simpl. lia.
    - inversion Hall as [|? ? Hev Hevs]; subst.
      rewrite calls_cons in *. change (run (ev :: events) (b, w))
        with (run events (step ev (b, w))).
      destruct ev as [op| | | |]; simpl in Hev; try contradiction.
      + cbn [step].
        pose proof (after_failure_closed b w op Hs Hev) as (Ho & Hf & Hc & _).
        destruct (after op (b, w)) as [b1 w1]. simpl in Ho, Hf, Hc.
        destruct (IH Hevs b1 w1) as (Hs' & Ho' & Hf').
        { apply Hc. lia. }
        { rewrite Ho, Hf. lia. }
        repeat split; auto; try congruence; rewrite Hf', Hf; lia.
      + cbn [step]. rewrite reset_timer_idle by congruence. cbn [snd].
        destruct (IH Hevs b w Hs) as (Hs' & Ho' & Hf'); [lia|].
        repeat split; auto; rewrite Hf'; lia. }
  destruct H as (Hs' & Ho' & Hf'). split; [auto|].
  intros op Hop Heq. rewrite run_snoc. cbn [step].
  destruct (run events (b, w)) as [b1 w1]. simpl in Hs', Ho', Hf'.
  apply (after_failure_closed b1 w1 op Hs' Hop). rewrite Ho', Hf'. lia.
Qed.

(** X8. When the operation of a pending call resolves with [v], the call
    resolves with [v], whatever has happened to the breaker in the
    meantime.  Resuming adds one to [totalSuccesses] and changes none of
    [totalRequests], [totalFailures], [nextAttempt] and the store; a
    breaker that is OPEN by then stays OPEN with its two streak counts
    untouched, and one that is not OPEN is not opened.  A call that nothing
    overlaps and that [execute] lets through is its gate followed by this
    resumption. *)
Theorem pending_call_returns_value (v : T) b w :
  let r := @resume U E T (Normal v) (b, w) in
  let b' := fst (snd r) in
  fst r = Normal v /\
  totalSuccesses b' = totalSuccesses b + 1 /\
  totalFailures b' = totalFailures b /\
  totalRequests b' = totalRequests b /\
  nextAttempt b' = nextAttempt b /\
  store (snd (snd r)) = store w /\
  (state b = OPEN ->
   state b' = OPEN /\ failureCount b' = failureCount b /\
   successCount b' = successCount b) /\
  (state b <> OPEN -> state b' <> OPEN) /\
  forall op b0 w0,
    admitted b0 w0 = true ->
    fst (op (snd (entering b0 w0))) = Normal v ->
    execute op (b0, w0)
    = @resume U E T (Normal v)
        (fst (entering b0 w0), snd (op (snd (entering b0 w0)))).
Proof.
  cbv zeta. unfold resume.
  pose proof (attempt_success (E := E) b w (fun w => (Normal v, w)) v w
                eq_refl) as H.
  cbv zeta in H.
  destruct H as (Hr & _ & _ & Hn & Hq & Hf & Hs & Hst).
  split; [exact Hr|]. split; [exact Hs|]. split; [exact Hf|].
  split; [exact Hq|]. split; [exact Hn|]. split.
  { unfold attempt, try_catch, bind, await.
    unfold onSuccess, close. run_method. simpl.
    destruct (state b); simpl; try reflexivity.
    destruct (Z.geb _ _); reflexivity. }
  split; [|split].
  - intros Ho. rewrite Ho in Hst. exact Hst.
  - intros Hne. destruct (state b); try congruence.
    + destruct Hst as (-> & _). discriminate.
    + destruct (Z.geb _ _); destruct Hst as (-> & _); discriminate.
  - intros op b0 w0 Ha Hop. rewrite execute_admitted by assumption.
    destruct (entering b0 w0) as [b1 w1]. cbn [fst snd] in *.
    unfold attempt, try_catch, bind, await.
    destruct (op w1) as [[v'|e] w2]; cbn [fst snd] in *; [|discriminate].
    injection Hop as ->. reflexivity.
Qed.

Lemma sound_gate n o b w :
  1 <= successThreshold o ->
  sound n o b -> sound n o (fst (snd (@gate U E (b, w)))).
Proof.
  intros Hm (Hname & Hopt & Hf0 & Hclosed & Hhalf).
  pose proof (gate_effect b w) as Hg. cbv zeta in Hg.
  destruct Hg as (Hn' & Ho' & _ & _ & _ & Hfc & _ & _ & Hst).
  unfold sound. rewrite Hn', Ho', Hfc.
  split; [assumption|]. split; [assumption|]. split; [assumption|].
  destruct (fst (@gate U E (b, w))) as [[]|e].
  - destruct (state b) eqn:Hs; destruct Hst as (Hs' & Hc'); rewrite Hs', Hc';
      split; intros; try congruence; auto; lia.
  - destruct Hst as (_ & Hs' & _). rewrite Hs'. split; congruence.
Qed.

(** X27. X1 for calls that overlap: a breaker made with thresholds of at
    least 1 is sound after any interleaving of calls entering [execute],
    pending calls settling, overrides, timers and whole calls.  Its name
    and options are those it was made with, its failure count is not
    negative, while CLOSED its failure count is below the threshold, and
    while HALF_OPEN its success count is. *)
Theorem busy_breaker_stays_sound n o w (moments : list (@Moment U E T)) :
  1 <= failureThreshold (default default_options o) ->
  1 <= successThreshold (default default_options o) ->
  sound n (default default_options o)
    (fst (fst (overlapping moments (create n o, w, O)))).
Proof.
  intros Hn Hm.
  assert (H : forall s : @Busy U,
            sound n (default default_options o) (fst (fst s)) ->
            sound n (default default_options o)
              (fst (fst (overlapping moments s)))).
  { induction moments as [|m rest IH]; intros s Hs; [exact Hs|].
    change (overlapping (m :: rest) s) with (overlapping rest (moment m s)).
    apply IH. destruct s as [[b w0] p]. cbn [fst snd] in Hs.
    destruct m as [|settled|ev|change]; cbn [moment fst snd].
    - pose proof (sound_gate n _ b w0 Hm Hs) as Hg.
      destruct (@gate U E (b, w0)) as [[[]|e] [b1 w1]]; exact Hg.
    - destruct p as [|p]; cbn [fst snd]; [exact Hs|].
      unfold resume. now apply sound_attempt.
    - now apply sound_step.
    - exact Hs. }
  apply H. unfold sound, create. simpl.
  repeat split; auto; try lia; congruence.
Qed.

End Facts.

(** The premise of X2 cannot be dropped: a [reset] while a call is pending
    forgets the request, and when the call settles the breaker has counted
    one success out of no request. *)
Example reset_while_pending :
  let s := @overlapping nat string Z
             [Enters; Alone Reset; Settles (Normal 42)]
             (Mock.fresh, Mock.at_time 1000, O) in
  totalRequests (fst (fst s)) = 0 /\ totalSuccesses (fst (fst s)) = 1 /\
  snd s = O.
Proof. cbv zeta. repeat split. Qed.

End BreakerLife.

(** ** Facts about the registry *)

Module RegistryFacts.
Import Js Breaker Registry BreakerFacts CacheFacts.

Section Facts.
Context {U E T : Type}.
Implicit Types (b : CircuitBreaker) (w : World U)
  (breakers : Cache.JsMap CircuitBreaker).

Lemma getOrCreate_present n o breakers b :
  Cache.map_get n breakers = Some b ->
  getOrCreate n o breakers = (Some b, breakers).
Proof.
  intros H. unfold getOrCreate, Cache.map_has. rewrite H. cbv zeta.
  now rewrite H.
Qed.

Lemma getOrCreate_absent n o breakers :
  Cache.map_get n breakers = None ->
  getOrCreate n o breakers
  = (Some (create n o), Cache.map_set n (create n o) breakers).
Proof.
  intros H. unfold getOrCreate, Cache.map_has. rewrite H. cbv zeta.
  now rewrite map_get_set_eq.
Qed.

(** X9. [getOrCreate] makes a breaker only for a name the registry does
    not hold yet.  Asking again under the same name, with whatever
    options, returns the breaker already there and changes nothing: the
    options of the later call are ignored.  Other names are not
    touched. *)
Theorem getOrCreate_first_writer_wins n o1 o2 breakers :
  getOrCreate n o2 (snd (getOrCreate n o1 breakers))
    = getOrCreate n o1 breakers /\
  (exists b,
     fst (getOrCreate n o1 breakers) = Some b /\
     (Cache.map_get n breakers = None -> b = create n o1) /\
     (forall b0, Cache.map_get n breakers = Some b0 -> b = b0)) /\
  (forall n', n' <> n ->
     Cache.map_get n' (snd (getOrCreate n o1 breakers))
       = Cache.map_get n' breakers).
Proof.
  destruct (Cache.map_get n breakers) as [b|] eqn:Hn.
  - rewrite (getOrCreate_present n o1 breakers b Hn). cbn [fst snd].
    split; [now apply getOrCreate_present|].
    split; [|reflexivity].
    exists b. split; [reflexivity|]. split; congruence.
  - rewrite (getOrCreate_absent n o1 breakers Hn). cbn [fst snd].
    split; [apply getOrCreate_present, map_get_set_eq|].
    split.
    + exists (create n o1). split; [reflexivity|]. split; congruence.
    + intros n' Hne. apply map_get_set_ne. congruence.
Qed.

Lemma protectedCall_present n o (op : @Operation U E T) breakers w b :
  Cache.map_get n breakers = Some b ->
  protectedCall n op o (breakers, w)
  = (fst (execute op (b, w)),
     (Cache.map_set n (fst (snd (execute op (b, w)))) breakers,
      snd (snd (execute op (b, w))))).
Proof.
  intros H. unfold protectedCall.
  now rewrite (getOrCreate_present n o breakers b H).
Qed.

Lemma after_calls_present n o (ops : list (@Operation U E T)) :
  forall breakers w b,
    Cache.map_get n breakers = Some b ->
    Cache.map_get n (fst (after_calls n o ops (breakers, w)))
      = Some (fst (after_all ops (b, w))) /\
    snd (after_calls n o ops (breakers, w)) = snd (after_all ops (b, w)) /\
    forall n', n' <> n ->
      Cache.map_get n' (fst (after_calls n o ops (breakers, w)))
        = Cache.map_get n' breakers.
Proof.
  induction ops as [|op ops IH]; intros breakers w b Hn.
  - simpl. auto.
  - change (after_calls n o (op :: ops) (breakers, w))
      with (after_calls n o ops (snd (protectedCall n op o (breakers, w)))).
    rewrite after_all_cons.
    rewrite (protectedCall_present n o op breakers w b Hn). cbn [snd].
    unfold after.
    destruct (execute op (b, w)) as [r [b1 w1]]. cbn [fst snd].
    destruct (IH (Cache.map_set n b1 breakers) w1 b1) as (H1 & H2 & H3);
      [apply map_get_set_eq|].
    split; [exact H1|]. split; [exact H2|].
    intros n' Hne. rewrite H3 by assumption.
    apply map_get_set_ne. congruence.
Qed.

(** X10. Calls made through [protectedCall] under one name share one
    breaker.  After any non-empty series of calls the registry holds,
    under that name, the breaker [execute] leaves after the same calls in
    a row, starting from the breaker stored before or from a new one; the
    world is the same too, and other names are not touched. *)
Theorem calls_share_one_breaker n o (ops : list (@Operation U E T)) breakers w :
  ops <> [] ->
  let b0 := default (create n o) (Cache.map_get n breakers) in
  let s := after_calls n o ops (breakers, w) in
  Cache.map_get n (fst s) = Some (fst (after_all ops (b0, w))) /\
  snd s = snd (after_all ops (b0, w)) /\
  forall n', n' <> n -> Cache.map_get n' (fst s) = Cache.map_get n' breakers.
Proof.
  intros Hne. cbv zeta.
  destruct (Cache.map_get n breakers) as [b|] eqn:Hn; cbn [default].
  - now apply after_calls_present.
  - destruct ops as [|op ops]; [congruence|].
    change (after_calls n o (op :: ops) (breakers, w))
      with (after_calls n o ops (snd (protectedCall n op o (breakers, w)))).
    rewrite after_all_cons.
    assert (Hp : protectedCall n op o (Cache.map_set n (create n o) breakers, w)
                 = protectedCall n op o (breakers, w)).
    { unfold protectedCall.
      rewrite (getOrCreate_absent n o breakers Hn).
      now rewrite (getOrCreate_present n o _ (create n o) (map_get_set_eq _ _ _)). }
    rewrite <- Hp.
    rewrite (protectedCall_present n o op _ w (create n o)
               (map_get_set_eq _ _ _)). cbn [snd].
    unfold after.
    destruct (execute op (create n o, w)) as [r [b1 w1]]. cbn [fst snd].
    destruct (after_calls_present n o ops
                (Cache.map_set n b1 (Cache.map_set n (create n o) breakers))
                w1 b1) as (H1 & H2 & H3); [apply map_get_set_eq|].
    split; [exact H1|]. split; [exact H2|].
    intros n' Hn'. rewrite H3 by assumption.
    rewrite !map_get_set_ne by congruence. reflexivity.
Qed.




End Facts.
End RegistryFacts.

(** ** The cache over its lifetime *)

Module CacheLife.
Import Js Cache Life CacheFacts.

Section MapSizes.
Context {V : Type}.
Implicit Types (m : JsMap V) (k : string) (v : V).

Lemma In_map_set k v m k' v' :
  In (k', v') (map_set k v m) -> (k', v') = (k, v) \/ In (k', v') m.
Proof.
  induction m as [|[k0 v0] m IH]; simpl.
  - intros [H|[]]. left. congruence.
  - destruct (String.eqb_spec k0 k) as [->|Hne]; simpl.
    + intros [H|H]; [left; congruence | right; now right].
    + intros [H|H]; [right; now left|].
      destruct (IH H); [now left | right; now right].
Qed.

Lemma In_map_delete k m k' v' :
  In (k', v') (map_delete k m) -> In (k', v') m.
Proof.
  induction m as [|[k0 v0] m IH]; simpl; [tauto|].
  destruct (String.eqb_spec k0 k); simpl; intuition.
Qed.

Lemma length_map_set k v m :
  length (map_set k v m)
  = if map_has k m then length m else S (length m).
Proof.
  unfold map_has. induction m as [|[k0 v0] m IH]; simpl; [reflexivity|].
  destruct (String.eqb_spec k0 k); simpl; [reflexivity|].
  rewrite IH. destruct (map_get k m); reflexivity.
Qed.

Lemma length_map_delete k m :
  length (map_delete k m)
  = if map_has k m then pred (length m) else length m.
Proof.
  unfold map_has. induction m as [|[k0 v0] m IH]; simpl; [reflexivity|].
  destruct (String.eqb_spec k0 k); simpl; [reflexivity|].
  rewrite IH. destruct (map_get k m) eqn:Hg; [|reflexivity].
  destruct m; [discriminate | reflexivity].
Qed.

Lemma map_get_filter (f : string * V -> bool) k m :
  NoDup (keys m) ->
  map_get k (List.filter f m)
  = match map_get k m with
    | Some v => if f (k, v) then Some v else None
    | None => None
    end.
Proof.
  induction m as [|[k0 v0] m IH]; simpl; intros Hnd; [reflexivity|].
  inversion Hnd as [|? ? Hnotin Hnd']; subst.
  destruct (String.eqb_spec k0 k) as [->|Hne].
  - destruct (f (k, v0)) eqn:Hf; simpl.
    + now rewrite String.eqb_refl.
    + rewrite IH by assumption.
      assert (Hk : map_get k m = None).
      { apply map_get_None. now rewrite <- list_elem_of_In. }
      now rewrite Hk.
  - destruct (f (k0, v0)); simpl.
    + destruct (String.eqb_spec k0 k); [congruence | auto].
    + auto.
Qed.

Lemma map_has_In k m : map_has k m = true -> exists v, In (k, v) m.
Proof.
  unfold map_has. destruct (map_get k m) as [v|] eqn:H; [|discriminate].
  intros _. exists v. now apply map_get_In.
Qed.

End MapSizes.

Section Facts.
Context {T U E : Type}.
Implicit Types (c : CacheService T) (w : World U) (k : string) (v : T).

Local Abbreviation get := (@get T U E).
Local Abbreviation set := (@set T U E).
Local Abbreviation delete := (@delete T U E).
Local Abbreviation cleanup := (@cleanup T U E).
Local Abbreviation clear := (@clear T U E).

(** X12. [delete] answers whether the key was there and forgets it: the
    key is gone from the map, the other keys keep their entries, the hit
    and miss counters and the world are as before, and a later [get] of
    the key returns null and counts one miss. *)
Theorem delete_forgets k c w :
  wf c ->
  let r := delete k (c, w) in
  let c' := fst (snd r) in
  fst r = Normal (map_has k (cache c)) /\
  map_get k (cache c') = None /\
  (forall k', k' <> k -> map_get k' (cache c') = map_get k' (cache c)) /\
  hits c' = hits c /\ misses c' = misses c /\ snd (snd r) = w /\
  forall w1 : World U,
    fst (get k (c', w1)) = Normal None /\
    misses (fst (snd (get k (c', w1)))) = misses c + 1.
Proof.
  intros Hwf. cbv zeta.
  assert (Hd : delete k (c, w)
               = (Normal (map_has k (cache c)),
                  (set_cache (map_delete k (cache c)) c, w))).
  { run_method. reflexivity. }
  rewrite Hd. cbn [fst snd cache set_cache hits misses].
  assert (Hgone : map_get k (map_delete k (cache c)) = None)
    by now apply map_get_delete_eq.
  split; [reflexivity|]. split; [exact Hgone|].
  split; [intros k' Hne; apply map_get_delete_ne; congruence|].
  repeat split.
  - rewrite get_absent by exact Hgone. reflexivity.
  - rewrite get_absent by exact Hgone. reflexivity.
Qed.

(** X13. The sweep of the cleanup interval keeps exactly the entries
    whose expiry is not before the time it reads, each as it was, and
    removes the others; it changes none of the hit, miss and eviction
    counters. *)
Theorem cleanup_sweeps_the_expired c w :
  wf c ->
  let c' := fst (snd (cleanup (c, w))) in
  let now := clock w (reads w) in
  wf c' /\
  (forall k e,
     map_get k (cache c') = Some e <->
     map_get k (cache c) = Some e /\ now <= expiry e) /\
  hits c' = hits c /\ misses c' = misses c /\ evictions c' = evictions c.
Proof.
  intros Hwf. cbv zeta.
  assert (Hc : fst (snd (cleanup (c, w)))
               = set_cache
                   (List.filter
                      (fun kv => negb (clock w (reads w) >? expiry (snd kv)))
                      (cache c)) c).
  { run_method. reflexivity. }
  rewrite Hc. cbn [cache set_cache hits misses evictions].
  split; [now apply filter_NoDup|]. split; [|auto].
  intros k e. rewrite map_get_filter by exact Hwf.
  destruct (map_get k (cache c)) as [e0|]; cbn [snd].
  - destruct (Z.gtb_spec (clock w (reads w)) (expiry e0)); simpl.
    + split; [discriminate|]. intros ([= ->] & Hle). lia.
    + split; [intros [= ->]; split; [reflexivity | lia] | intros (Hx & _); exact Hx].
  - split; [discriminate | intros (Hx & _); discriminate].
Qed.

(** X14. When the hit and miss counters are not negative, the [hitRate]
    of [getStats] is hits over hits plus misses, and 0 when there was no
    access at all; it always is a number between 0 and 1. *)
Theorem hitRate_is_the_share_of_hits c :
  0 <= hits c -> 0 <= misses c ->
  same (hitRate (getStats c))
       (if hits c + misses c =? 0 then Fin 0
        else Fin (inject_Z (hits c) / inject_Z (hits c + misses c))) /\
  exists q, hitRate (getStats c) = Fin q /\ (0 <= q <= 1)%Q.
Proof.
  intros Hh Hm. unfold getStats. cbn [hitRate]. unfold of_Z, div.
  destruct (Z.eqb_spec (hits c + misses c) 0) as [H0|Hne].
  - assert (hits c = 0) by lia. assert (misses c = 0) by lia.
    replace (hits c + misses c) with 0 by lia. replace (hits c) with 0 by lia.
    simpl. split; [reflexivity|]. exists 0%Q. split; [reflexivity|].
    split; unfold Qle; simpl; lia.
  - assert (Hq : Qeq_bool (inject_Z (hits c + misses c)) 0 = false).
    { apply not_true_is_false. intros Hq. apply Qeq_bool_iff in Hq.
      unfold Qeq in Hq. simpl in Hq. lia. }
    rewrite Hq. unfold or_zero, truthy.
    assert (Hr : (0 <= inject_Z (hits c) / inject_Z (hits c + misses c) <= 1)%Q).
    { split.
      - apply Qle_shift_div_l; [unfold Qlt; simpl; lia|].
        unfold Qle; simpl; lia.
      - apply Qle_shift_div_r; [unfold Qlt; simpl; lia|].
        unfold Qle; simpl; lia. }
    destruct (Qeq_bool (inject_Z (hits c) / inject_Z (hits c + misses c)) 0)
      eqn:Hz; simpl.
    + apply Qeq_bool_iff in Hz. split; [now symmetry|].
      exists 0%Q. split; [reflexivity|]. split; unfold Qle; simpl; lia.
    + split; [reflexivity|]. eexists. split; [reflexivity | exact Hr].
Qed.

(** *** The size of the map *)

Lemma get_hit_world k c w e :
  map_get k (cache c) = Some e ->
  clock w (S (reads w)) <= expiry e ->
  clock (snd (snd (get k (c, w)))) = clock w /\
  reads (snd (snd (get k (c, w)))) = S (S (S (S (reads w)))).
Proof.
  intros H Hle. run_method; simpl. rewrite H; simpl.
  destruct (Z.gtb_spec (clock w (S (reads w))) (expiry e)); [lia|]. simpl.
  destruct (_ >? 100); simpl; split; reflexivity.
Qed.

Lemma evicted_entries c now k e :
  In (k, e) (cache (evicted c now)) -> In (k, e) (cache c).
Proof.
  unfold evicted. destruct (truthy_key _); simpl; [|auto].
  apply In_map_delete.
Qed.

Lemma evicted_size c now :
  cache c <> [] ->
  (forall k e, In (k, e) (cache c) -> k <> "" /\ lastAccessed e < now) ->
  length (cache (evicted c now)) = pred (length (cache c)).
Proof.
  intros Hne Hall. pose proof (oldest_spec now (cache c)) as H.
  unfold evicted. destruct (snd (oldest now (cache c))) as [k|] eqn:Hk.
  - destruct H as (e & Hin & _). destruct (Hall k e Hin) as (Hkne & _).
    simpl. destruct (String.eqb_spec k ""); [congruence|]. simpl.
    rewrite length_map_delete.
    assert (Hhas : map_has k (cache c) = true).
    { unfold map_has. destruct (map_get k (cache c)) eqn:Hg; [reflexivity|].
      apply map_get_None in Hg. exfalso. apply Hg. eapply In_keys; eauto. }
    now rewrite Hhas.
  - exfalso. destruct (cache c) as [|[k0 e0] m] eqn:Hc; [congruence|].
    apply Forall_cons in H as (H0 & _). simpl in H0.
    destruct (Hall k0 e0) as (_ & Hlt); [now left | lia].
Qed.

Lemma within_bound_access opts clk (a : @Access T) (s : CacheService T * World U) :
  strictly_increasing clk -> named a ->
  within_bound opts clk s -> within_bound opts clk (@access T U E a s).
Proof.
  intros Hclk Hnamed. destruct s as [c w].
  intros (Hc & Ho & Hwf & Hent & Hsize). cbn [fst snd] in *.
  assert (Hbound : 1 <= Z.max (maxSize opts) 1) by lia.
  destruct a as [k | k v t | k | |]; cbn [access].
  - (* get *)
    destruct (map_get k (cache c)) as [e|] eqn:Hk.
    + destruct (Z.lt_ge_cases (expiry e) (clock w (S (reads w)))) as [Hlt|Hge].
      * rewrite (get_expired k c w e Hk Hlt). unfold within_bound.
        cbn [fst snd clock tick reads cache options set_cache set_misses].
        split; [assumption|]. split; [assumption|].
        split; [now apply map_delete_NoDup|]. split.
        -- intros k' e' Hin. apply In_map_delete in Hin.
           destruct (Hent k' e' Hin) as (Hne & i & Hi & Hl).
           split; [assumption|]. exists i. split; [lia | assumption].
        -- unfold map_size in *. rewrite length_map_delete.
           destruct (map_has k (cache c)); lia.
      * destruct (@get_hit T U E k c w e Hk Hge)
          as (_ & Hcache & _ & _ & _ & Hopt & _).
        destruct (get_hit_world k c w e Hk Hge) as (Hclock & Hreads).
        pose proof (@wf_get T U E k c w Hwf) as Hwf'.
        destruct (@Cache.get T U E k (c, w)) as [r [c' w']].
        cbn [fst snd] in *. unfold within_bound. cbn [fst snd].
        split; [congruence|]. split; [congruence|]. split; [assumption|].
        rewrite Hcache, Hreads. split.
        -- intros k' e' Hin. apply In_map_set in Hin as [[= -> ->]|Hin].
           ++ split; [apply (Hent k e (map_get_In _ _ _ Hk))|].
              exists (S (S (reads w))). simpl. split; [lia | congruence].
           ++ destruct (Hent k' e' Hin) as (Hne & i & Hi & Hl).
              split; [assumption|]. exists i. split; [lia | assumption].
        -- unfold map_size in *. rewrite length_map_set.
           unfold map_has. rewrite Hk. assumption.
    + rewrite (get_absent k c w Hk). unfold within_bound.
      cbn [fst snd clock tick reads cache options set_misses].
      repeat split; try assumption.
      * apply (Hent k0 e H).
      * destruct (Hent k0 e H) as (_ & i & Hi & Hl). exists i.
        split; [lia | assumption].
  - (* set *)
    simpl in Hnamed.
    destruct (Z.lt_ge_cases (map_size (cache c)) (maxSize (options c)))
      as [Hlt|Hge].
    + rewrite set_below_capacity by assumption. unfold within_bound.
      cbn [fst snd clock tick reads cache options set_cache].
      split; [assumption|]. split; [assumption|].
      split; [now apply map_set_NoDup|]. split.
      * intros k' e' Hin. apply In_map_set in Hin as [[= -> ->]|Hin].
        -- split; [assumption|]. exists (S (reads w)). simpl.
           split; [lia | congruence].
        -- destruct (Hent k' e' Hin) as (Hne & i & Hi & Hl).
           split; [assumption|]. exists i. split; [lia | assumption].
      * unfold map_size in *. rewrite length_map_set. rewrite Ho in Hlt.
        destruct (map_has k (cache c)); lia.
    + rewrite set_at_capacity by assumption. unfold within_bound.
      cbn [fst snd clock tick reads cache options set_cache].
      rewrite evicted_options.
      split; [assumption|]. split; [assumption|].
      split; [apply map_set_NoDup; now apply wf_evicted|]. split.
      * intros k' e' Hin. apply In_map_set in Hin as [[= -> ->]|Hin].
        -- split; [assumption|]. exists (S (S (reads w))). simpl.
           split; [lia | congruence].
        -- apply evicted_entries in Hin.
           destruct (Hent k' e' Hin) as (Hne & i & Hi & Hl).
           split; [assumption|]. exists i. split; [lia | assumption].
      * unfold map_size in *. rewrite length_map_set.
        destruct (cache c) as [|kv m] eqn:Hcache.
        -- unfold evicted. rewrite Hcache. simpl. rewrite Hcache. simpl. lia.
        -- assert (Hev : length (cache (evicted c (clock w (reads w))))
                         = pred (length (cache c))).
           { apply evicted_size; [congruence|].
             intros k' e' Hin. rewrite Hcache in Hin.
             destruct (Hent k' e' Hin) as (Hne & i & Hi & Hl).
             split; [assumption|]. rewrite Hl, Hc. now apply Hclk. }
           rewrite Hev, Hcache. simpl length in *.
           destruct (map_has k _); lia.
  - (* delete *)
    assert (Hd : @Cache.delete T U E k (c, w)
                 = (Normal (map_has k (cache c)),
                    (set_cache (map_delete k (cache c)) c, w))).
    { run_method. reflexivity. }
    rewrite Hd. unfold within_bound. cbn [fst snd cache options set_cache].
    split; [assumption|]. split; [assumption|].
    split; [now apply map_delete_NoDup|]. split.
    + intros k' e' Hin. apply In_map_delete in Hin. now apply Hent.
    + unfold map_size in *. rewrite length_map_delete.
      destruct (map_has k (cache c)); lia.
  - (* clear *)
    unfold within_bound. run_method. simpl.
    repeat split; try assumption; try contradiction.
    + constructor.
    + unfold map_size. simpl. lia.
  - (* sweep *)
    assert (Hs : snd (@Cache.cleanup T U E (c, w))
                 = (set_cache
                      (List.filter
                         (fun kv => negb (clock w (reads w) >? expiry (snd kv)))
                         (cache c)) c, tick w)).
    { run_method. reflexivity. }
    rewrite Hs. unfold within_bound.
    cbn [fst snd clock tick reads cache options set_cache].
    split; [assumption|]. split; [assumption|].
    split; [now apply filter_NoDup|]. split.
    + intros k' e' Hin. apply filter_In in Hin as (Hin & _).
      destruct (Hent k' e' Hin) as (Hne & i & Hi & Hl).
      split; [assumption|]. exists i. split; [lia | assumption].
    + unfold map_size in *.
      pose proof (filter_length_le
                    (fun kv : string * CacheEntry T =>
                       negb (clock w (reads w) >? expiry (snd kv))) (cache c)).
      lia.
Qed.

(** X15. On a clock whose readings strictly increase, a new cache never
    grows past its bound, whatever series of [get], [set], [delete],
    [clear] and sweeps it goes through, as long as no [set] uses the empty
    key: the map holds at most [maxSize] entries, or one entry when
    [maxSize] is below 1. *)
Theorem size_stays_bounded o (w : World U) (l : list (@Access T)) :
  strictly_increasing (clock w) -> Forall named l ->
  let c := fst (@accesses T U E l (@create T U E o w)) in
  map_size (cache c) <= Z.max (maxSize (default default_options o)) 1 /\
  (1 <= maxSize (default default_options o) ->
   map_size (cache c) <= maxSize (options c)).
Proof.
  intros Hclk Hall. cbv zeta.
  assert (H : within_bound (default default_options o) (clock w)
                (@accesses T U E l (@create T U E o w))).
  { assert (H0 : within_bound (default default_options o) (clock w)
                   (@create T U E o w)).
    { unfold within_bound, create. run_method. simpl.
      repeat split; try contradiction; [constructor|].
      unfold map_size. simpl. lia. }
    revert H0. generalize (@create T U E o w).
    induction l as [|a l IH]; intros s Hs; [exact Hs|].
    inversion Hall as [|? ? Ha Hl]; subst.
    apply (IH Hl). now apply within_bound_access. }
  destruct H as (_ & Ho & _ & _ & Hsize).
  split; [exact Hsize|]. intros H1. rewrite Ho. lia.
Qed.

End Facts.
End CacheLife.

(** ** More facts about the telemetry *)

Module TelemetryFacts.
Import Js Performance Reference ProfilerFacts LeakFacts.

(** *** The bounded buffers *)

Lemma slice_last_all {A} k (l : list A) :
  (length l <= k)%nat -> slice_last k l = l.
Proof.
  intros H. unfold slice_last. replace (length l - k)%nat with 0%nat by lia.
  reflexivity.
Qed.

Lemma push_bounded_slice {A} cap (x : A) arr :
  0 <= cap -> len arr <= cap ->
  push_bounded cap x arr = slice_last (Z.to_nat cap) (arr ++ [x]).
Proof.
  intros Hc H. unfold push_bounded, len in *. rewrite length_app. simpl.
  destruct (Z.gtb_spec (Z.of_nat (length arr + 1)) cap) as [Hgt|Hle].
  - unfold slice_last. rewrite length_app. simpl.
    replace (length arr + 1 - Z.to_nat cap)%nat with 1%nat by lia.
    destruct arr; reflexivity.
  - rewrite slice_last_all; [reflexivity|]. rewrite length_app. simpl. lia.
Qed.

Lemma skipn_snoc {A} n (x : A) l :
  (n <= length l)%nat -> skipn n (l ++ [x]) = skipn n l ++ [x].
Proof.
  revert n. induction l as [|a l IH]; intros [|n] H; simpl in *;
    try reflexivity; try lia.
  apply IH. lia.
Qed.

Lemma skipn_succ {A} n (l : list A) : skipn (S n) l = tl (skipn n l).
Proof.
  revert n. induction l as [|a l IH]; intros [|n]; try reflexivity.
  change (skipn (S n) l = tl (skipn (S n) (a :: l))). now rewrite IH.
Qed.

Lemma slice_last_push {A} k (x : A) l :
  slice_last k (slice_last k l ++ [x]) = slice_last k (l ++ [x]).
Proof.
  assert (Hlen : length (slice_last k l) = Nat.min (length l) k).
  { unfold slice_last. rewrite length_skipn. lia. }
  unfold slice_last at 1 3. rewrite !length_app, Hlen. simpl.
  destruct (Nat.le_gt_cases (length l) k) as [Hle|Hgt].
  - rewrite (slice_last_all k l) by assumption.
    now replace (Nat.min (length l) k) with (length l) by lia.
  - replace (Nat.min (length l) k + 1 - k)%nat with 1%nat by lia.
    destruct k as [|k].
    + unfold slice_last. rewrite !Nat.sub_0_r.
      rewrite skipn_all. simpl.
      rewrite skipn_all2; [reflexivity|]. rewrite length_app. simpl. lia.
    + replace (length l + 1 - S k)%nat with (S (length l - S k)) by lia.
      rewrite (skipn_snoc (S (length l - S k)) x l) by lia.
      rewrite (skipn_succ (length l - S k) l). unfold slice_last.
      destruct (skipn (length l - S k) l) eqn:Hs; [|reflexivity].
      apply (f_equal (@length A)) in Hs. rewrite length_skipn in Hs.
      simpl in Hs. lia.
Qed.

Lemma push_bounded_run {A} cap (xs : list A) :
  0 <= cap ->
  forall arr,
    len arr <= cap ->
    fold_left (fun a x => push_bounded cap x a) xs arr
    = slice_last (Z.to_nat cap) (arr ++ xs).
Proof.
  intros Hc. induction xs as [|x xs IH] using rev_ind; intros arr H.
  - simpl. rewrite app_nil_r. apply eq_sym, slice_last_all.
    unfold len in H. lia.
  - rewrite fold_left_app. simpl. rewrite IH by assumption.
    rewrite push_bounded_slice.
    + rewrite slice_last_push. now rewrite app_assoc.
    + assumption.
    + unfold len, slice_last. rewrite length_skipn, length_app.
      unfold len in H. lia.
Qed.

Lemma checkForLeaks_snapshots d :
  snapshots (checkForLeaks d) = snapshots d /\
  interval (checkForLeaks d) = interval d.
Proof.
  unfold checkForLeaks. destruct (_ <? 5); [auto|].
  destruct (gt _ _); auto.
Qed.

(** X16. The memory sampler keeps the last 20 readings.  After any
    series of samples, on a detector that held at most 20 snapshots, the
    snapshots are the last 20 of the old ones followed by the new ones, in
    order; the interval handle is not touched. *)
Theorem detector_keeps_last_twenty (readings : list MemoryUsage) d :
  len (snapshots d) <= 20 ->
  let d' := fold_left (fun d usage => sample usage d) readings d in
  snapshots d' = slice_last 20 (snapshots d ++ readings) /\
  len (snapshots d') <= 20 /\
  interval d' = interval d.
Proof.
  intros H. cbv zeta.
  assert (Hs : snapshots (fold_left (fun d usage => sample usage d) readings d)
               = fold_left (fun a x => push_bounded 20 x a) readings
                   (snapshots d) /\
               interval (fold_left (fun d usage => sample usage d) readings d)
               = interval d).
  { clear H. revert d. induction readings as [|u us IH]; intros d; [auto|].
    simpl. destruct (IH (sample u d)) as (-> & ->).
    unfold sample. destruct (checkForLeaks_snapshots
      (mkDetector (push_bounded 20 u (snapshots d)) (interval d) (console d)))
      as (-> & ->). auto. }
  destruct Hs as (-> & ->).
  rewrite (push_bounded_run 20 readings ltac:(lia) _ H).
  split; [reflexivity|]. split; [|reflexivity].
  unfold len, slice_last. rewrite length_skipn. lia.
Qed.

(** X17. A profile keeps the last 100 measurements of its label.  After
    any series of finished profiles of one label, on a map that held at
    most 100 measurements for it, the label has the last 100 of the old
    measurements followed by the new ones, in order; the other labels are
    as they were. *)
Theorem profile_keeps_last_hundred p
    (readings : list (Q * MemoryUsage * CpuUsage * Z))
    (profiles : gmap string (list PerformanceMetrics)) :
  len (default [] (profiles !! label p)) <= 100 ->
  let finish := fun ps (r : Q * MemoryUsage * CpuUsage * Z) =>
    endProfile p (fst (fst (fst r))) (snd (fst (fst r))) (snd (fst r)) (snd r) ps in
  let profiles' := fold_left (fun ps r => snd (finish ps r)) readings profiles in
  default [] (profiles' !! label p)
  = slice_last 100
      (default [] (profiles !! label p)
         ++ map (fun r => fst (finish profiles r)) readings) /\
  forall l, l <> label p -> profiles' !! l = profiles !! l.
Proof.
  intros H. cbv zeta.
  set (finish := fun ps (r : Q * MemoryUsage * CpuUsage * Z) =>
    endProfile p (fst (fst (fst r))) (snd (fst (fst r))) (snd (fst r)) (snd r) ps).
  assert (Hm : forall ps ps' r, fst (finish ps r) = fst (finish ps' r))
    by reflexivity.
  assert (Hrun : forall rs ps,
    default [] (fold_left (fun ps r => snd (finish ps r)) rs ps !! label p)
    = fold_left (fun a x => push_bounded 100 x a)
        (map (fun r => fst (finish profiles r)) rs)
        (default [] (ps !! label p)) /\
    forall l, l <> label p ->
      fold_left (fun ps r => snd (finish ps r)) rs ps !! l = ps !! l).
  { induction rs as [|r rs IH]; intros ps; [auto|].
    cbn [fold_left map]. destruct (IH (snd (finish ps r))) as (IH1 & IH2).
    split.
    - rewrite IH1. unfold finish at 2. unfold endProfile. cbn [snd].
      rewrite lookup_insert_eq. reflexivity.
    - intros l Hl. rewrite IH2 by assumption.
      unfold finish, endProfile. cbn [snd].
      apply lookup_insert_ne. congruence. }
  destruct (Hrun readings profiles) as (-> & Hother).
  split; [|exact Hother].
  now apply (push_bounded_run 100 _ ltac:(lia)).
Qed.

(** *** Order of the statistics *)

Lemma sorted_nth_le (s : list Q) :
  StronglySorted Qle s ->
  forall i j a b,
    (i <= j)%nat -> nth_error s i = Some a -> nth_error s j = Some b ->
    (a <= b)%Q.
Proof.
  induction 1 as [|x s Hs IH Hall]; intros i j a b Hij Ha Hb.
  - destruct i; discriminate.
  - destruct i as [|i], j as [|j]; simpl in *; try lia.
    + injection Ha as <-. injection Hb as <-. apply Qle_refl.
    + injection Ha as <-. rewrite Forall_forall in Hall.
      apply Hall. apply nth_error_In in Hb. now apply list_elem_of_In.
    + apply (IH i j); auto. lia.
Qed.

Lemma sort_strongly_sorted l : StronglySorted Qle (sort l).
Proof.
  apply Sorted_StronglySorted; [|apply sort_sorted].
  intros x y z. apply Qle_trans.
Qed.

(** X18. Whenever [getProfileStats] returns statistics, the label has at
    least one measurement, [count] is their number, and the minimum, the
    95th percentile and the maximum are all defined and in this order;
    every measured duration lies between the minimum and the maximum. *)
Theorem stats_are_ordered l (profiles : gmap string (list PerformanceMetrics))
    stats :
  getProfileStats l profiles = Some stats ->
  exists samples lo p95 hi,
    profiles !! l = Some samples /\ 1 <= count stats /\
    count stats = len samples /\
    minDuration stats = Some lo /\ p95Duration stats = Some p95 /\
    maxDuration stats = Some hi /\
    (lo <= p95 <= hi)%Q /\
    forall m, In m samples -> (lo <= duration m <= hi)%Q.
Proof.
  unfold getProfileStats. destruct (profiles !! l) as [samples|]; [|discriminate].
  destruct (Z.eqb_spec (len samples) 0) as [|Hne]; [discriminate|].
  intros [= <-]. cbn [count minDuration maxDuration p95Duration].
  set (s := sort (map duration samples)).
  assert (Hlen : len s = len samples).
  { unfold len, s. now rewrite sort_length, length_map. }
  assert (Hn : 1 <= len samples) by (unfold len in *; lia).
  pose proof (p95_index_range _ Hn) as Hr.
  rewrite Hlen.
  destruct (index_in_range s 0) as (lo & Hlo); [lia|].
  destruct (index_in_range s (p95_index (len samples))) as (p95 & Hp); [lia|].
  destruct (index_in_range s (len samples - 1)) as (hi & Hhi); [lia|].
  exists samples, lo, p95, hi. rewrite Hlo, Hp, Hhi.
  repeat split; try assumption; try reflexivity.
  all: unfold index in Hlo, Hp, Hhi.
  all: destruct (Z.ltb_spec 0 0); [lia|].
  all: destruct (Z.ltb_spec (p95_index (len samples)) 0); [lia|].
  all: destruct (Z.ltb_spec (len samples - 1) 0); [lia|].
  all: pose proof (sort_strongly_sorted (map duration samples)) as Hss.
  - eapply (sorted_nth_le _ Hss); [|exact Hlo | exact Hp]. lia.
  - eapply (sorted_nth_le _ Hss); [|exact Hp | exact Hhi]. lia.
  - assert (Hin : In (duration m) s).
    { unfold s. eapply Permutation_in; [symmetry; apply sort_perm|].
      now apply in_map. }
    apply In_nth_error in Hin as (i & Hi).
    eapply (sorted_nth_le _ Hss); [|exact Hlo | exact Hi]. lia.
  - assert (Hin : In (duration m) s).
    { unfold s. eapply Permutation_in; [symmetry; apply sort_perm|].
      now apply in_map. }
    apply In_nth_error in Hin as (i & Hi).
    eapply (sorted_nth_le _ Hss); [|exact Hi | exact Hhi].
    assert (i < length s)%nat by (apply nth_error_Some; congruence).
    unfold len in *. lia.
Qed.

End TelemetryFacts.

Module RunFacts.
Import Js Performance Reference Life LoadTesterFacts LeakFacts.

Section Counting.
Variable fn : Z -> Z -> Outcome.
Variable options : BenchmarkOptions.

Local Abbreviation bs := (batchSize options).
Local Abbreviation it := (the_iterations options).
Local Abbreviation share := (Life.share options).
Local Abbreviation within := (Life.within options).

Lemma total_insert l (b : nat) i j :
  l !! b = Some i -> total (<[b := j]> l) = total l - i + j.
Proof.
  unfold total.
  revert b. induction l as [|x l IH]; intros [|b] H; simpl in *; try discriminate.
  - injection H as ->. lia.
  - rewrite (IH b H). lia.
Qed.

Lemma total_replicate n : total (replicate n 0) = 0.
Proof. unfold total. induction n as [|n IH]; simpl; lia. Qed.

Lemma timed_call_counts b r r' :
  timed_call fn options b r = Some r' ->
  within r ->
  within r' /\
  total (progress r') = total (progress r) + 1 /\
  len (results r') + len (failed r') = len (results r) + len (failed r) + 1.
Proof.
  intros Hcall Hin.
  pose proof Hcall as Hc. unfold timed_call in Hc.
  destruct (progress r !! b) as [i|] eqn:Hi; [|discriminate].
  destruct (andb _ _) eqn:Hcond; [|discriminate].
  apply andb_true_iff in Hcond as (H1 & H2).
  apply Z.ltb_lt in H1, H2.
  assert (Hp : progress r' = <[b := i + 1]> (progress r)).
  { injection Hc as <-. now destruct (fn _ _). }
  split; [|split].
  - intros b' j Hj. rewrite Hp in Hj.
    destruct (decide (b' = b)) as [->|Hne].
    + rewrite list_lookup_insert_eq in Hj
        by (apply lookup_lt_is_Some; eauto).
      injection Hj as <-. specialize (Hin b i Hi). unfold share in *. lia.
    + rewrite list_lookup_insert_ne in Hj by congruence. now apply Hin.
  - rewrite Hp, (total_insert _ _ _ _ Hi). lia.
  - injection Hc as <-. destruct (fn _ _); simpl; unfold len;
      rewrite length_app; simpl; lia.
Qed.

Lemma play_counts schedule :
  forall r,
    within r ->
    within (play fn options schedule r) /\
    len (results (play fn options schedule r))
      + len (failed (play fn options schedule r))
      - total (progress (play fn options schedule r))
    = len (results r) + len (failed r) - total (progress r).
Proof.
  induction schedule as [|b rest IH]; intros r Hin; simpl; [auto|].
  destruct (timed_call fn options b r) as [r'|] eqn:Hcall; [|now apply IH].
  destruct (timed_call_counts b r r' Hcall Hin) as (Hin' & Ht & Hl).
  destruct (IH r' Hin') as (Hw & Heq). split; [exact Hw|]. lia.
Qed.

Lemma started_within : within (started options).
Proof.
  intros b i H. unfold started in H. simpl in H.
  apply lookup_replicate in H as (-> & _). unfold share. lia.
Qed.

Lemma settled_progress r :
  within r -> settled fn options r ->
  progress r = map share (seq 0 (length (progress r))).
Proof.
  intros Hin Hset. apply list_eq. intros b.
  destruct (progress r !! b) as [i|] eqn:Hi.
  - assert (Hlt : (b < length (progress r))%nat)
      by (apply lookup_lt_is_Some; eauto).
    rewrite list_lookup_fmap, lookup_seq_lt by assumption. simpl.
    f_equal. specialize (Hset b). apply idle_iff in Hset. rewrite Hi in Hset.
    specialize (Hin b i Hi). unfold share in *.
    apply andb_false_iff in Hset as [H|H]; apply Z.ltb_ge in H; lia.
  - apply lookup_ge_None in Hi.
    symmetry. apply lookup_ge_None. rewrite length_map, length_seq. lia.
Qed.

Lemma total_snoc l x : total (l ++ [x]) = total l + x.
Proof. unfold total. induction l as [|y l IH]; simpl; lia. Qed.

Lemma shares_add_up k :
  0 <= it -> 0 <= bs ->
  total (map share (seq 0 k)) = Z.min it (Z.of_nat k * bs).
Proof.
  intros Hit Hbs. induction k as [|k IH]; [simpl; lia|].
  rewrite seq_S, map_app.
  change (map share [(0 + k)%nat]) with [share k].
  rewrite total_snoc, IH. unfold share. nia.
Qed.

Lemma batchSize_covers :
  0 <= it -> 1 <= the_concurrency options ->
  0 <= bs /\ it <= the_concurrency options * bs.
Proof.
  intros Hit Hc. unfold batchSize.
  pose proof (Z.div_mod (- it) (the_concurrency options) ltac:(lia)) as Hd.
  pose proof (Z.mod_pos_bound (- it) (the_concurrency options) ltac:(lia)) as Hm.
  fold it in Hd, Hm |- *.
  split; nia.
Qed.

(** X19. With at least 0 iterations and a concurrency of at least 1, a
    benchmark whose batches have all ended has made exactly [iterations]
    timed calls, however the batches interleaved: the durations and the
    errors together number [iterations], so the [errors] of the report are
    the iterations that left no duration. *)
Theorem every_iteration_is_timed schedule :
  0 <= the_iterations options -> 1 <= the_concurrency options ->
  settled fn options (play fn options schedule (started options)) ->
  len (results (play fn options schedule (started options)))
    + len (failed (play fn options schedule (started options)))
  = the_iterations options /\
  forall elapsed,
    errors (benchmark fn options schedule elapsed)
    = the_iterations options
      - len (results (play fn options schedule (started options))).
Proof.
  intros Hit Hc Hset.
  destruct (play_counts schedule (started options) started_within)
    as (Hin & Heq).
  pose proof (settled_progress _ Hin Hset) as Hp.
  rewrite progress_length in Hp. simpl in Hp. rewrite length_replicate in Hp.
  destruct (batchSize_covers Hit Hc) as (Hbs & Hcover).
  rewrite Hp, shares_add_up in Heq by assumption.
  simpl in Heq. rewrite total_replicate in Heq.
  unfold len in Heq at 3 4. simpl in Heq.
  rewrite Z2Nat.id in Heq by lia.
  split; [lia|]. intros elapsed. unfold benchmark, report. cbn [errors]. lia.
Qed.

End Counting.

(** *** The trend [getMemoryStats] reports *)

Lemma recent_shapes d :
  2 <= len (snapshots d) ->
  exists s0 s1 rest,
    slice_last 5 (snapshots d) = s0 :: s1 :: rest /\ (length rest <= 3)%nat.
Proof.
  intros H.
  assert (Hl : length (slice_last 5 (snapshots d))
               = Nat.min (length (snapshots d)) 5).
  { unfold slice_last. rewrite length_skipn. lia. }
  unfold len in H.
  destruct (slice_last 5 (snapshots d)) as [|s0 [|s1 rest]];
    simpl in Hl; try lia.
  exists s0, s1, rest. split; [reflexivity|]. lia.
Qed.

Ltac constants :=
  repeat match goal with
         | |- context [inject_Z ?z] =>
             let v := eval vm_compute in z in
             match v with
             | Zpos _ => idtac | Z0 => idtac | Zneg _ => idtac
             end;
             change (inject_Z z) with (v # 1)%Q
         end.

Lemma trend_is_finite (ys : list Q) :
  (2 <= length ys <= 5)%nat -> exists t, calculateTrend ys = Fin t.
Proof.
  intros H.
  destruct ys as [|y0 [|y1 [|y2 [|y3 [|y4 [|y5 l]]]]]]; simpl in H; try lia.
  all: eexists; reflexivity.
Qed.

Lemma trend_of_growth (n : nat) (a s : Z) :
  (2 <= n <= 5)%nat ->
  exists t,
    calculateTrend
      (map inject_Z (map (fun i => a + s * Z.of_nat i) (seq 0 n))) = Fin t /\
    (t == inject_Z (s * (Z.of_nat n - 1)))%Q.
Proof.
  intros H.
  destruct n as [|[|[|[|[|[|n]]]]]]; try lia.
  all: eexists; split; [reflexivity|].
  all: unfold sum, len; simpl.
  all: rewrite ?inject_Z_plus, ?inject_Z_mult; constants; field.
Qed.

(** X20. The trend of [getMemoryStats] always is a number.  The formula
    of [calculateTrend] gives NaN on no value and on a single one (0 / 0),
    which the test for at least two snapshots keeps out: with fewer than
    two snapshots the trend is 0. *)
Theorem memory_trend_is_a_number current d :
  calculateTrend [] = NaN /\
  (forall y, calculateTrend [y] = NaN) /\
  exists t,
    snd (fst (getMemoryStats current d)) = Fin t /\
    (len (snapshots d) < 2 -> t = 0%Q).
Proof.
  split; [reflexivity|]. split; [reflexivity|].
  unfold getMemoryStats. cbn [fst snd].
  destruct (Z.geb_spec (len (snapshots d)) 2) as [Hge|Hlt].
  - destruct (recent_shapes d Hge) as (s0 & s1 & rest & Hw & Hrest).
    destruct (trend_is_finite
                (map (fun s => inject_Z (heapUsed s))
                   (slice_last 5 (snapshots d)))) as (t & Ht).
    { rewrite length_map, Hw. simpl. lia. }
    exists t. split; [exact Ht|]. lia.
  - exists 0%Q. auto.
Qed.

(** X21. When the heap of the last snapshots (two to five of them, the
    window [getMemoryStats] looks at) grows by the same [s] bytes from each
    snapshot to the next, the trend reported is [s] times the number of
    steps, the growth over the window, in exact arithmetic; a heap that
    does not move has trend 0. *)
Theorem memory_trend_of_steady_growth current d (n : nat) (a s : Z) :
  (2 <= n <= 5)%nat ->
  map heapUsed (slice_last 5 (snapshots d))
  = map (fun i => a + s * Z.of_nat i) (seq 0 n) ->
  exists t,
    snd (fst (getMemoryStats current d)) = Fin t /\
    (t == inject_Z (s * (Z.of_nat n - 1)))%Q.
Proof.
  intros Hn Hw.
  assert (Hlen : 2 <= len (snapshots d)).
  { apply (f_equal (@length Z)) in Hw.
    rewrite !length_map, length_seq in Hw. unfold slice_last in Hw.
    rewrite length_skipn in Hw. unfold len. lia. }
  unfold getMemoryStats. cbn [fst snd].
  destruct (Z.geb_spec (len (snapshots d)) 2) as [_|Hlt]; [|lia].
  rewrite <- (map_map heapUsed inject_Z), Hw.
  now apply trend_of_growth.
Qed.

End RunFacts.

(** ** Facts about [ResourceService.getAllResources] *)

Module ResourceFacts.
Import Js Breaker Registry ResourceService BreakerFacts CacheFacts RegistryFacts.

Section Facts.
Context {E : Type}.
Implicit Types (w : World Store) (c : Store).

Local Abbreviation key := "all-resources"%string.
Local Abbreviation operation := (@cached_or_fetched E).

Lemma set_effect k (v : list Resource) t c (w : World Store) :
  let r := @Cache.set _ Store E k v t (c, w) in
  let c' := fst (snd r) in
  let w' := snd (snd r) in
  fst r = Normal tt /\
  (Cache.wf c -> Cache.wf c') /\
  (exists e i,
     Cache.map_get k (Cache.cache c') = Some e /\ Cache.value e = v /\
     (reads w <= i)%nat /\
     Cache.expiry e = clock w i + Cache.ttl_or_default t (Cache.options c)) /\
  Cache.options c' = Cache.options c /\
  Cache.hits c' = Cache.hits c /\ Cache.misses c' = Cache.misses c /\
  clock w' = clock w /\ store w' = store w /\ logged w' = logged w /\
  timers w' = timers w.
Proof.
  cbv zeta.
  pose proof (wf_set (E := E) k v t c w) as Hwf.
  destruct (Z.leb_spec (Cache.maxSize (Cache.options c))
              (Cache.map_size (Cache.cache c))) as [Hle|Hlt].
  - rewrite (set_at_capacity k v t c w Hle) in *. cbn [fst snd Cache.cache
      Cache.set_cache Cache.options Cache.hits Cache.misses].
    rewrite evicted_options.
    destruct (evicted_counters (T := list Resource) c (clock w (reads w)))
      as (Hh & Hm).
    split; [reflexivity|]. split; [exact Hwf|]. split.
    + eexists _, (S (reads w)). rewrite map_get_set_eq.
      split; [reflexivity|]. split; [reflexivity|]. split; [lia|reflexivity].
    + repeat split; auto.
  - rewrite (set_below_capacity k v t c w Hlt) in *. cbn [fst snd Cache.cache
      Cache.set_cache Cache.options Cache.hits Cache.misses].
    split; [reflexivity|]. split; [exact Hwf|]. split.
    + eexists _, (reads w). rewrite map_get_set_eq.
      split; [reflexivity|]. split; [reflexivity|]. split; [lia|reflexivity].
    + repeat split; auto.
Qed.

Lemma get_world k c (w : World Store) :
  clock (snd (snd (@Cache.get _ Store E k (c, w)))) = clock w /\
  (reads w <= reads (snd (snd (@Cache.get _ Store E k (c, w)))))%nat.
Proof.
  CacheFacts.run_method; simpl.
  destruct (Cache.map_get k (Cache.cache c)) as [e|]; simpl; [|split; [easy|lia]].
  destruct (_ >? Cache.expiry e); simpl; [split; [easy|lia]|].
  destruct (_ >? 100); simpl; split; try easy; lia.
Qed.

(** The operation on a cache that holds nothing else under its key. *)
Lemma operation_effect w :
  Cache.wf (store w) ->
  (forall e, Cache.map_get key (Cache.cache (store w)) = Some e ->
             Cache.value e = fetchResources) ->
  exists w' e',
    operation w = (Normal fetchResources, w') /\
    Cache.wf (store w') /\
    Cache.map_get key (Cache.cache (store w')) = Some e' /\
    Cache.value e' = fetchResources /\
    clock w' = clock w /\
    Cache.options (store w') = Cache.options (store w) /\
    match Cache.map_get key (Cache.cache (store w)) with
    | Some e =>
        if clock w (S (reads w)) >? Cache.expiry e then
          Cache.hits (store w') = Cache.hits (store w) /\
          Cache.misses (store w') = Cache.misses (store w) + 1 /\
          exists i, (reads w <= i)%nat /\
            Cache.expiry e'
            = clock w i + Cache.ttl (Cache.options (store w))
        else
          Cache.hits (store w') = Cache.hits (store w) + 1 /\
          Cache.misses (store w') = Cache.misses (store w) /\
          e' = Cache.mkEntry fetchResources (Cache.expiry e)
                 (clock w (S (S (reads w)))) (Cache.accessCount e + 1)
    | None =>
        Cache.hits (store w') = Cache.hits (store w) /\
        Cache.misses (store w') = Cache.misses (store w) + 1 /\
        exists i, (reads w <= i)%nat /\
          Cache.expiry e'
          = clock w i + Cache.ttl (Cache.options (store w))
    end.
Proof.
  intros Hwf Hval. unfold cached_or_fetched, bind, on_cache.
  destruct (Cache.map_get key (Cache.cache (store w))) as [e|] eqn:Hget.
  - destruct (Z.gtb_spec (clock w (S (reads w))) (Cache.expiry e)) as [Hgt|Hle].
    + rewrite (get_expired key (store w) w e Hget) by lia. cbn [fst snd].
      match goal with
      | |- context [Cache.set key fetchResources None (?c, ?w0)] =>
          destruct (set_effect key fetchResources None c w0)
            as (Hr & Hwf' & (e' & i & He' & Hv & Hi & Hexp) & Ho & Hh & Hm
                & Hc & _);
          destruct (Cache.set key fetchResources None (c, w0))
            as [r [c' w']]
      end.
      cbn [fst snd] in *. subst r. cbn [ret fst snd store clock].
      eexists _, e'. split; [reflexivity|]. cbn [store clock].
      split. { apply Hwf'. unfold Cache.wf in *. simpl.
               now apply map_delete_NoDup. }
      repeat split; auto. exists i. split; [simpl in Hi; lia|].
      rewrite Hexp. reflexivity.
    + destruct (get_hit (E := E) key (store w) w e Hget Hle)
        as (Hr & Hc & Hh & Hm & _ & Ho & _).
      pose proof (wf_get (E := E) key (store w) w Hwf) as Hwf'.
      destruct (get_world key (store w) w) as (Hclk & _).
      unfold Store in *.
      destruct (Cache.get key (store w, w)) as [r [c' w']].
      cbn [fst snd] in *. subst r. cbn [ret fst snd store clock].
      rewrite (Hval e eq_refl) in *.
      eexists _, _. split; [reflexivity|]. cbn [store clock].
      split; [exact Hwf'|]. rewrite Hc, map_get_set_eq.
      repeat split; auto.
  - rewrite (get_absent key (store w) w Hget). cbn [fst snd].
    match goal with
    | |- context [Cache.set key fetchResources None (?c, ?w0)] =>
        destruct (set_effect key fetchResources None c w0)
          as (Hr & Hwf' & (e' & i & He' & Hv & Hi & Hexp) & Ho & Hh & Hm
              & Hc & _);
        destruct (Cache.set key fetchResources None (c, w0))
          as [r [c' w']]
    end.
    cbn [fst snd] in *. subst r. cbn [ret fst snd store clock].
    eexists _, e'. split; [reflexivity|]. cbn [store clock].
    split; [now apply Hwf'|].
    repeat split; auto. exists i. split; [simpl in Hi; lia|].
    rewrite Hexp. reflexivity.
Qed.

Lemma attempt_success_world {U X T} (op : @Operation U X T)
    (b : CircuitBreaker) (w w1 : World U) v :
  op w = (Normal v, w1) ->
  store (snd (snd (attempt op (b, w)))) = store w1 /\
  clock (snd (snd (attempt op (b, w)))) = clock w1.
Proof.
  intros Hop. BreakerFacts.run_method; simpl. rewrite Hop; simpl.
  destruct (state b); simpl; auto.
  destruct (_ >=? _); simpl; auto.
Qed.

(** A call goes through the breaker to the operation. *)
Lemma getAllResources_runs breakers w v w1 :
  (forall b, Cache.map_get "get-resources" breakers = Some b ->
             state b <> OPEN) ->
  operation w = (Normal v, w1) ->
  exists breakers' w',
    @getAllResources E (breakers, w) = (Normal v, (breakers', w')) /\
    store w' = store w1 /\ clock w' = clock w1 /\
    (forall b, Cache.map_get "get-resources" breakers' = Some b ->
               state b <> OPEN).
Proof.
  intros Hb Hop. unfold getAllResources, protectedCall.
  assert (Hfound : exists b breakers0,
            getOrCreate "get-resources" None breakers = (Some b, breakers0) /\
            state b <> OPEN).
  { destruct (Cache.map_get "get-resources" breakers) as [b|] eqn:Hn.
    - exists b, breakers. split; [now apply getOrCreate_present|auto].
    - eexists _, _. split; [now apply getOrCreate_absent|]. simpl. congruence. }
  destruct Hfound as (b & breakers0 & -> & Hs).
  rewrite (execute_passes b w operation Hs).
  destruct (attempt_success (set_totalRequests (totalRequests b + 1) b) w
              operation v w1 Hop) as (Hr & _ & _ & _ & _ & _ & _ & Hst).
  destruct (attempt_success_world operation
              (set_totalRequests (totalRequests b + 1) b) w w1 v Hop)
    as (Hstore & Hclock).
  destruct (attempt operation (set_totalRequests (totalRequests b + 1) b, w))
    as [r [b' w']].
  cbn [fst snd] in *. subst r.
  eexists _, _. split; [reflexivity|]. split; [exact Hstore|].
  split; [exact Hclock|].
  intros b1. rewrite map_get_set_eq. intros [= <-].
  simpl in Hst. destruct (state b); try congruence.
  - destruct Hst as (-> & _). congruence.
  - destruct (_ >=? _); destruct Hst as (-> & _); congruence.
Qed.

(** X22. While its breaker is not OPEN and the cache holds under
    [all-resources] nothing but what it stored itself, [getAllResources]
    returns the resources of [fetchResources]; afterwards the cache holds
    them and both conditions still hold, so the next call finds the same. *)
Theorem resources_are_served s :
  serving s ->
  exists s',
    @getAllResources E s = (Normal fetchResources, s') /\
    serving s' /\
    Cache.map_has key (Cache.cache (store (snd s'))) = true.
Proof.
  destruct s as [breakers w]. intros (Hb & Hwf & Hval). cbn [fst snd] in *.
  destruct (operation_effect w Hwf Hval)
    as (w1 & e' & Hop & Hwf1 & He' & Hv & _).
  destruct (getAllResources_runs breakers w _ w1 Hb Hop)
    as (breakers' & w' & Hrun & Hstore & _ & Hb').
  exists (breakers', w'). split; [exact Hrun|]. unfold serving. cbn [fst snd].
  rewrite Hstore. split.
  - split; [exact Hb'|]. split; [exact Hwf1|].
    intros e. rewrite He'. intros [= <-]. exact Hv.
  - unfold Cache.map_has. now rewrite He'.
Qed.



(** X25. While the breaker of [getAllResources] is OPEN and the clock is
    before [nextAttempt], the call is rejected with the OPEN error and the
    cache is neither read nor written; the breaker counts the request. *)
Theorem open_breaker_shields_the_cache breakers w b :
  Cache.map_get "get-resources" breakers = Some b ->
  state b = OPEN -> clock w (reads w) < nextAttempt b ->
  let r := @getAllResources E (breakers, w) in
  fst r = Abrupt (JsError "Error"
                    (open_message b (nextAttempt b - clock w (S (reads w))))) /\
  store (snd (snd r)) = store w /\
  Cache.map_get "get-resources" (fst (snd r))
  = Some (set_totalRequests (totalRequests b + 1) b).
Proof.
  intros Hb Hs Hlt. cbv zeta. unfold getAllResources.
  rewrite (protectedCall_present _ _ _ _ _ _ Hb).
  rewrite (execute_rejected b w operation Hs Hlt). cbn [fst snd].
  split; [reflexivity|]. split; [reflexivity|]. apply map_get_set_eq.
Qed.

End Facts.
End ResourceFacts.

(** ** Facts about the report of a benchmark *)

Module ReportFacts.
Import Js Performance ProfilerFacts TelemetryFacts.

Lemma index_or_zero_value (arr : list Q) i q :
  0 <= i -> nth_error arr (Z.to_nat i) = Some q ->
  (index_or_zero arr i == q)%Q.
Proof.
  intros Hi Hq. unfold index_or_zero.
  destruct (Z.ltb_spec i 0); [lia|]. rewrite Hq.
  destruct (Qeq_bool q 0) eqn:Hz; [|reflexivity].
  apply Qeq_bool_iff in Hz. now symmetry.
Qed.

(** X26. When at least one timed call resolved, [minTime] is the smallest
    and [maxTime] the largest of the durations that were recorded: each has
    the value of one of them, and every recorded duration lies between the
    two.  (Only comparisons are involved; nothing is said of [avgTime],
    which the code computes in floating point.) *)
Theorem report_bounds_the_durations elapsed r :
  results r <> [] ->
  (exists lo hi,
     In lo (results r) /\ In hi (results r) /\
     (minTime (report elapsed r) == lo)%Q /\
     (maxTime (report elapsed r) == hi)%Q) /\
  forall d, In d (results r) ->
    (minTime (report elapsed r) <= d <= maxTime (report elapsed r))%Q.
Proof.
  intros Hne. unfold report. cbn [minTime maxTime].
  set (s := sort (results r)).
  assert (Hlen : length s = length (results r)) by apply sort_length.
  assert (Hn : (1 <= length s)%nat).
  { rewrite Hlen. destruct (results r); [congruence | simpl; lia]. }
  pose proof (sort_strongly_sorted (results r)) as Hss. fold s in Hss.
  assert (Hback : forall x, In x s -> In x (results r)).
  { intros x Hx. unfold s in Hx.
    eapply Permutation_in; [apply sort_perm | exact Hx]. }
  destruct (nth_error s 0) as [lo|] eqn:Hlo;
    [|apply nth_error_None in Hlo; lia].
  destruct (nth_error s (Z.to_nat (len s - 1))) as [hi|] eqn:Hhi;
    [|apply nth_error_None in Hhi; unfold len in Hhi; lia].
  assert (Hmin : (index_or_zero s 0 == lo)%Q)
    by (apply index_or_zero_value; [lia | exact Hlo]).
  assert (Hmax : (index_or_zero s (len s - 1) == hi)%Q)
    by (apply index_or_zero_value; [unfold len; lia | exact Hhi]).
  split.
  - exists lo, hi. split; [eapply Hback, nth_error_In; exact Hlo|].
    split; [eapply Hback, nth_error_In; exact Hhi|]. split; assumption.
  - intros d Hd. rewrite Hmin, Hmax.
    assert (Hin : In d s).
    { unfold s. eapply Permutation_in; [symmetry; apply sort_perm | exact Hd]. }
    apply In_nth_error in Hin as (i & Hi).
    assert (i < length s)%nat by (apply nth_error_Some; congruence).
    split.
    + eapply (sorted_nth_le _ Hss); [|exact Hlo | exact Hi]. lia.
    + eapply (sorted_nth_le _ Hss); [|exact Hi | exact Hhi].
      unfold len. lia.
Qed.

End ReportFacts.

(** ** Worked examples

    Each fact above that has a premise, at a concrete input. *)

Module Examples.
Import Js.

(** *** The circuit breaker *)

Section OfBreaker.
Import Breaker Life BreakerFacts BreakerLife.

Local Abbreviation Step := (@step nat string Z).
Local Abbreviation Reachable := (@reachable nat string Z).

Lemma reachable_sound_witness :
  1 <= failureThreshold (default default_options (Some Mock.strict)) /\
  1 <= successThreshold (default default_options (Some Mock.strict)) /\
  Reachable "db" (Some Mock.strict)
    (Step (Call Mock.fail) (Mock.fresh, Mock.at_time 1000)) /\
  sound "db" Mock.strict
    (fst (Step (Call Mock.fail) (Mock.fresh, Mock.at_time 1000))).
Proof.
  assert (Hn : 1 <= failureThreshold (default default_options (Some Mock.strict)))
    by (simpl; lia).
  assert (Hm : 1 <= successThreshold (default default_options (Some Mock.strict)))
    by (simpl; lia).
  assert (Hr : Reachable "db" (Some Mock.strict)
                 (Step (Call Mock.fail) (Mock.fresh, Mock.at_time 1000)))
    by apply reachable_step, reachable_new.
  split; [exact Hn|]. split; [exact Hm|]. split; [exact Hr|].
  exact (reachable_sound "db" (Some Mock.strict) _ Hn Hm Hr).
Defined.

Local Abbreviation busy_day :=
  ([Enters; Settles (Normal 42); Alone Reset; Enters; Enters;
    Settles (Abrupt "boom"%string)] : list (@Moment nat string Z)).

Lemma totals_add_up_witness :
  resets_when_idle busy_day (create "db" (Some Mock.strict),
                             Mock.at_time 1000, O) /\
  getStats
    (fst (fst (overlapping busy_day (create "db" (Some Mock.strict),
                                     Mock.at_time 1000, O))))
  = mkStats CLOSED 1 0 0 2 1 0 /\
  snd (overlapping busy_day (create "db" (Some Mock.strict),
                             Mock.at_time 1000, O)) = 1%nat /\
  1 + 0 + Z.of_nat 1 <= 2.
Proof.
  assert (Hidle : resets_when_idle busy_day
                    (create "db" (Some Mock.strict), Mock.at_time 1000, O))
    by (simpl; tauto).
  split; [exact Hidle|]. split; [reflexivity|]. split; [reflexivity|].
  exact (proj2 (proj2 (totals_add_up "db" (Some Mock.strict)
                         (Mock.at_time 1000) busy_day Hidle))).
Defined.

Lemma busy_breaker_stays_sound_witness :
  1 <= failureThreshold (default default_options (Some Mock.strict)) /\
  1 <= successThreshold (default default_options (Some Mock.strict)) /\
  sound "db" Mock.strict
    (fst (fst (overlapping busy_day (create "db" (Some Mock.strict),
                                     Mock.at_time 1000, O)))).
Proof.
  assert (Hn : 1 <= failureThreshold (default default_options (Some Mock.strict)))
    by (simpl; lia).
  assert (Hm : 1 <= successThreshold (default default_options (Some Mock.strict)))
    by (simpl; lia).
  split; [exact Hn|]. split; [exact Hm|].
  exact (busy_breaker_stays_sound "db" (Some Mock.strict) (Mock.at_time 1000)
           busy_day Hn Hm).
Defined.

Lemma open_breaker_stays_shut_witness :
  state Mock.opened = OPEN /\
  (forall i, clock (Mock.at_time 1000) i < nextAttempt Mock.opened) /\
  totalRequests
    (fst (after_all [Mock.succeed; Mock.fail] (Mock.opened, Mock.at_time 1000)))
  = 3 + 2 /\
  store
    (snd (after_all [Mock.succeed; Mock.fail] (Mock.opened, Mock.at_time 1000)))
  = 0%nat.
Proof.
  assert (Hs : state Mock.opened = OPEN) by reflexivity.
  assert (Hc : forall i, clock (Mock.at_time 1000) i < nextAttempt Mock.opened)
    by (intros i; simpl; lia).
  destruct (open_breaker_stays_shut Mock.opened (Mock.at_time 1000)
              [Mock.succeed; Mock.fail] Hs Hc) as (Heq & Hstore).
  split; [exact Hs|]. split; [exact Hc|]. split; [|exact Hstore].
  rewrite Heq. reflexivity.
Defined.

Lemma reset_starts_over_witness :
  1 <= failureThreshold (options Mock.opened) /\
  Z.of_nat (length [Mock.fail; Mock.fail; Mock.fail])
    = failureThreshold (options Mock.opened) /\
  Forall rejects [Mock.fail; Mock.fail; Mock.fail] /\
  state (fst (after_all [Mock.fail; Mock.fail; Mock.fail]
                (snd (@reset nat string (Mock.opened, Mock.at_time 1000)))))
  = OPEN /\
  state (fst (after_all [Mock.fail; Mock.fail]
                (snd (@reset nat string (Mock.opened, Mock.at_time 1000)))))
  = CLOSED.
Proof.
  assert (Hn : 1 <= failureThreshold (options Mock.opened)) by (simpl; lia).
  assert (Hall : Forall rejects [Mock.fail; Mock.fail; Mock.fail])
    by (repeat constructor; apply fail_rejects).
  destruct (reset_starts_over Mock.opened (Mock.at_time 1000)
              [Mock.fail; Mock.fail; Mock.fail] Hn eq_refl Hall)
    as (_ & _ & _ & Hopen & Hclosed).
  split; [exact Hn|]. split; [reflexivity|]. split; [exact Hall|].
  split; [exact Hopen|]. apply (Hclosed 2%nat). simpl. lia.
Defined.


Lemma timers_spare_the_streak_witness :
  state Mock.fresh = CLOSED /\
  Forall failure_or_timer [Call Mock.fail; TimerFires; Call Mock.fail] /\
  failureCount Mock.fresh
    + Z.of_nat (calls [Call Mock.fail; TimerFires; Call Mock.fail])
    < failureThreshold (options Mock.fresh) /\
  failureCount
    (fst (run [Call Mock.fail; TimerFires; Call Mock.fail]
            (Mock.fresh, Mock.at_time 1000)))
  = 2 /\
  state
    (fst (run ([Call Mock.fail; TimerFires; Call Mock.fail] ++ [Call Mock.fail])
            (Mock.fresh, Mock.at_time 1000)))
  = OPEN.
Proof.
  assert (Hall : Forall failure_or_timer
                   [Call Mock.fail; TimerFires; Call Mock.fail]).
  { repeat constructor; simpl; apply fail_rejects. }
  assert (Hlt : failureCount Mock.fresh
                + Z.of_nat (calls [Call Mock.fail; TimerFires; Call Mock.fail])
                < failureThreshold (options Mock.fresh)) by reflexivity.
  destruct (timers_spare_the_streak Mock.fresh (Mock.at_time 1000)
              [Call Mock.fail; TimerFires; Call Mock.fail] eq_refl Hall Hlt)
    as ((_ & Hcount) & Hopens).
  split; [reflexivity|]. split; [exact Hall|]. split; [exact Hlt|].
  split; [exact Hcount|].
  apply Hopens; [apply fail_rejects | reflexivity].
Defined.

End OfBreaker.

(** *** The registry *)

Section OfRegistry.
Import Breaker Registry BreakerFacts RegistryFacts.

Lemma calls_share_one_breaker_witness :
  [Mock.fail; Mock.succeed] <> [] /\
  Cache.map_get "db"
    (fst (after_calls "db" (Some Mock.strict) [Mock.fail; Mock.succeed]
            ([], Mock.at_time 1000)))
  = Some (fst (after_all [Mock.fail; Mock.succeed]
                 (Mock.fresh, Mock.at_time 1000))) /\
  store (snd (after_calls "db" (Some Mock.strict) [Mock.fail; Mock.succeed]
                ([], Mock.at_time 1000)))
  = 2%nat.
Proof.
  assert (Hne : [Mock.fail; Mock.succeed] <> []) by discriminate.
  destruct (calls_share_one_breaker "db" (Some Mock.strict)
              [Mock.fail; Mock.succeed] [] (Mock.at_time 1000) Hne)
    as (Hb & Hw & _).
  split; [exact Hne|]. split; [exact Hb|]. exact (f_equal store Hw).
Defined.

End OfRegistry.

(** *** The cache *)

Section OfCache.
Import Cache Life CacheFacts CacheLife.

Lemma two_entries_wf : wf Sample.two_entries.
Proof.
  unfold wf. simpl. apply NoDup_cons. split; [|apply NoDup_singleton].
  intros H. apply list_elem_of_In in H. simpl in H.
  destruct H as [H|[]]. discriminate.
Qed.

Lemma delete_forgets_witness :
  wf Sample.two_entries /\
  fst (@delete Z nat string "a" (Sample.two_entries, Mock.at_time 1000))
  = Normal true /\
  fst (@get Z nat string "a"
         (fst (snd (@delete Z nat string "a"
                      (Sample.two_entries, Mock.at_time 1000))),
          Mock.at_time 1200))
  = Normal None /\
  map_get "b"
    (cache (fst (snd (@delete Z nat string "a"
                        (Sample.two_entries, Mock.at_time 1000)))))
  = Some (mkEntry 2 2500 1000 3).
Proof.
  destruct (@delete_forgets Z nat string "a" Sample.two_entries
              (Mock.at_time 1000) two_entries_wf)
    as (Hr & _ & Hothers & _ & _ & _ & Hget).
  split; [exact two_entries_wf|]. split; [exact Hr|].
  split; [apply (Hget (Mock.at_time 1200))|].
  rewrite Hothers by discriminate. reflexivity.
Defined.

Lemma cleanup_sweeps_the_expired_witness :
  wf Sample.two_entries /\
  keys (cache (fst (snd (@cleanup Z nat string
                           (Sample.two_entries, Mock.at_time 2000)))))
  = ["b"%string] /\
  map_get "a"
    (cache (fst (snd (@cleanup Z nat string
                        (Sample.two_entries, Mock.at_time 2000)))))
  <> Some (mkEntry 1 1500 1000 0).
Proof.
  destruct (@cleanup_sweeps_the_expired Z nat string Sample.two_entries
              (Mock.at_time 2000) two_entries_wf) as (_ & Hiff & _).
  split; [exact two_entries_wf|]. split; [reflexivity|].
  intros H. apply Hiff in H as (_ & Hle). simpl in Hle. lia.
Defined.

Lemma hitRate_is_the_share_of_hits_witness :
  0 <= hits Sample.two_entries /\ 0 <= misses Sample.two_entries /\
  same (hitRate (getStats Sample.two_entries)) (Fin (4 # 6)).
Proof.
  assert (Hh : 0 <= hits Sample.two_entries) by (simpl; lia).
  assert (Hm : 0 <= misses Sample.two_entries) by (simpl; lia).
  split; [exact Hh|]. split; [exact Hm|].
  exact (proj1 (hitRate_is_the_share_of_hits Sample.two_entries Hh Hm)).
Defined.

Lemma ticking_increases t : strictly_increasing (clock (Sample.ticking t)).
Proof. intros i j H. simpl. lia. Qed.

Lemma size_stays_bounded_witness :
  strictly_increasing (clock (Sample.ticking 1000)) /\
  Forall named
    [OnSet "a" 1 None; OnSet "b" 2 None; OnGet "a"; OnSet "c" 3 None] /\
  map_size
    (cache
       (fst (@accesses Z nat string
               [OnSet "a" 1 None; OnSet "b" 2 None; OnGet "a"; OnSet "c" 3 None]
               (@create Z nat string
                  (Some (mkCacheOptions 300000 2 60000))
                  (Sample.ticking 1000)))))
  <= 2.
Proof.
  assert (Hall : Forall named
                   [OnSet "a" 1 None; OnSet "b" 2 None; OnGet "a";
                    OnSet "c" 3 None]).
  { repeat constructor; simpl; discriminate. }
  destruct (@size_stays_bounded Z nat string
              (Some (mkCacheOptions 300000 2 60000)) (Sample.ticking 1000)
              _ (ticking_increases 1000) Hall) as (Hmax & _).
  split; [exact (ticking_increases 1000)|]. split; [exact Hall|].
  exact Hmax.
Defined.

End OfCache.

(** *** The telemetry *)

Section OfTelemetry.
Import Performance Reference LoadTesterFacts TelemetryFacts RunFacts.

Lemma detector_keeps_last_twenty_witness :
  len (snapshots (mkDetector [] None [])) <= 20 /\
  map heapUsed
    (snapshots
       (fold_left (fun d usage => sample usage d) (Sample.readings 25)
          (mkDetector [] None [])))
  = map Z.of_nat (seq 5 20).
Proof.
  assert (H : len (snapshots (mkDetector [] None [])) <= 20)
    by (vm_compute; discriminate).
  destruct (detector_keeps_last_twenty (Sample.readings 25)
              (mkDetector [] None []) H) as (Hs & _).
  split; [exact H|]. rewrite Hs. reflexivity.
Defined.

Lemma profile_keeps_last_hundred_witness :
  len (default [] (Mock.ten_samples
                     !! label (startProfile "GET:/api" 0 Mock.zero_memory)))
    <= 100 /\
  map duration
    (default []
       (snd (endProfile (startProfile "GET:/api" 0 Mock.zero_memory)
               25 Mock.zero_memory (mkCpuUsage 0 0) 0 Mock.ten_samples)
          !! "GET:/api"%string))
  = map inject_Z [50; 10; 100; 30; 70; 20; 90; 40; 60; 80]
      ++ [(25 - 0)%Q].
Proof.
  assert (H : len (default [] (Mock.ten_samples
                     !! label (startProfile "GET:/api" 0 Mock.zero_memory)))
              <= 100) by (vm_compute; discriminate).
  destruct (profile_keeps_last_hundred
              (startProfile "GET:/api" 0 Mock.zero_memory)
              [(25%Q, Mock.zero_memory, mkCpuUsage 0 0, 0)]
              Mock.ten_samples H) as (Hs & _).
  split; [exact H|].
  exact (f_equal (map duration) Hs).
Defined.

Lemma stats_are_ordered_witness :
  exists stats,
    getProfileStats "GET:/api" Mock.ten_samples = Some stats /\
    exists lo p95 hi,
      minDuration stats = Some lo /\ p95Duration stats = Some p95 /\
      maxDuration stats = Some hi /\ (lo <= p95 <= hi)%Q.
Proof.
  destruct (getProfileStats "GET:/api" Mock.ten_samples) as [stats|] eqn:Hs;
    [|discriminate].
  exists stats. split; [reflexivity|].
  destruct (stats_are_ordered "GET:/api" Mock.ten_samples stats Hs)
    as (_ & lo & p95 & hi & _ & _ & _ & Hlo & Hp & Hhi & Hord & _).
  now exists lo, p95, hi.
Defined.

Lemma every_iteration_is_timed_witness :
  0 <= the_iterations Mock.three_by_two /\
  1 <= the_concurrency Mock.three_by_two /\
  settled Mock.always_rejects Mock.three_by_two
    (play Mock.always_rejects Mock.three_by_two (in_turn Mock.three_by_two)
       (started Mock.three_by_two)) /\
  len (results
         (play Mock.always_rejects Mock.three_by_two
            (in_turn Mock.three_by_two) (started Mock.three_by_two)))
  + len (failed
           (play Mock.always_rejects Mock.three_by_two
              (in_turn Mock.three_by_two) (started Mock.three_by_two)))
  = 3.
Proof.
  assert (Hi : 0 <= the_iterations Mock.three_by_two)
    by (vm_compute; discriminate).
  assert (Hc : 1 <= the_concurrency Mock.three_by_two)
    by (vm_compute; discriminate).
  pose proof (in_turn_settles Mock.always_rejects Mock.three_by_two) as Hset.
  split; [exact Hi|]. split; [exact Hc|]. split; [exact Hset|].
  exact (proj1 (every_iteration_is_timed Mock.always_rejects Mock.three_by_two
                  (in_turn Mock.three_by_two) Hi Hc Hset)).
Defined.

Lemma memory_trend_of_steady_growth_witness :
  (2 <= 3 <= 5)%nat /\
  map heapUsed (slice_last 5 (snapshots (Mock.watching [100; 110; 120])))
  = map (fun i => 100 + 10 * Z.of_nat i) (seq 0 3) /\
  exists t,
    snd (fst (getMemoryStats Mock.zero_memory (Mock.watching [100; 110; 120])))
    = Fin t /\
    (t == 20)%Q.
Proof.
  assert (Hn : (2 <= 3 <= 5)%nat) by lia.
  assert (Hw : map heapUsed
                 (slice_last 5 (snapshots (Mock.watching [100; 110; 120])))
               = map (fun i => 100 + 10 * Z.of_nat i) (seq 0 3))
    by reflexivity.
  split; [exact Hn|]. split; [exact Hw|].
  exact (memory_trend_of_steady_growth Mock.zero_memory
           (Mock.watching [100; 110; 120]) 3 100 10 Hn Hw).
Defined.

End OfTelemetry.

(** *** The resource service *)

Section OfResources.
Import Breaker ResourceService ResourceFacts.

Lemma new_service_serving :
  @serving ([], Sample.resources_world 1000).
Proof.
  split; [discriminate|]. split; [constructor | discriminate].
Qed.

Lemma resources_are_served_witness :
  @serving ([], Sample.resources_world 1000) /\
  fst (@getAllResources string ([], Sample.resources_world 1000))
  = Normal fetchResources /\
  @serving Sample.after_first_call.
Proof.
  destruct (@resources_are_served string _ new_service_serving)
    as (s' & Hrun & Hs' & _).
  split; [exact new_service_serving|].
  unfold Sample.after_first_call. rewrite Hrun. split; [reflexivity|exact Hs'].
Defined.




Lemma open_breaker_shields_the_cache_witness :
  Cache.map_get "get-resources" [("get-resources"%string, Sample.tripped)]
  = Some Sample.tripped /\
  state Sample.tripped = OPEN /\
  clock (Sample.resources_world 1000) (reads (Sample.resources_world 1000))
  < nextAttempt Sample.tripped /\
  fst (@getAllResources string
         ([("get-resources"%string, Sample.tripped)],
          Sample.resources_world 1000))
  = Abrupt (JsError "Error" (open_message Sample.tripped (61000 - 1000))) /\
  store (snd (snd (@getAllResources string
                     ([("get-resources"%string, Sample.tripped)],
                      Sample.resources_world 1000))))
  = store (Sample.resources_world 1000).
Proof.
  assert (Hlt : clock (Sample.resources_world 1000)
                  (reads (Sample.resources_world 1000))
                < nextAttempt Sample.tripped) by reflexivity.
  destruct (@open_breaker_shields_the_cache string
              [("get-resources"%string, Sample.tripped)]
              (Sample.resources_world 1000) Sample.tripped
              eq_refl eq_refl Hlt) as (Hr & Hs & _).
  split; [reflexivity|]. split; [reflexivity|]. split; [exact Hlt|].
  split; [exact Hr | exact Hs].
Defined.

End OfResources.

(** *** The report of a benchmark *)

Section OfReport.
Import Performance ReportFacts.

Lemma report_bounds_the_durations_witness :
  results (mkRun [] [3; 1; 2]%Q []) <> [] /\
  minTime (report 12 (mkRun [] [3; 1; 2]%Q [])) = 1%Q /\
  maxTime (report 12 (mkRun [] [3; 1; 2]%Q [])) = 3%Q /\
  (minTime (report 12 (mkRun [] [3; 1; 2]%Q [])) <= 2
   <= maxTime (report 12 (mkRun [] [3; 1; 2]%Q [])))%Q.
Proof.
  assert (Hne : results (mkRun [] [3; 1; 2]%Q []) <> []) by discriminate.
  destruct (report_bounds_the_durations 12 (mkRun [] [3; 1; 2]%Q []) Hne)
    as (_ & Hall).
  split; [exact Hne|]. split; [reflexivity|]. split; [reflexivity|].
  apply Hall. simpl. tauto.
Defined.

End OfReport.

End Examples.
